(** * Entity resolution engine of [enrich_api.py]

    A shallow embedding of the decision functions of [src/enrich_api.py]
    ([clean_address], [addresses_match], [search_company]) and the
    properties of the specification that are checked against them,
    followed by further properties read off the code.

    - Python strings are sequences of Unicode code points; they are
      modelled as lists of code points.  The Unicode tables of the
      interpreter ([str.isspace], [str.isalnum], [str.upper], ...) are an
      interface ([Unicode]); a concrete table, exact on the Latin-1 range,
      is given in [Latin1] and is used to evaluate the functions on
      concrete inputs.
    - The payload of the registry API is an untyped JSON value ([value]);
      an operation that Python refuses on a value raises ([exc]), and
      [search_company] catches every exception of its [try] block.
    - [requests.get], [datetime.now().year] and the coercions of pandas
      are parameters of the functions that use them.  Logging is left
      out. *)

From Stdlib Require Import Strings.String Strings.Ascii.
From Stdlib Require Import List ZArith NArith QArith Bool Lia Lqa.
Import ListNotations.

Set Implicit Arguments.
Set Warnings "-register-all".
Open Scope list_scope.

(** ** Code points and strings *)

Definition char := N.
Definition str := list char.

(** Decoder of UTF-8, used only to write string literals of the source
    ("Electricité", "·", " – ") as Rocq string literals. *)
Fixpoint utf8_go (need : nat) (acc : N) (bs : list N) : str :=
  match bs with
  | [] => []
  | b :: bs' =>
      match need with
      | O =>
          if (b <? 128)%N then b :: utf8_go 0 0%N bs'
          else if (b <? 224)%N then utf8_go 1 (b - 192)%N bs'
          else if (b <? 240)%N then utf8_go 2 (b - 224)%N bs'
          else utf8_go 3 (b - 240)%N bs'
      | S k =>
          let acc' := (acc * 64 + (b - 128))%N in
          match k with
          | O => acc' :: utf8_go 0 0%N bs'
          | S _ => utf8_go k acc' bs'
          end
      end
  end.

Definition u8 (s : string) : str :=
  utf8_go 0 0%N (map (fun a => N_of_ascii a) (list_ascii_of_string s)).

Notation "'SP'" := 32%N (only parsing, at level 0).
Notation "'UNDERSCORE'" := 95%N (only parsing, at level 0).

(** Equality and order of strings ([==], [<] of Python: code point
    lexicographic order). *)
Fixpoint str_eqb (a b : str) : bool :=
  match a, b with
  | [], [] => true
  | x :: a', y :: b' => (x =? y)%N && str_eqb a' b'
  | _, _ => false
  end.

Fixpoint str_ltb (a b : str) : bool :=
  match a, b with
  | _, [] => false
  | [], _ :: _ => true
  | x :: a', y :: b' =>
      if (x <? y)%N then true
      else if (x =? y)%N then str_ltb a' b' else false
  end.

(** [x in l] for a list of strings. *)
Definition str_mem (x : str) (l : list str) : bool := existsb (str_eqb x) l.

Definition isnil (A : Type) (l : list A) : bool :=
  match l with [] => true | _ => false end.

(** [needle in hay] for strings. *)
Fixpoint starts_with (p s : str) : bool :=
  match p, s with
  | [], _ => true
  | x :: p', y :: s' => (x =? y)%N && starts_with p' s'
  | _ :: _, [] => false
  end.

Fixpoint contains (needle hay : str) : bool :=
  starts_with needle hay
  || match hay with
     | [] => false
     | _ :: hay' => contains needle hay'
     end.

(** [sep.join(l)]. *)
Fixpoint join (sep : str) (l : list str) : str :=
  match l with
  | [] => []
  | [w] => w
  | w :: l' => w ++ sep ++ join sep l'
  end.

(** [s.split(sep)[0]] for a non-empty separator: the text before the first
    occurrence of [sep], the whole string when there is none. *)
Fixpoint before_sep (sep s : str) : str :=
  if starts_with sep s then []
  else match s with
       | [] => []
       | c :: s' => c :: before_sep sep s'
       end.

(** Slices [l[-i:]] and [l[:-i]] for [i >= 1]. *)
Definition last_n (A : Type) (i : nat) (l : list A) : list A :=
  skipn (length l - i) l.
Definition but_last_n (A : Type) (i : nat) (l : list A) : list A :=
  firstn (length l - i) l.

(** ** The Unicode tables of the interpreter *)

Class Unicode : Type := {
  isspace : char -> bool;          (* str.isspace, [\s], strip, split *)
  isalnum : char -> bool;          (* str.isalnum; [\w] is isalnum or '_' *)
  decimal : char -> option Z;      (* value of a decimal digit: [\d], int() *)
  isdigit : char -> bool;          (* str.isdigit *)
  upper_cp : char -> str;          (* full upper-case mapping of one char *)
  py_lower : str -> str            (* str.lower (context sensitive) *)
}.

Section Strings.
Context {U : Unicode}.

Definition isword (c : char) : bool := isalnum c || (c =? UNDERSCORE)%N.
Definition isdecimal (c : char) : bool :=
  match decimal c with Some _ => true | None => false end.

(** [s.upper()]. *)
Definition upper (s : str) : str := flat_map upper_cp s.

(** [s.strip()]. *)
Fixpoint lstrip (s : str) : str :=
  match s with
  | [] => []
  | c :: s' => if isspace c then lstrip s' else s
  end.
Definition rstrip (s : str) : str := rev (lstrip (rev s)).
Definition strip (s : str) : str := rstrip (lstrip s).

(** [s.split()]: the maximal runs of non-white-space characters. *)
Fixpoint split (s : str) : list str :=
  match s with
  | [] => []
  | c :: s' =>
      if isspace c then split s'
      else match s' with
           | [] => [[c]]
           | c' :: _ =>
               if isspace c' then [c] :: split s'
               else match split s' with
                    | w :: ws => (c :: w) :: ws
                    | [] => [[c]]
                    end
           end
  end.

(** *** Maximal runs of word characters

    A pattern [\bLIT\b] with [LIT] made of word characters matches exactly
    the maximal runs of word characters that are equal to [LIT]; so does
    [\b\d{5}\b] with the runs made of five decimal digits.  [tokens] cuts a
    string into its maximal runs of word characters and the single other
    characters between them. *)
Inductive token : Type :=
| W (w : str)    (* a maximal run of word characters *)
| C (c : char).  (* one non-word character *)

Fixpoint tokens (s : str) : list token :=
  match s with
  | [] => []
  | c :: s' =>
      if isword c then
        match tokens s' with
        | W w :: ts => W (c :: w) :: ts
        | ts => W [c] :: ts
        end
      else C c :: tokens s'
  end.

Definition untoken (t : token) : str :=
  match t with W w => w | C c => [c] end.
Definition untokens (ts : list token) : str := flat_map untoken ts.

(** [re.sub(r'\bPAT\b', REP, s)]. *)
Definition sub_token (pat rep : str) (t : token) : token :=
  match t with
  | W w => if str_eqb w pat then W rep else W w
  | C c => C c
  end.
Definition sub_word (pat rep : str) (s : str) : str :=
  untokens (map (sub_token pat rep) (tokens s)).

(** [re.sub(r'[^\w\s]', ' ', s)]. *)
Definition sub_punct (s : str) : str :=
  map (fun c => if isword c || isspace c then c else SP) s.

(** [re.sub(r'\s+', ' ', s)]: [in_run] tells that the previous character
    belongs to the run of white space being replaced. *)
Fixpoint collapse_go (in_run : bool) (s : str) : str :=
  match s with
  | [] => []
  | c :: s' =>
      if isspace c then
        if in_run then collapse_go true s' else SP :: collapse_go true s'
      else c :: collapse_go false s'
  end.
Definition collapse (s : str) : str := collapse_go false s.

(** [re.search(r'\b\d{5}\b', s)]: the first run of word characters made of
    exactly five decimal digits ([group(0)] of the match), if any. *)
Definition is_cp (w : str) : bool :=
  (length w =? 5)%nat && forallb isdecimal w.
Fixpoint first_cp (ts : list token) : option str :=
  match ts with
  | [] => None
  | W w :: ts' => if is_cp w then Some w else first_cp ts'
  | C _ :: ts' => first_cp ts'
  end.
Definition search_cp (s : str) : option str := first_cp (tokens s).

(** ** [clean_address] (lines 24-43), on a string argument

    [pd.isna] of a string is [False], so the guard is [not address]. *)
Definition clean_address (address : str) : str :=
  if isnil address then []
  else
    let address := upper address in
    let address := sub_word (u8 "BOULEVARD") (u8 "BD") address in
    let address := sub_word (u8 "AVENUE") (u8 "AV") address in
    let address := sub_word (u8 "ROUTE") (u8 "RTE") address in
    let address := sub_word (u8 "RUE") (u8 "R") address in
    let address := sub_word (u8 "SAINT") (u8 "ST") address in
    let address := sub_word (u8 "SAINTE") (u8 "STE") address in
    let address := sub_punct address in
    strip (collapse address).

End Strings.

(** ** JSON payloads and exceptions *)

(** The values [response.json()] produces.  A JSON number with a
    fractional part behaves, for every operation this program applies to a
    payload (truth value, comparison with a [str], [len], [.get],
    hashing), as some [VInt]; it has no constructor of its own.  A dict
    is the list of its items, whose keys are pairwise distinct. *)
Inductive value : Type :=
| VNone
| VBool (b : bool)
| VInt (z : Z)
| VStr (s : str)
| VList (l : list value)
| VDict (d : list (str * value)).

Inductive exn : Type :=
| AttributeError | TypeError | ValueError | IndexError | ZeroDivisionError
| JSONDecodeError | RequestException.

(** Outcome of a computation that may raise. *)
Inductive exc (A : Type) : Type :=
| Ret (a : A)
| Raise (e : exn).
Arguments Ret {A} a.
Arguments Raise {A} e.

Definition bind (A B : Type) (m : exc A) (k : A -> exc B) : exc B :=
  match m with
  | Ret a => k a
  | Raise e => Raise e
  end.

Notation "x <- m ;; k" := (bind m (fun x => k))
  (at level 61, m at next level, right associativity).

(** [try: body except Exception: handler]. *)
Definition try_except (A : Type) (body : exc A) (handler : exn -> A) : A :=
  match body with
  | Ret a => a
  | Raise e => handler e
  end.

(** Truth value of a payload ([if v:], [not v]). *)
Definition truthy (v : value) : bool :=
  match v with
  | VNone => false
  | VBool b => b
  | VInt z => negb (z =? 0)%Z
  | VStr s => negb (isnil s)
  | VList l => negb (isnil l)
  | VDict d => negb (isnil d)
  end.

Fixpoint assoc (k : str) (d : list (str * value)) : option value :=
  match d with
  | [] => None
  | (k', v) :: d' => if str_eqb k k' then Some v else assoc k d'
  end.

(** [v.get(key, default)]: only a dict has the method. *)
Definition get (v : value) (key : string) (default : value) : exc value :=
  match v with
  | VDict d =>
      Ret (match assoc (u8 key) d with Some x => x | None => default end)
  | _ => Raise AttributeError
  end.

(** [for x in v: x.get(...)] on a payload [v] that is true: a list gives
    its elements; a number is not iterable; a non-empty dict or string
    gives strings, whose [.get] fails at the first turn.  All cases but
    the list end in an exception before anything else happens. *)
Definition elements (v : value) : exc (list value) :=
  match v with
  | VList l => Ret l
  | VDict _ | VStr _ => Raise AttributeError
  | _ => Raise TypeError
  end.

(** [a or b]. *)
Definition py_or (a b : value) : value := if truthy a then a else b.

(** A payload used where only a [str] works ([+] with a [str],
    [re.search], [.upper()]). *)
Definition as_str (e : exn) (v : value) : exc str :=
  match v with
  | VStr s => Ret s
  | _ => Raise e
  end.

Section Matcher.
Context {U : Unicode}.

(** [clean_address] of a payload that is true and is not a string goes
    through [pd.isna] and [str()], which belong to the libraries: its
    outcome is a parameter. *)
Variable clean_foreign : value -> exc str.

Definition clean_address_value (v : value) : exc str :=
  match v with
  | VStr s => Ret (clean_address s)
  | _ => clean_foreign v
  end.

(** [set(a.split())] and the size of an intersection. *)
Fixpoint str_set (l : list str) : list str :=
  match l with
  | [] => []
  | w :: l' => if str_mem w l' then str_set l' else w :: str_set l'
  end.
Definition inter_size (a b : list str) : nat :=
  length (filter (fun w => str_mem w b) a).

Definition placeholders : list str := [u8 "·"; u8 "."; u8 "-"; u8 "/"].

Definition cp_differ (a b : option str) : bool :=
  match a, b with
  | Some x, Some y => negb (str_eqb x y)
  | _, _ => false
  end.

(** ** [addresses_match] (lines 45-81)

    [original_address] is a string (the address of the input record);
    [api_address] is a payload.  In line 81 the product
    [len(original_words) * 0.3] is a binary64 number; for an integer [k]
    and a word count [n] below 2^50 the comparison [k >= max(2, n * 0.3)]
    holds exactly when [2 <= k] and [3 * n <= 10 * k]. *)
Definition addresses_match (original_address : str) (api_address : value)
  : exc bool :=
  if isnil original_address || negb (truthy api_address) then Ret false
  else if str_mem (strip original_address) placeholders then Ret false
  else
    let norm_original := clean_address original_address in
    norm_api <- clean_address_value api_address ;;
    if isnil norm_original || isnil norm_api then Ret false
    else if contains norm_original norm_api || contains norm_api norm_original
    then Ret true
    else
      let original_words := str_set (split norm_original) in
      let api_words := str_set (split norm_api) in
      let common_words := inter_size original_words api_words in
      let original_cp := search_cp original_address in
      api_str <- as_str TypeError api_address ;;
      let api_cp := search_cp api_str in
      if cp_differ original_cp api_cp then Ret false
      else Ret ((2 <=? common_words)%nat
                && (3 * length original_words <=? 10 * common_words)%nat).

End Matcher.

(** ** A concrete Unicode table

    Exact for the code points below 256, for the two letters above 255
    that [upper] reaches from them (U+0178 from y with diaeresis, U+039C
    from the micro sign) and for the white space of all of Unicode: it
    computes what the interpreter computes on every string of code
    points below 256.  Any other code point above 255 is taken as a
    symbol without case that is neither a letter nor a digit. *)
Module Latin1.

Definition in_range (lo hi c : N) : bool := (lo <=? c)%N && (c <=? hi)%N.

Definition space (c : char) : bool :=
  in_range 9 13 c || in_range 28 32 c || (c =? 133)%N || (c =? 160)%N
  || (c =? 5760)%N || in_range 8192 8202 c || in_range 8232 8233 c
  || (c =? 8239)%N || (c =? 8287)%N || (c =? 12288)%N.

Definition decimal_value (c : char) : option Z :=
  if in_range 48 57 c then Some (Z.of_N c - 48)%Z else None.

Definition digit (c : char) : bool :=
  in_range 48 57 c || in_range 178 179 c || (c =? 185)%N.

Definition alnum (c : char) : bool :=
  in_range 48 57 c || in_range 65 90 c || in_range 97 122 c
  || (c =? 170)%N || in_range 178 179 c || (c =? 181)%N
  || in_range 185 186 c || in_range 188 190 c
  || in_range 192 214 c || in_range 216 246 c || in_range 248 255 c
  || (c =? 376)%N || (c =? 924)%N.

Definition to_upper (c : char) : str :=
  if in_range 97 122 c then [(c - 32)%N]
  else if (c =? 181)%N then [924%N]
  else if (c =? 223)%N then [83%N; 83%N]
  else if in_range 224 246 c || in_range 248 254 c then [(c - 32)%N]
  else if (c =? 255)%N then [376%N]
  else [c].

Definition to_lower (c : char) : char :=
  if in_range 65 90 c || in_range 192 214 c || in_range 216 222 c
  then (c + 32)%N
  else if (c =? 376)%N then 255%N
  else if (c =? 924)%N then 956%N
  else c.

Definition table : Unicode := {|
  isspace := space;
  isalnum := alnum;
  decimal := decimal_value;
  isdigit := digit;
  upper_cp := to_upper;
  py_lower := map to_lower
|}.

End Latin1.

#[global] Existing Instance Latin1.table.

(** ** The search operation *)

(** A response of the registry API: [status_code] and the outcome of
    [response.json()]. *)
Record response : Type := {
  status_code : Z;
  json : exc value
}.

(** The resolved entity returned by [search_company], its alternate
    officers, and the officer entries kept while the officers are read. *)
Module Alt.
Record t : Type := {
  nom : str;
  prenoms : str;
  qualite : str;
  age : str;
  est_personne_morale : bool
}.
End Alt.

Module Info.
Record t : Type := {
  nom : str;
  prenoms : str;
  premier_prenom : str;
  qualite : str;
  annee : value;
  age : str;
  est_personne_morale : bool;
  identifiant : str
}.
End Info.

Module Entity.
Record t : Type := {
  siren : value;
  nom_raison_sociale : value;
  adresse : value;
  etat_administratif : value;
  tranche_effectif_code : value;
  tranche_effectif : str;
  date_creation : value;
  annee_creation : value;
  nom_dirigeant : str;
  prenom_dirigeant : str;
  qualite_dirigeant : str;
  age_dirigeant : str;
  match_adresse : str;
  autres_dirigeants : list Alt.t
}.
End Entity.

(** The variables of the loop over the officers (lines 268-275). *)
Record officers : Type := {
  nom_dirigeant : str;
  prenom_dirigeant : str;
  qualite_dirigeant : str;
  annee_naissance_max : value;
  autres_dirigeants : list Info.t
}.

(** The variables of the loop over the results of the search by address
    (lines 186-189). *)
Record address_best : Type := {
  best_match : option value;
  best_score : Q;
  best_activity_match : option value;
  best_activity_score : Q
}.

(** Decimal notation of an integer ([f"{n}"]). *)
Fixpoint uint_chars (u : Decimal.uint) : str :=
  match u with
  | Decimal.Nil => []
  | Decimal.D0 u => 48%N :: uint_chars u
  | Decimal.D1 u => 49%N :: uint_chars u
  | Decimal.D2 u => 50%N :: uint_chars u
  | Decimal.D3 u => 51%N :: uint_chars u
  | Decimal.D4 u => 52%N :: uint_chars u
  | Decimal.D5 u => 53%N :: uint_chars u
  | Decimal.D6 u => 54%N :: uint_chars u
  | Decimal.D7 u => 55%N :: uint_chars u
  | Decimal.D8 u => 56%N :: uint_chars u
  | Decimal.D9 u => 57%N :: uint_chars u
  end.
Definition str_of_Z (z : Z) : str :=
  match Z.to_int z with
  | Decimal.Pos u => uint_chars u
  | Decimal.Neg u => 45%N :: uint_chars u
  end.

Definition cities : list str :=
  map u8
  ["PARIS"; "LYON"; "MARSEILLE"; "TOULOUSE"; "NICE"; "NANTES"; "MONTPELLIER";
   "STRASBOURG"; "BORDEAUX"; "LILLE"; "RENNES"; "REIMS"; "TOULON"; "GRENOBLE";
   "DIJON"; "ANGERS"; "NÎMES"; "VILLEURBANNE"; "SAINT-DENIS"; "ASNIÈRES"; "CAEN";
   "SAINT-ÉTIENNE"; "ROUEN"; "NANCY"; "ORLÉANS"; "LIMOGES"; "MULHOUSE";
   "SAINT-PAUL"; "ROUBAIX"; "DUNKERQUE"; "PERPIGNAN"; "AMIENS"; "BOULOGNE";
   "BESANÇON"; "BREST"; "CANNES"; "METZ"; "ANTIBES"; "HONFLEUR"; "HYMER"; "FECAMP"]%string.

Definition separators : list str :=
  map u8 [" - "; " | "; " – "; " – "; " : "; " / "]%string.

Definition street_words : list str :=
  map u8 ["rue"; "avenue"; "boulevard"; "bd"; "av"; "rte"; "route"; "allée";
          "all"; "chemin"; "impasse"; "place"; "quai"]%string.

Definition electrical_keywords : list str :=
  map u8 ["ELEC"; "ELECTR"; "ELECTRIC"; "ELECTRONIQUE"; "CÂBLAGE"; "CABLAGE";
          "CABL"; "INSTAL"; "COURANT"; "TELECOM"; "ENERGI"; "ENERGIE"]%string.

Definition tranche_effectif_map : list (str * str) :=
  map (fun kv => (u8 (fst kv), u8 (snd kv)))
  [("NN", "Unité non-employeuse ou présumée non-employeuse");
   ("00", "0 salarié (a employé des salariés)");
   ("01", "1 ou 2 salariés");
   ("02", "3 à 5 salariés");
   ("03", "6 à 9 salariés");
   ("11", "10 à 19 salariés");
   ("12", "20 à 49 salariés");
   ("21", "50 à 99 salariés");
   ("22", "100 à 199 salariés");
   ("31", "200 à 249 salariés");
   ("32", "250 à 499 salariés");
   ("41", "500 à 999 salariés");
   ("42", "1000 à 1999 salariés");
   ("51", "2000 à 4999 salariés");
   ("52", "5000 à 9999 salariés");
   ("53", "10000 salariés et plus")]%string.

Section Search.
Context {U : Unicode}.

(** The collaborators of [search_company]: the coercion of a foreign
    address (see [clean_address_value]), the year of [datetime.now()], and
    [requests.get], which answers the [n]-th request of a resolution, made
    with a token and a query, by a response or by an exception. *)
Variable clean_foreign : value -> exc str.
Variable annee_actuelle : Z.
Variable requests_get : nat -> str -> str -> exc response.

(** *** Simplification of the company name (lines 88-123) *)

Fixpoint cut_at_separator (seps : list str) (name : str) : str :=
  match seps with
  | [] => name
  | separator :: seps' =>
      if contains separator name then strip (before_sep separator name)
      else cut_at_separator seps' name
  end.

(** The loop of lines 118-123 over [i] in [range(1, min(4, len(words)))]. *)
Fixpoint strip_city (words : list str) (range : list nat) (name : str) : str :=
  match range with
  | [] => name
  | i :: range' =>
      let city_candidate := upper (join [SP] (last_n i words)) in
      if str_mem city_candidate cities
      then strip (join [SP] (but_last_n i words))
      else strip_city words range' name
  end.

Definition simplify_name (company_name : str) : str :=
  let simplified_name := cut_at_separator separators company_name in
  let words := split (upper simplified_name) in
  let n := length words in
  if (1 <? n)%nat then
    if str_mem (last words []) cities
       || str_mem (upper (join [SP] (last_n 2 words))) cities
       || ((2 <? n)%nat && str_mem (upper (join [SP] (last_n 3 words))) cities)
    then
      if (2 <? n)%nat
         && str_mem (nth (n - 2) words []) [u8 "ST"; u8 "SAINT"]
         && str_mem (last words []) cities
      then
        if (3 <? n)%nat then strip (join [SP] (but_last_n 2 words))
        else simplified_name
      else strip_city words (seq 1 (Nat.min 4 n - 1)) simplified_name
    else simplified_name
  else simplified_name.

(** *** Search by address (lines 151-242) *)

(** The query of line 156. *)
Definition address_query (address : str) : str :=
  let address_parts := split address in
  join [SP]
    (filter (fun p => existsb isdigit p || str_mem (py_lower p) street_words)
            address_parts).

(** [string_similarity] (lines 171-179).  The interpreter computes the
    score in binary64; here it is the exact rational.  The division fails
    when both strings are empty.  Rounding may order two results whose
    exact scores are equal or close otherwise than the exact scores do.
    What depends on the order of two scores is therefore stated over any
    score function ([address_select] takes it as an argument), not over
    this definition. *)
Fixpoint common_chars (s1 s2 : str) : Z :=
  match s1, s2 with
  | c1 :: s1', c2 :: s2' =>
      ((if (c1 =? c2)%N then 1 else 0) + common_chars s1' s2')%Z
  | _, _ => 0%Z
  end.

Definition string_similarity (s1 s2 : str) : exc Q :=
  let s1 := upper s1 in
  let s2 := upper s2 in
  let common := common_chars s1 s2 in
  let l1 := Z.of_nat (length s1) in
  let l2 := Z.of_nat (length s2) in
  if (Z.max l1 l2 =? 0)%Z then Raise ZeroDivisionError
  else
    let length_diff :=
      (1 - inject_Z (Z.abs (l1 - l2)) / inject_Z (Z.max l1 l2))%Q in
    Ret (inject_Z common + length_diff * 5)%Q.

Definition Qgtb (a b : Q) : bool := negb (Qle_bool a b).

Definition is_some (A : Type) (o : option A) : bool :=
  match o with Some _ => true | None => false end.

Section Address_select.
(** A score is a rational whatever arithmetic computes it; the loop is
    written over the similarity function, which [search_company] takes to
    be [string_similarity]. *)
Variable similarity : str -> str -> exc Q.

Definition has_electrical_keyword (combined_text : str) : bool :=
  existsb (fun keyword => contains keyword combined_text) electrical_keywords.

(** One turn of the loop of lines 191-213. *)
Definition address_step (company_name : str) (st : address_best)
  (result : value) : exc address_best :=
  result_name <- get result "nom_complet" (VStr []) ;;
  objet <- get result "objet_social" (VStr []) ;;
  autre <- get result "description" (VStr []) ;;
  let description := py_or objet autre in
  act <- get result "activite_principale" (VStr []) ;;
  let activite := py_or act (VStr []) in
  name <- as_str AttributeError result_name ;;
  score <- similarity company_name name ;;
  description <- as_str TypeError description ;;
  activite <- as_str TypeError activite ;;
  let combined_text := upper (name ++ [SP] ++ description ++ [SP] ++ activite) in
  let flagged := has_electrical_keyword combined_text in
  let st :=
    if Qgtb score 10 && Qgtb score (best_score st)
    then {| best_match := Some result; best_score := score;
            best_activity_match := best_activity_match st;
            best_activity_score := best_activity_score st |}
    else st in
  Ret (if flagged
          && (negb (is_some (best_activity_match st))
              || Qgtb score (best_activity_score st))
       then {| best_match := best_match st; best_score := best_score st;
               best_activity_match := Some result;
               best_activity_score := score |}
       else st).

Fixpoint address_loop (company_name : str) (st : address_best)
  (results : list value) : exc address_best :=
  match results with
  | [] => Ret st
  | result :: results' =>
      st' <- address_step company_name st result ;;
      address_loop company_name st' results'
  end.

(** Lines 186-233: the candidate kept from the results of the search by
    address, [None] when no result is relevant.  ([if best_match:] tests a
    result that went through [.get]: a dict; an empty dict is false.) *)
Definition address_select (company_name : str) (address_results : list value)
  : exc (option value) :=
  st <- address_loop company_name
          {| best_match := None; best_score := (-1)%Q;
             best_activity_match := None; best_activity_score := (-1)%Q |}
          address_results ;;
  let pick (o : option value) : option value :=
    match o with
    | Some r => if truthy r then Some r else None
    | None => None
    end in
  Ret (match pick (best_match st) with
       | Some r => Some r
       | None => pick (best_activity_match st)
       end).

End Address_select.

(** *** Officers (lines 264-366) *)

(** [int(v)] inside [try ... except (ValueError, TypeError)]: [None] is
    the handled failure.  A string is stripped, may carry a sign, and is
    made of decimal digits that single underscores may separate.  [int]
    strips the ASCII white space (tab to carriage return, and space) and
    the white space above U+007F, not the separators U+001C to U+001F
    that [str.strip] removes, and it refuses a string of more than 4300
    digits. *)
Definition int_space (c : char) : bool :=
  (c =? 32)%N || ((9 <=? c)%N && (c <=? 13)%N)
  || ((128 <=? c)%N && isspace c).

Fixpoint int_lstrip (s : str) : str :=
  match s with
  | [] => []
  | c :: s' => if int_space c then int_lstrip s' else s
  end.

Definition int_strip (s : str) : str :=
  rev (int_lstrip (rev (int_lstrip s))).

Definition int_max_str_digits : nat := 4300.

Fixpoint int_digits (acc : Z) (after_digit : bool) (s : str) : option Z :=
  match s with
  | [] => if after_digit then Some acc else None
  | c :: s' =>
      if (c =? UNDERSCORE)%N then
        if after_digit then int_digits acc false s' else None
      else match decimal c with
           | Some v => int_digits (10 * acc + v)%Z true s'
           | None => None
           end
  end.

Definition int_of_digits (ds : str) : option Z :=
  if (int_max_str_digits
      <? length (filter (fun c => negb (c =? UNDERSCORE)%N) ds))%nat
  then None
  else int_digits 0 false ds.

Definition int_of_str (s : str) : option Z :=
  match int_strip s with
  | 43%N :: ds => int_of_digits ds
  | 45%N :: ds => option_map Z.opp (int_of_digits ds)
  | ds => int_of_digits ds
  end.

Definition py_int (v : value) : option Z :=
  match v with
  | VStr s => int_of_str s
  | VInt z => Some z
  | VBool b => Some (if b then 1 else 0)%Z
  | _ => None
  end.

(** [f"{annee_actuelle - int(v)} ans"], the empty string when [int]
    fails. *)
Definition age_of (v : value) : str :=
  match py_int v with
  | Some y => str_of_Z (annee_actuelle - y) ++ u8 " ans"
  | None => []
  end.

(** [x.strip() if isinstance(x, str) else ''] (lines 290-292). *)
Definition stripped (v : value) : str :=
  match v with
  | VStr s => strip s
  | _ => []
  end.

(** [v == "literal"]. *)
Definition is_literal (v : value) (s : string) : bool :=
  match v with
  | VStr x => str_eqb x (u8 s)
  | _ => false
  end.

(** [annee > annee_naissance_max] (line 347).  The right operand is a
    string throughout ([annee_naissance_max_str]); a left operand that is
    not a string then raises [TypeError]. *)
Definition value_gt (a b : value) : exc bool :=
  match a, b with
  | VStr x, VStr y => Ret (str_ltb y x)
  | _, _ => Raise TypeError
  end.

(** Lines 326-338: [None] when no entry has the identifier of
    [dirigeant_info], else the list after the possible
    [dir_existant.update(dirigeant_info)]. *)
Fixpoint update_existing (dirigeant_info : Info.t) (l : list Info.t)
  : option (list Info.t) :=
  match l with
  | [] => None
  | dir_existant :: l' =>
      if str_eqb (Info.identifiant dir_existant)
                 (Info.identifiant dirigeant_info)
      then Some ((if (length (Info.prenoms dir_existant)
                      <? length (Info.prenoms dirigeant_info))%nat
                  then dirigeant_info else dir_existant) :: l')
      else option_map (cons dir_existant) (update_existing dirigeant_info l')
  end.

(** Lines 283-324: the entry built from a raw officer. *)
Definition read_dirigeant (dirigeant : value) : exc Info.t :=
  annee_alt <- get dirigeant "annee_naissance" (VStr []) ;;
  annee <- get dirigeant "annee_de_naissance" annee_alt ;;
  nom <- get dirigeant "nom" (VStr []) ;;
  prenom_alt <- get dirigeant "prenom" (VStr []) ;;
  prenoms <- get dirigeant "prenoms" prenom_alt ;;
  qualite <- get dirigeant "qualite" (VStr []) ;;
  type_dirigeant <- get dirigeant "type_dirigeant" (VStr []) ;;
  let nom := stripped nom in
  let prenoms := stripped prenoms in
  let qualite := stripped qualite in
  premier_prenom <-
    (if negb (isnil prenoms) && contains [SP] prenoms
     then match split prenoms with
          | w :: _ => Ret w
          | [] => Raise IndexError
          end
     else Ret prenoms) ;;
  let est_personne_morale :=
    is_literal type_dirigeant "personne_morale"
    || (isnil prenoms
        && (contains (u8 "SA") nom || contains (u8 "SAS") nom
            || contains (u8 "SARL") nom || contains (u8 "SCI") nom
            || contains (u8 "EURL") nom)) in
  let nom :=
    if negb (isnil nom) && contains (u8 "(") nom && contains (u8 ")") nom
    then strip (before_sep (u8 "(") nom) else nom in
  Ret {| Info.nom := nom;
         Info.prenoms := prenoms;
         Info.premier_prenom := premier_prenom;
         Info.qualite := qualite;
         Info.annee := annee;
         Info.age := if truthy annee then age_of annee else [];
         Info.est_personne_morale := est_personne_morale;
         Info.identifiant := nom ++ [UNDERSCORE] ++ premier_prenom |}.

(** One turn of the loop of lines 281-364.  Lines 353-364 build a text
    that [search_company] does not return and that cannot raise; they
    are left out. *)
Definition dirigeant_step (st : officers) (dirigeant : value) : exc officers :=
  info <- read_dirigeant dirigeant ;;
  let nom := Info.nom info in
  let premier_prenom := Info.premier_prenom info in
  let qualite := Info.qualite info in
  let annee := Info.annee info in
  let autres :=
    match update_existing info (autres_dirigeants st) with
    | Some l => l
    | None => autres_dirigeants st ++ [info]
    end in
  let st :=
    if isnil (nom_dirigeant st) && isnil (prenom_dirigeant st)
       && negb (isnil nom)
    then {| nom_dirigeant := nom; prenom_dirigeant := premier_prenom;
            qualite_dirigeant := qualite;
            annee_naissance_max := annee_naissance_max st;
            autres_dirigeants := autres |}
    else {| nom_dirigeant := nom_dirigeant st;
            prenom_dirigeant := prenom_dirigeant st;
            qualite_dirigeant := qualite_dirigeant st;
            annee_naissance_max := annee_naissance_max st;
            autres_dirigeants := autres |} in
  younger <-
    (if truthy annee then
       if negb (truthy (annee_naissance_max st)) then Ret true
       else value_gt annee (annee_naissance_max st)
     else Ret false) ;;
  Ret (if younger
       then {| nom_dirigeant := nom; prenom_dirigeant := premier_prenom;
               qualite_dirigeant := qualite;
               annee_naissance_max := annee;
               autres_dirigeants := autres_dirigeants st |}
       else st).

Fixpoint dirigeants_loop (st : officers) (dirigeants : list value)
  : exc officers :=
  match dirigeants with
  | [] => Ret st
  | dirigeant :: dirigeants' =>
      st' <- dirigeant_step st dirigeant ;;
      dirigeants_loop st' dirigeants'
  end.

Definition officers_init : officers :=
  {| nom_dirigeant := []; prenom_dirigeant := []; qualite_dirigeant := [];
     annee_naissance_max := VStr (u8 "0"); autres_dirigeants := [] |}.

(** Lines 266-366: the officers of the chosen record. *)
Definition read_dirigeants (best_match : value) : exc officers :=
  dirigeants <- get best_match "dirigeants" (VList []) ;;
  if truthy dirigeants then
    l <- elements dirigeants ;;
    dirigeants_loop officers_init l
  else Ret officers_init.

(** Lines 406-424: the alternate officers. *)
Definition is_principal (st : officers) (d : Info.t) : bool :=
  str_eqb (Info.nom d) (nom_dirigeant st)
  && str_eqb (Info.premier_prenom d) (prenom_dirigeant st).

Definition alternate (d : Info.t) : Alt.t :=
  {| Alt.nom := Info.nom d;
     Alt.prenoms := Info.premier_prenom d;
     Alt.qualite := Info.qualite d;
     Alt.age := Info.age d;
     Alt.est_personne_morale := Info.est_personne_morale d |}.

Definition autres_dirigeants_result (st : officers) : list Alt.t :=
  let autres_dirigeants_filtres :=
    filter (fun d => negb (is_principal st d)) (autres_dirigeants st) in
  map alternate (firstn 5 autres_dirigeants_filtres).

(** *** The resolved entity (lines 368-447) *)

(** [tranche_effectif_map.get(code, "null")]: a list or a dict cannot be
    hashed; a key that is not a string is not in the table. *)
Fixpoint lookup (k : str) (m : list (str * str)) : option str :=
  match m with
  | [] => None
  | (k', v) :: m' => if str_eqb k k' then Some v else lookup k m'
  end.

Definition tranche_effectif_desc (code : value) : exc str :=
  match code with
  | VList _ | VDict _ => Raise TypeError
  | VStr s =>
      Ret (match lookup s tranche_effectif_map with
           | Some d => d
           | None => u8 "null"
           end)
  | _ => Ret (u8 "null")
  end.

(** Lines 427-430.  [len] fails on a number, and a dict cannot be
    sliced; a list is sliced as a string is. *)
Definition year_of_date (date_creation_complete : value) : exc value :=
  if truthy date_creation_complete then
    match date_creation_complete with
    | VStr s => Ret (VStr (if (4 <=? length s)%nat then firstn 4 s else []))
    | VList l =>
        Ret (if (4 <=? length l)%nat then VList (firstn 4 l) else VStr [])
    | VDict d => if (4 <=? length d)%nat then Raise TypeError else Ret (VStr [])
    | _ => Raise TypeError
    end
  else Ret (VStr []).

(** [best_match.get('siege', {}).get(key, '')]. *)
Definition siege_get (result : value) (key : string) : exc value :=
  siege <- get result "siege" (VDict []) ;;
  get siege key (VStr []).

(** Lines 264-447, for a record [best_match] that is true. *)
Definition build_entity (address : str) (best_match : value) : exc Entity.t :=
  st <- read_dirigeants best_match ;;
  api_address <- siege_get best_match "adresse" ;;
  address_match <- addresses_match clean_foreign address api_address ;;
  tranche_effectif_code <- siege_get best_match "tranche_effectif_salarie" ;;
  tranche_effectif_desc <- tranche_effectif_desc tranche_effectif_code ;;
  let age :=
    if truthy (annee_naissance_max st)
       && negb (is_literal (annee_naissance_max st) "0")
    then age_of (annee_naissance_max st) else [] in
  date_creation_complete <- get best_match "date_creation" (VStr []) ;;
  annee_creation <- year_of_date date_creation_complete ;;
  siren <- get best_match "siren" (VStr []) ;;
  nom_complet <- get best_match "nom_complet" (VStr []) ;;
  etat <- get best_match "etat_administratif" (VStr []) ;;
  Ret {| Entity.siren := siren;
         Entity.nom_raison_sociale := nom_complet;
         Entity.adresse := api_address;
         Entity.etat_administratif := etat;
         Entity.tranche_effectif_code := tranche_effectif_code;
         Entity.tranche_effectif := tranche_effectif_desc;
         Entity.date_creation := annee_creation;
         Entity.annee_creation := annee_creation;
         Entity.nom_dirigeant := nom_dirigeant st;
         Entity.prenom_dirigeant := prenom_dirigeant st;
         Entity.qualite_dirigeant := qualite_dirigeant st;
         Entity.age_dirigeant := age;
         Entity.match_adresse := if address_match then u8 "Oui" else u8 "Non";
         Entity.autres_dirigeants := autres_dirigeants_result st |}.

(** *** Choice of the record (lines 244-263) *)

(** The loop of lines 248-257: the first result whose address matches. *)
Fixpoint first_address_match (address : str) (results : list value)
  : exc (option value) :=
  match results with
  | [] => Ret None
  | result :: results' =>
      api_address <- siege_get result "adresse" ;;
      matched <- addresses_match clean_foreign address api_address ;;
      if matched then Ret (Some result)
      else first_address_match address results'
  end.

(** Lines 244-261, for a value [results] that is true. *)
Definition choose (address : str) (results : value) : exc (option value) :=
  l <- elements results ;;
  best_match <- first_address_match address l ;;
  Ret (match best_match with
       | Some r => Some r
       | None => hd_error l
       end).

(** Lines 244-450. *)
Definition resolve (address : str) (results : value) : exc (option Entity.t) :=
  best_match <- choose address results ;;
  match best_match with
  | Some r =>
      if truthy r then
        e <- build_entity address r ;;
        Ret (Some e)
      else Ret None
  | None => Ret None
  end.

(** Lines 151-242: the search by address made when the search by name has
    no result; [None] stands for the [return None] of this part, [Some l]
    for the list that replaces [results]. *)
Definition search_by_address (company_name address token : str)
  : exc (option value) :=
  if negb (isnil address) && negb (str_mem (strip address) placeholders) then
    let address_search := address_query address in
    if negb (isnil (strip address_search)) then
      address_response <- requests_get 1 token address_search ;;
      if (status_code address_response =? 200)%Z then
        address_data <- json address_response ;;
        address_results <- get address_data "results" (VList []) ;;
        if truthy address_results then
          l <- elements address_results ;;
          selected_match <- address_select string_similarity company_name l ;;
          match selected_match with
          | Some r => Ret (Some (VList [r]))
          | None => Ret None
          end
        else Ret None
      else Ret None
    else Ret None
  else Ret None.

(** ** [search_company] (lines 83-458) *)

(** The [try] block of lines 140-454. *)
Definition search_company_try (simplified_name company_name address token : str)
  : exc (option Entity.t) :=
  response <- requests_get 0 token simplified_name ;;
  if (status_code response =? 200)%Z then
    data <- json response ;;
    results <- get data "results" (VList []) ;;
    if negb (truthy results) then
      results <- search_by_address company_name address token ;;
      match results with
      | Some results => resolve address results
      | None => Ret None
      end
    else resolve address results
  else Ret None.

(** The function returns a resolved entity or [None]; the handler of
    lines 456-458 turns every exception of the block into [None]. *)
Definition search_company (company_name address token : str)
  : option Entity.t :=
  let simplified_name := simplify_name company_name in
  try_except
    (search_company_try simplified_name company_name address token)
    (fun _ => None).

End Search.

(** ** Vocabulary of the properties *)

(** What the proofs use of the Unicode tables: upper-casing is stable on
    its own output, white space is not made of word characters, the
    space is white space without case, and the capital letters A-Z are
    word characters without an upper case of their own. *)
Class UnicodeLaws (U : Unicode) : Prop := {
  upper_stable : forall c c', In c' (upper_cp c) -> upper_cp c' = [c'];
  space_not_word : forall c, isspace c = true -> isword c = false;
  sp_isspace : isspace SP = true;
  sp_upper : upper_cp SP = [SP];
  capital_word : forall c, (65 <= c <= 90)%N -> isword c = true;
  capital_upper : forall c, (65 <= c <= 90)%N -> upper_cp c = [c]
}.

Section Vocabulary.
Context {U : Unicode}.

(** The runs of word characters of a list of tokens, and of a string. *)
Fixpoint words (ts : list token) : list str :=
  match ts with
  | [] => []
  | W w :: ts' => w :: words ts'
  | C _ :: ts' => words ts'
  end.
Definition wordsof (s : str) : list str := words (tokens s).

Definition starts_word (s : str) : bool :=
  match s with
  | c :: _ => isword c
  | [] => false
  end.

(** Token lists that are the tokens of a string: runs are non-empty, made
    of word characters and never adjacent; the other tokens are not word
    characters. *)
Fixpoint wf_tokens (ts : list token) : bool :=
  match ts with
  | [] => true
  | W w :: ts' =>
      negb (isnil w) && forallb isword w
      && match ts' with W _ :: _ => false | _ => true end
      && wf_tokens ts'
  | C c :: ts' => negb (isword c) && wf_tokens ts'
  end.

(** Strings whose only white space is the single space between two other
    characters ([after_space]: the previous character is a space). *)
Fixpoint single_spaced (after_space : bool) (s : str) : bool :=
  match s with
  | [] => true
  | c :: s' =>
      if isspace c then (c =? SP)%N && negb after_space && single_spaced true s'
      else single_spaced false s'
  end.

Definition sub_str (pat rep w : str) : str := if str_eqb w pat then rep else w.

(** The runs of word characters of [c :: s] from those of [s]. *)
Definition cons_word (c : char) (s : str) (ws : list str) : list str :=
  if isword c then
    if starts_word s then
      match ws with
      | w :: ws' => (c :: w) :: ws'
      | [] => [[c]]
      end
    else [c] :: ws
  else ws.

(** The substitutions of lines 32-37, in their order. *)
Definition abbreviations : list (str * str) :=
  [(u8 "BOULEVARD", u8 "BD"); (u8 "AVENUE", u8 "AV"); (u8 "ROUTE", u8 "RTE");
   (u8 "RUE", u8 "R"); (u8 "SAINT", u8 "ST"); (u8 "SAINTE", u8 "STE")].

Definition abbreviate (s : str) : str :=
  fold_left (fun a pr => sub_word (fst pr) (snd pr) a) abbreviations s.

Definition capital (c : char) : Prop := (65 <= c <= 90)%N.

(** A string on which every step of [clean_address] does nothing. *)
Definition normal (t : str) : Prop :=
  Forall (fun c => upper_cp c = [c]) t
  /\ (forall pr, In pr abbreviations -> ~ In (fst pr) (wordsof t))
  /\ Forall (fun c => isword c || isspace c = true) t
  /\ single_spaced false t = true
  /\ strip t = t.

End Vocabulary.

(** A transport outcome that is not a success: an exception or a status
    other than 200. *)
Definition unavailable (o : exc response) : bool :=
  match o with
  | Raise _ => true
  | Ret r => negb (status_code r =? 200)%Z
  end.

(** A successful response whose payload has no result. *)
Definition no_result (o : exc response) : bool :=
  match o with
  | Ret r =>
      (status_code r =? 200)%Z
      && match json r with
         | Ret data =>
             match get data "results" (VList []) with
             | Ret results => negb (truthy results)
             | Raise _ => false
             end
         | Raise _ => false
         end
  | Raise _ => false
  end.

Section Officer_vocabulary.
Context {U : Unicode}.

(** The test of line 347. *)
Definition younger_than (annee annee_max : value) : exc bool :=
  if truthy annee then
    if negb (truthy annee_max) then Ret true else value_gt annee annee_max
  else Ret false.

(** The list of entries after lines 326-338. *)
Definition record_entry (info : Info.t) (autres : list Info.t) : list Info.t :=
  match update_existing info autres with
  | Some l => l
  | None => autres ++ [info]
  end.

(** The state after one officer, from its entry and the outcome of the
    test of line 347. *)
Definition dirigeant_update (st : officers) (info : Info.t) (younger : bool)
  : officers :=
  let autres := record_entry info (autres_dirigeants st) in
  if younger then
    {| nom_dirigeant := Info.nom info;
       prenom_dirigeant := Info.premier_prenom info;
       qualite_dirigeant := Info.qualite info;
       annee_naissance_max := Info.annee info;
       autres_dirigeants := autres |}
  else if isnil (nom_dirigeant st) && isnil (prenom_dirigeant st)
          && negb (isnil (Info.nom info))
  then {| nom_dirigeant := Info.nom info;
          prenom_dirigeant := Info.premier_prenom info;
          qualite_dirigeant := Info.qualite info;
          annee_naissance_max := annee_naissance_max st;
          autres_dirigeants := autres |}
  else {| nom_dirigeant := nom_dirigeant st;
          prenom_dirigeant := prenom_dirigeant st;
          qualite_dirigeant := qualite_dirigeant st;
          annee_naissance_max := annee_naissance_max st;
          autres_dirigeants := autres |}.

(** Identity key of an entry and of an alternate officer:
    last name, underscore, first first-name. *)
Definition key_of (nom premier_prenom : str) : str :=
  nom ++ [UNDERSCORE] ++ premier_prenom.
Definition keyed (d : Info.t) : Prop :=
  Info.identifiant d = key_of (Info.nom d) (Info.premier_prenom d).
Definition alt_key (a : Alt.t) : str := key_of (Alt.nom a) (Alt.prenoms a).

(** The entries have pairwise distinct identifiers, each made of the last
    name and the first first-name of its entry. *)
Definition distinct_keys (l : list Info.t) : Prop :=
  NoDup (map Info.identifiant l) /\ Forall keyed l.

End Officer_vocabulary.

(** *** Records with the types of the data model

    A field of a record is absent, null, or has its type. *)
Definition field (d : list (str * value)) (key : string) (ok : value -> bool)
  : bool :=
  match assoc (u8 key) d with
  | None => true
  | Some v => ok v
  end.

Definition null_or_str (v : value) : bool :=
  match v with
  | VNone | VStr _ => true
  | _ => false
  end.

(** The birth year of a raw officer, under either of its two names. *)
Definition annee_field (d : list (str * value)) : value :=
  match assoc (u8 "annee_de_naissance") d with
  | Some v => v
  | None =>
      match assoc (u8 "annee_naissance") d with
      | Some v => v
      | None => VStr []
      end
  end.

Definition officer_ok (v : value) : bool :=
  match v with
  | VDict d => null_or_str (annee_field d)
  | _ => false
  end.

Definition officers_ok (v : value) : bool :=
  match v with
  | VNone => true
  | VList l => forallb officer_ok l
  | _ => false
  end.

Definition siege_ok (v : value) : bool :=
  match v with
  | VDict d =>
      field d "adresse" null_or_str
      && field d "tranche_effectif_salarie" null_or_str
  | _ => false
  end.

(** A candidate record: a record whose headquarters, officers and
    creation date, where it has them, have their types. *)
Definition candidate_ok (v : value) : bool :=
  match v with
  | VDict d =>
      field d "siege" siege_ok
      && field d "dirigeants" officers_ok
      && field d "date_creation" null_or_str
  | _ => false
  end.

(** A field of a record, as the payload has it. *)
Definition record_field (r : value) (key : string) : option value :=
  match r with
  | VDict d => assoc (u8 key) d
  | _ => None
  end.

(** The headquarters address of a candidate record in the data model:
    the address of its headquarters, the empty string when the record
    has no headquarters or the headquarters no address. *)
Definition headquarters_address (r : value) : value :=
  match record_field r "siege" with
  | Some siege =>
      match record_field siege "adresse" with
      | Some adresse => adresse
      | None => VStr []
      end
  | None => VStr []
  end.

Section Choice_vocabulary.
Context {U : Unicode}.
Variable clean_foreign : value -> exc str.

(** The outcome of lines 250-251 on a record. *)
Definition address_matches (address : str) (result : value) : bool :=
  match (api_address <- siege_get result "adresse" ;;
         addresses_match clean_foreign address api_address) with
  | Ret b => b
  | Raise _ => false
  end.

(** The address matcher accepts the headquarters address of a record
    against the input address. *)
Definition matches_headquarters (address : str) (r : value) : bool :=
  match addresses_match clean_foreign address (headquarters_address r) with
  | Ret b => b
  | Raise _ => false
  end.

End Choice_vocabulary.

Section Primary_vocabulary.
Context {U : Unicode}.
Variable annee_actuelle : Z.

(** The birth year a raw officer carries, if any. *)
Definition year_of (dirigeant : value) : option str :=
  match read_dirigeant annee_actuelle dirigeant with
  | Ret info =>
      match Info.annee info with
      | VStr y => if isnil y then None else Some y
      | _ => None
      end
  | Raise _ => None
  end.

(** The raw officer has a last name or a first name. *)
Definition named (dirigeant : value) : bool :=
  match read_dirigeant annee_actuelle dirigeant with
  | Ret info =>
      negb (isnil (Info.nom info)) || negb (isnil (Info.premier_prenom info))
  | Raise _ => false
  end.

(** The primary officer of the state is the raw officer [dirigeant]. *)
Definition is_primary (st : officers) (dirigeant : value) : Prop :=
  exists info,
    read_dirigeant annee_actuelle dirigeant = Ret info
    /\ nom_dirigeant st = Info.nom info
    /\ prenom_dirigeant st = Info.premier_prenom info
    /\ qualite_dirigeant st = Info.qualite info
    /\ annee_naissance_max st = Info.annee info.

End Primary_vocabulary.

(** A year written with four ASCII digits, and its number. *)
Definition four_digits (y : str) : bool :=
  (length y =? 4)%nat && forallb (fun c => (48 <=? c)%N && (c <=? 57)%N) y.
Definition year_number (y : str) : Z :=
  fold_left (fun acc c => (10 * acc + (Z.of_N c - 48))%Z) y 0%Z.

Section Address_vocabulary.
Context {U : Unicode}.
Variable similarity : str -> str -> exc Q.

(** The score of a result of the search by address and its keyword flag
    (lines 192-203). *)
Definition scored (company_name : str) (result : value) : exc (Q * bool) :=
  result_name <- get result "nom_complet" (VStr []) ;;
  objet <- get result "objet_social" (VStr []) ;;
  autre <- get result "description" (VStr []) ;;
  let description := py_or objet autre in
  act <- get result "activite_principale" (VStr []) ;;
  let activite := py_or act (VStr []) in
  name <- as_str AttributeError result_name ;;
  score <- similarity company_name name ;;
  description <- as_str TypeError description ;;
  activite <- as_str TypeError activite ;;
  let combined_text := upper (name ++ [SP] ++ description ++ [SP] ++ activite) in
  Ret (score, has_electrical_keyword combined_text).

(** The variables of the loop after a result with its score and flag
    (lines 205-213). *)
Definition address_update (st : address_best) (result : value) (score : Q)
  (flagged : bool) : address_best :=
  let st :=
    if Qgtb score 10 && Qgtb score (best_score st)
    then {| best_match := Some result; best_score := score;
            best_activity_match := best_activity_match st;
            best_activity_score := best_activity_score st |}
    else st in
  if flagged
     && (negb (is_some (best_activity_match st))
         || Qgtb score (best_activity_score st))
  then {| best_match := best_match st; best_score := best_score st;
          best_activity_match := Some result;
          best_activity_score := score |}
  else st.

End Address_vocabulary.

(** ** Sample data *)

(** A transport that answers the first request by an empty list of
    results and fails at the second. *)
Definition transport_lost (n : nat) (token query : str) : exc response :=
  match n with
  | O => Ret {| status_code := 200;
                json := Ret (VDict [(u8 "results", VList [])]) |}
  | S _ => Raise RequestException
  end.

Definition no_foreign (v : value) : exc str := Raise TypeError.

(** A transport whose answer lists one record without any field. *)
Definition transport_blank (n : nat) (token query : str) : exc response :=
  Ret {| status_code := 200;
         json := Ret (VDict [(u8 "results", VList [VDict []])]) |}.

(** A raw officer with a birth year, and one without. *)
Definition officer (nom prenoms qualite annee : string) : value :=
  VDict [(u8 "nom", VStr (u8 nom)); (u8 "prenoms", VStr (u8 prenoms));
         (u8 "qualite", VStr (u8 qualite));
         (u8 "annee_de_naissance", VStr (u8 annee))].
Definition officer_undated (nom prenoms qualite : string) : value :=
  VDict [(u8 "nom", VStr (u8 nom)); (u8 "prenoms", VStr (u8 prenoms));
         (u8 "qualite", VStr (u8 qualite))].

Definition durand_985 : value := officer "DURAND" "Paul" "Gérant" "985".
Definition martin_1985 : value := officer "MARTIN" "Luc" "Gérant" "1985".
Definition petit_1960 : value := officer "PETIT" "Anne" "Présidente" "1960".
Definition leroy_1972 : value := officer "LEROY" "Marc Antoine" "Gérant" "1972".

(** The same person twice: with one first name and a birth year, with two
    first names and no birth year. *)
Definition dupont_1970 : value := officer "DUPONT" "Jean" "Gérant" "1970".
Definition dupont_undated : value :=
  officer_undated "DUPONT" "Jean Pierre" "Gérant".

(** Results of a search by address: a bakery, an electrician, a garage. *)
Definition company (nom_complet activite : string) : value :=
  VDict [(u8 "siren", VStr (u8 "123456789"));
         (u8 "nom_complet", VStr (u8 nom_complet));
         (u8 "activite_principale", VStr (u8 activite))].
Definition bakery : value := company "BOULANGERIE MARTIN" "10.71C".
Definition electrician : value := company "SARL VOLT ELECTRICITE" "43.21A".
Definition garage : value := company "GARAGE DU CENTRE" "45.20A".

(** Two records of the registry and a transport that finds them. *)
Definition record (siren nom_complet adresse date_creation : string)
  (dirigeants : list value) : value :=
  VDict [(u8 "siren", VStr (u8 siren));
         (u8 "nom_complet", VStr (u8 nom_complet));
         (u8 "etat_administratif", VStr (u8 "A"));
         (u8 "date_creation", VStr (u8 date_creation));
         (u8 "siege",
          VDict [(u8 "adresse", VStr (u8 adresse));
                 (u8 "tranche_effectif_salarie", VStr (u8 "11"))]);
         (u8 "dirigeants", VList dirigeants)].

Definition record_lyon : value :=
  record "111111111" "VOLT LYON" "3 PLACE BELLECOUR 69002 LYON" "2005-01-10"
    [durand_985].
Definition record_paris : value :=
  record "222222222" "SARL VOLT ELECTRICITE" "10 RUE DE PARIS 75001 PARIS"
    "1998-04-15"
    [petit_1960; martin_1985; leroy_1972; dupont_1970; dupont_undated].

Definition transport_found (n : nat) (token query : str) : exc response :=
  Ret {| status_code := 200;
         json := Ret (VDict [(u8 "results",
                              VList [record_lyon; record_paris])]) |}.

(** A transport that finds one record. *)
Definition transport_of (r : value) (n : nat) (token query : str)
  : exc response :=
  Ret {| status_code := 200;
         json := Ret (VDict [(u8 "results", VList [r])]) |}.

(** A record whose officers are born in "985" and in "1985"; a record
    that lists the same person twice, with and without birth year, before
    a younger officer, the same with the two entries exchanged, and the
    record that lists this person once. *)
Definition record_985 : value :=
  record "444444444" "ATELIER DURAND" "8 RUE HAUTE 21000 DIJON" "2001-02-03"
    [durand_985; martin_1985].
Definition record_dupont_twice : value :=
  record "555555555" "DUPONT ET MARTIN" "2 RUE BASSE 21000 DIJON" "2003-05-06"
    [dupont_1970; dupont_undated; martin_1985].
Definition record_dupont_exchanged : value :=
  record "555555555" "DUPONT ET MARTIN" "2 RUE BASSE 21000 DIJON" "2003-05-06"
    [dupont_undated; dupont_1970; martin_1985].
Definition record_dupont_once : value :=
  record "555555555" "DUPONT ET MARTIN" "2 RUE BASSE 21000 DIJON" "2003-05-06"
    [dupont_1970; martin_1985].

(** ** Vocabulary of the further properties *)

Section Word_vocabulary.
Context {U : Unicode}.

(** The short form of a word of an address (lines 32-37): the word
    itself when it is none of the six long forms. *)
Definition abbreviation_of (w : str) : str :=
  match find (fun pr => str_eqb w (fst pr)) abbreviations with
  | Some pr => snd pr
  | None => w
  end.

Definition starts_space (s : str) : bool :=
  match s with
  | c :: _ => isspace c
  | [] => false
  end.

(** A word of [split]: not empty, without white space. *)
Definition spaceless (w : str) : Prop :=
  w <> [] /\ Forall (fun c => isspace c = false) w.

End Word_vocabulary.

Section Query_vocabulary.
Context {U : Unicode}.

(** A word of the address kept in the query of line 156: it has a digit or
    is, in lower case, one of the listed street words. *)
Definition query_word (p : str) : bool :=
  existsb isdigit p || str_mem (py_lower p) street_words.

End Query_vocabulary.

Section Selection_vocabulary.
Context {U : Unicode}.
Variable similarity : str -> str -> exc Q.
Variable company_name : str.

(** [r] stands in the list between [pre] and [post]; among the results
    that [counted] retains, those before it score less than [q] and those
    after it score at most [q]: [r] is the first of the best. *)
Definition first_of_best (counted : bool -> bool) (l : list value)
  (r : value) (q : Q) : Prop :=
  exists pre post,
    l = pre ++ r :: post
    /\ (forall r' q' f', In r' pre ->
          scored similarity company_name r' = Ret (q', f') ->
          counted f' = true -> (q' < q)%Q)
    /\ (forall r' q' f', In r' post ->
          scored similarity company_name r' = Ret (q', f') ->
          counted f' = true -> (q' <= q)%Q).

(** What the variables of the loop of lines 191-213 hold once the results
    [p] went through it. *)
Definition best_by_score (p : list value) (st : address_best) : Prop :=
  match best_match st with
  | None =>
      (best_score st <= 10)%Q
      /\ forall r q f, In r p ->
           scored similarity company_name r = Ret (q, f) -> (q <= 10)%Q
  | Some r =>
      (10 < best_score st)%Q
      /\ (exists f, scored similarity company_name r = Ret (best_score st, f))
      /\ first_of_best (fun _ => true) p r (best_score st)
  end.

Definition best_by_activity (p : list value) (st : address_best) : Prop :=
  match best_activity_match st with
  | None =>
      forall r q f, In r p ->
        scored similarity company_name r = Ret (q, f) -> f = false
  | Some r =>
      scored similarity company_name r = Ret (best_activity_score st, true)
      /\ first_of_best (fun f => f) p r (best_activity_score st)
  end.

End Selection_vocabulary.

Section Undated_vocabulary.
Context {U : Unicode}.
Variable annee_actuelle : Z.

(** The raw officer has a last name. *)
Definition has_nom (dirigeant : value) : bool :=
  match read_dirigeant annee_actuelle dirigeant with
  | Ret info => negb (isnil (Info.nom info))
  | Raise _ => false
  end.

(** The name, first name and quality of the primary officer are those
    read from [dirigeant]; they are empty when there is no such officer. *)
Definition primary_fields (nom prenom qualite : str) (dirigeant : option value)
  : Prop :=
  match dirigeant with
  | Some d =>
      exists info,
        read_dirigeant annee_actuelle d = Ret info
        /\ nom = Info.nom info
        /\ prenom = Info.premier_prenom info
        /\ qualite = Info.qualite info
  | None => nom = [] /\ prenom = [] /\ qualite = []
  end.

End Undated_vocabulary.

(** ** Further sample data *)

(** An officer whose last name carries a remark in parentheses, and a
    record whose officers have no birth year, the first one no last
    name. *)
Definition dupont_remark : value :=
  officer "DUPONT (associé)" " Jean  Pierre " " Gérant " "1970".
Definition record_undated : value :=
  record "333333333" "ATELIER DUPONT" "5 RUE NEUVE 59000 LILLE" "2010-06-01"
    [officer_undated "" "Luc" "Associé"; dupont_undated].

(** * Properties *)

Section String_facts.
Context {U : Unicode}.

Lemma str_eqb_eq (a b : str) : str_eqb a b = true <-> a = b.
Proof.
  revert b; induction a as [|x a IH]; intros [|y b]; simpl;
    try (split; congruence).
  rewrite andb_true_iff, N.eqb_eq, IH. split.
  - intros [-> ->]; reflexivity.
  - intros E; inversion E; auto.
Qed.

Lemma str_eqb_refl (a : str) : str_eqb a a = true.
Proof. apply str_eqb_eq; reflexivity. Qed.

Lemma str_eqb_neq (a b : str) : str_eqb a b = false <-> a <> b.
Proof.
  rewrite <- str_eqb_eq. destruct (str_eqb a b); split; congruence.
Qed.

Lemma untokens_tokens (s : str) : untokens (tokens s) = s.
Proof.
  induction s as [|c s IH]; simpl; [reflexivity|].
  destruct (isword c).
  - destruct (tokens s) as [|[w|c'] ts]; simpl in *; congruence.
  - simpl. f_equal. exact IH.
Qed.

Lemma tokens_head (s : str) :
  match tokens s with
  | W _ :: _ => starts_word s = true
  | _ => starts_word s = false
  end.
Proof.
  destruct s as [|c s]; simpl; [reflexivity|].
  destruct (isword c) eqn:E.
  - destruct (tokens s) as [|[w|c'] ts]; reflexivity.
  - reflexivity.
Qed.

Lemma tokens_wf (s : str) : wf_tokens (tokens s) = true.
Proof.
  induction s as [|c s IH]; simpl; [reflexivity|].
  destruct (isword c) eqn:E.
  - destruct (tokens s) as [|[w|c'] ts]; simpl in *; rewrite ?E; simpl; auto.
    apply andb_true_iff in IH as [IH ->].
    apply andb_true_iff in IH as [IH ->].
    apply andb_true_iff in IH as [_ ->]. reflexivity.
  - simpl. rewrite E. assumption.
Qed.

Lemma tokens_app_word (w : str) (s : str) :
  w <> [] -> forallb isword w = true -> starts_word s = false ->
  tokens (w ++ s) = W w :: tokens s.
Proof.
  intros Hn Hw Hs. induction w as [|c w IH]; [congruence|].
  simpl in *. apply andb_true_iff in Hw as [-> Hw].
  destruct w as [|c' w].
  - simpl. pose proof (tokens_head s) as H.
    destruct (tokens s) as [|[w'|c''] ts]; congruence.
  - rewrite IH by (auto; congruence). reflexivity.
Qed.

Lemma tokens_untokens (ts : list token) :
  wf_tokens ts = true -> tokens (untokens ts) = ts.
Proof.
  induction ts as [|[w|c] ts IH]; simpl; intros H; [reflexivity| |].
  - apply andb_true_iff in H as [H Hts].
    apply andb_true_iff in H as [H Hadj].
    apply andb_true_iff in H as [Hn Hw].
    change (flat_map untoken ts) with (untokens ts).
    rewrite tokens_app_word.
    + rewrite IH by assumption. reflexivity.
    + destruct w; simpl in *; congruence.
    + assumption.
    + destruct ts as [|[w'|c'] ts']; simpl in *; try reflexivity;
        try discriminate.
      apply andb_true_iff in Hts as [Hc _].
      destruct (isword c'); simpl in *; congruence.
  - apply andb_true_iff in H as [Hc Hts].
    destruct (isword c); simpl in *; [discriminate|].
    change (flat_map untoken ts) with (untokens ts).
    rewrite IH by assumption. reflexivity.
Qed.

End String_facts.

(** ** Normal form of addresses *)

Section Normal_form.
Context {U : Unicode} {L : UnicodeLaws U}.

Lemma isword_sp : isword SP = false.
Proof. apply space_not_word, sp_isspace. Qed.

Lemma words_map_sub (pat rep : str) (ts : list token) :
  words (map (sub_token pat rep) ts) = map (sub_str pat rep) (words ts).
Proof.
  induction ts as [|[w|c] ts IH]; simpl; [reflexivity| |assumption].
  unfold sub_str at 1. destruct (str_eqb w pat); simpl; f_equal; assumption.
Qed.

Lemma sub_token_wf (pat rep : str) (ts : list token) :
  rep <> [] -> forallb isword rep = true ->
  wf_tokens ts = true -> wf_tokens (map (sub_token pat rep) ts) = true.
Proof.
  intros Hn Hw. induction ts as [|[w|c] ts IH]; simpl; intros H; auto.
  - apply andb_true_iff in H as [H Hts].
    apply andb_true_iff in H as [H Hadj].
    apply andb_true_iff in H as [Hne Hww].
    assert (Hadj' : match map (sub_token pat rep) ts with
                    | W _ :: _ => false | _ => true end = true).
    { destruct ts as [|[w'|c'] ts']; simpl in *; try reflexivity;
        try discriminate. }
    destruct (str_eqb w pat); simpl; rewrite Hadj', IH by assumption.
    + rewrite Hw. destruct rep; simpl; congruence.
    + rewrite Hne, Hww. reflexivity.
  - apply andb_true_iff in H as [-> Hts]. simpl. auto.
Qed.

Lemma tokens_sub_word (pat rep s : str) :
  rep <> [] -> forallb isword rep = true ->
  tokens (sub_word pat rep s) = map (sub_token pat rep) (tokens s).
Proof.
  intros Hn Hw. unfold sub_word.
  apply tokens_untokens, sub_token_wf; auto using tokens_wf.
Qed.

Lemma wordsof_sub_word (pat rep s : str) :
  rep <> [] -> forallb isword rep = true ->
  wordsof (sub_word pat rep s) = map (sub_str pat rep) (wordsof s).
Proof.
  intros Hn Hw. unfold wordsof.
  rewrite tokens_sub_word by assumption. apply words_map_sub.
Qed.

Lemma in_wordsof_sub_word (pat rep q s : str) :
  rep <> [] -> forallb isword rep = true ->
  In q (wordsof (sub_word pat rep s)) -> q <> rep ->
  In q (wordsof s) /\ q <> pat.
Proof.
  intros Hn Hw Hin Hq. rewrite wordsof_sub_word in Hin by assumption.
  apply in_map_iff in Hin as (w & Hw' & Hin). unfold sub_str in Hw'.
  destruct (str_eqb w pat) eqn:E.
  - congruence.
  - subst w. split; [assumption|]. apply str_eqb_neq; assumption.
Qed.

Lemma sub_word_id (pat rep s : str) :
  ~ In pat (wordsof s) -> sub_word pat rep s = s.
Proof.
  intros Hin. unfold sub_word.
  rewrite <- (untokens_tokens s) at 2. f_equal.
  unfold wordsof in Hin. induction (tokens s) as [|[w|c] ts IH]; simpl in *.
  - reflexivity.
  - destruct (str_eqb w pat) eqn:E.
    + apply str_eqb_eq in E. subst. tauto.
    + f_equal. apply IH. tauto.
  - f_equal. apply IH. assumption.
Qed.

Lemma wordsof_cons (c : char) (s : str) :
  wordsof (c :: s) = cons_word c s (wordsof s).
Proof.
  unfold wordsof, cons_word. simpl. pose proof (tokens_head s) as H.
  destruct (isword c); [|reflexivity].
  destruct (tokens s) as [|[w|c'] ts]; rewrite H; reflexivity.
Qed.

Lemma wordsof_cons_eq (c : char) (s t : str) :
  wordsof s = wordsof t -> starts_word s = starts_word t ->
  wordsof (c :: s) = wordsof (c :: t).
Proof.
  intros Hw Hs. rewrite !wordsof_cons. unfold cons_word.
  rewrite Hw, Hs. reflexivity.
Qed.

Lemma wordsof_nonword (c : char) (s : str) :
  isword c = false -> wordsof (c :: s) = wordsof s.
Proof. intros H. rewrite wordsof_cons. unfold cons_word. rewrite H. reflexivity. Qed.

Lemma wordsof_sub_punct (s : str) :
  wordsof (sub_punct s) = wordsof s
  /\ starts_word (sub_punct s) = starts_word s.
Proof.
  induction s as [|c s [IHw IHs]]; [split; reflexivity|].
  change (sub_punct (c :: s))
    with ((if isword c || isspace c then c else SP) :: sub_punct s).
  destruct (isword c) eqn:Ec; simpl orb.
  - split; [apply wordsof_cons_eq; assumption|reflexivity].
  - assert (Hc : isword (if isspace c then c else SP) = false).
    { destruct (isspace c); [assumption|apply isword_sp]. }
    split.
    + rewrite !wordsof_nonword by assumption. assumption.
    + simpl. rewrite Hc, Ec. reflexivity.
Qed.

Lemma wordsof_collapse_go (b : bool) (s : str) :
  wordsof (collapse_go b s) = wordsof s.
Proof.
  revert b. induction s as [|c s IH]; intros b; [reflexivity|].
  simpl. destruct (isspace c) eqn:Ec.
  - rewrite (wordsof_nonword c s) by (apply space_not_word; assumption).
    destruct b; [apply IH|].
    rewrite wordsof_nonword by apply isword_sp. apply IH.
  - apply wordsof_cons_eq; [apply IH|].
    destruct s as [|c' s]; [reflexivity|]. simpl.
    destruct (isspace c') eqn:Ec'; [|reflexivity].
    simpl. rewrite isword_sp. symmetry. apply space_not_word; assumption.
Qed.

Lemma wordsof_lstrip (s : str) : wordsof (lstrip s) = wordsof s.
Proof.
  induction s as [|c s IH]; [reflexivity|]. simpl.
  destruct (isspace c) eqn:Ec; [|reflexivity].
  rewrite wordsof_nonword by (apply space_not_word; assumption). assumption.
Qed.

End Normal_form.

Section Strip_facts.
Context {U : Unicode}.

Lemma lstrip_snoc (a : str) (c : char) :
  lstrip (a ++ [c]) =
  match lstrip a with
  | [] => lstrip [c]
  | t => t ++ [c]
  end.
Proof.
  induction a as [|x a IH]; [reflexivity|]. simpl.
  destruct (isspace x); [assumption|reflexivity].
Qed.

(** [rstrip] by recursion from the front. *)
Lemma rstrip_cons (c : char) (s : str) :
  rstrip (c :: s) =
  match rstrip s with
  | [] => if isspace c then [] else [c]
  | t => c :: t
  end.
Proof.
  unfold rstrip. simpl rev at 2. rewrite lstrip_snoc.
  destruct (lstrip (rev s)) as [|x t] eqn:E.
  - simpl. destruct (isspace c); reflexivity.
  - rewrite rev_app_distr. simpl.
    destruct (rev t ++ [x]) eqn:E'; [|reflexivity].
    destruct (rev t); discriminate.
Qed.

Lemma rstrip_nil : rstrip [] = [].
Proof. reflexivity. Qed.

Lemma rstrip_idem (s : str) : rstrip (rstrip s) = rstrip s.
Proof.
  induction s as [|c s IH]; [reflexivity|].
  rewrite rstrip_cons. destruct (rstrip s) as [|x t] eqn:E.
  - destruct (isspace c) eqn:Ec; [reflexivity|].
    rewrite rstrip_cons, rstrip_nil, Ec. reflexivity.
  - rewrite rstrip_cons, IH. reflexivity.
Qed.

Lemma lstrip_head (s : str) :
  match lstrip s with
  | c :: _ => isspace c = false
  | [] => True
  end.
Proof.
  induction s as [|c s IH]; simpl; [exact I|].
  destruct (isspace c) eqn:E; [assumption|assumption].
Qed.

Lemma lstrip_id (s : str) :
  match s with c :: _ => isspace c = false | [] => True end -> lstrip s = s.
Proof. destruct s as [|c s]; simpl; [reflexivity|]. intros ->. reflexivity. Qed.

Lemma rstrip_head (c : char) (s : str) :
  isspace c = false -> exists t, rstrip (c :: s) = c :: t.
Proof.
  intros E. rewrite rstrip_cons, E. destruct (rstrip s); eauto.
Qed.

Lemma strip_head (s : str) :
  match strip s with
  | c :: _ => isspace c = false
  | [] => True
  end.
Proof.
  unfold strip. pose proof (lstrip_head s) as H.
  destruct (lstrip s) as [|c t]; [exact I|].
  destruct (@rstrip_head c t H) as [t' ->]. assumption.
Qed.

Lemma strip_idem (s : str) : strip (strip s) = strip s.
Proof.
  unfold strip at 1. rewrite (lstrip_id (strip s)) by apply strip_head.
  unfold strip. apply rstrip_idem.
Qed.

Lemma lstrip_Forall (P : char -> Prop) (s : str) :
  Forall P s -> Forall P (lstrip s).
Proof.
  induction 1 as [|c s Hc Hs IH]; simpl; [constructor|].
  destruct (isspace c); [assumption|constructor; assumption].
Qed.

Lemma strip_Forall (P : char -> Prop) (s : str) :
  Forall P s -> Forall P (strip s).
Proof.
  intros H. unfold strip, rstrip.
  apply Forall_rev, lstrip_Forall, Forall_rev, lstrip_Forall, H.
Qed.

Lemma collapse_go_Forall (P : char -> Prop) (b : bool) (s : str) :
  P SP -> Forall P s -> Forall P (collapse_go b s).
Proof.
  intros Hsp H. revert b. induction H as [|c s Hc Hs IH]; intros b; simpl;
    [constructor|].
  destruct (isspace c); [destruct b|]; auto.
Qed.

Lemma untokens_Forall (P : char -> Prop) (ts : list token) :
  Forall P (untokens ts) <-> Forall (fun t => Forall P (untoken t)) ts.
Proof.
  unfold untokens. induction ts as [|t ts IH]; simpl.
  - split; constructor.
  - rewrite Forall_app, IH. split.
    + intros [? ?]; constructor; assumption.
    + intros H; inversion H; auto.
Qed.

Lemma sub_word_Forall (P : char -> Prop) (pat rep s : str) :
  Forall P rep -> Forall P s -> Forall P (sub_word pat rep s).
Proof.
  intros Hr Hs. unfold sub_word. apply untokens_Forall.
  rewrite <- (untokens_tokens s) in Hs. apply untokens_Forall in Hs.
  apply Forall_map. eapply Forall_impl; [|exact Hs].
  intros [w|c]; simpl; [|auto]. destruct (str_eqb w pat); auto.
Qed.

Lemma single_spaced_weaken (s : str) :
  single_spaced true s = true -> single_spaced false s = true.
Proof.
  destruct s as [|c s]; simpl; [reflexivity|].
  destruct (isspace c); [|auto]. rewrite andb_false_r. discriminate.
Qed.

Lemma single_spaced_collapse (b : bool) (s : str) :
  isspace SP = true -> single_spaced b (collapse_go b s) = true.
Proof.
  intros Hsp. revert b. induction s as [|c s IH]; intros b; [reflexivity|].
  simpl. destruct (isspace c) eqn:E.
  - destruct b; [apply IH|]. simpl. rewrite Hsp, (IH true). reflexivity.
  - simpl. rewrite E. apply IH.
Qed.

Lemma collapse_go_id (b : bool) (s : str) :
  single_spaced b s = true -> collapse_go b s = s.
Proof.
  revert b. induction s as [|c s IH]; intros b; simpl; [reflexivity|].
  destruct (isspace c).
  - intros H. apply andb_true_iff in H as [H Hs].
    apply andb_true_iff in H as [Hc Hb]. apply N.eqb_eq in Hc.
    destruct b; [discriminate|]. rewrite (IH true) by assumption.
    rewrite Hc. reflexivity.
  - intros H. rewrite IH by assumption. reflexivity.
Qed.

Lemma single_spaced_lstrip (s : str) :
  single_spaced false s = true -> single_spaced false (lstrip s) = true.
Proof.
  induction s as [|c s IH]; simpl; [reflexivity|].
  destruct (isspace c) eqn:E.
  - intros H. apply andb_true_iff in H as [_ H].
    apply IH, single_spaced_weaken, H.
  - intros H. simpl. rewrite E. assumption.
Qed.

Lemma single_spaced_rstrip (b : bool) (s : str) :
  single_spaced b s = true -> single_spaced b (rstrip s) = true.
Proof.
  revert b. induction s as [|c s IH]; intros b; [reflexivity|].
  rewrite rstrip_cons. simpl. destruct (isspace c) eqn:E.
  - intros H. apply andb_true_iff in H as [H Hs].
    specialize (IH true Hs). destruct (rstrip s) as [|x t]; [reflexivity|].
    change (single_spaced b (c :: x :: t))
      with (if isspace c then (c =? SP)%N && negb b && single_spaced true (x :: t)
            else single_spaced false (x :: t)).
    rewrite E, H. assumption.
  - intros H. specialize (IH false H).
    destruct (rstrip s) as [|x t]; simpl; rewrite E; auto.
Qed.

End Strip_facts.

Section Idempotence.
Context {U : Unicode} {L : UnicodeLaws U}.

Lemma wordsof_rstrip (s : str) :
  wordsof (rstrip s) = wordsof s /\ starts_word (rstrip s) = starts_word s.
Proof.
  induction s as [|c s [IHw IHs]]; [split; reflexivity|].
  rewrite rstrip_cons. destruct (rstrip s) as [|x t].
  - destruct (isspace c) eqn:E.
    + pose proof (space_not_word c E) as Hc. split.
      * rewrite wordsof_nonword by assumption. assumption.
      * simpl. congruence.
    + split; [apply wordsof_cons_eq; assumption|reflexivity].
  - split; [apply wordsof_cons_eq; assumption|reflexivity].
Qed.

Lemma wordsof_strip (s : str) : wordsof (strip s) = wordsof s.
Proof.
  unfold strip. rewrite (proj1 (wordsof_rstrip _)). apply wordsof_lstrip.
Qed.

Lemma clean_address_unfold (s : str) :
  clean_address s =
  if isnil s then [] else strip (collapse (sub_punct (abbreviate (upper s)))).
Proof. reflexivity. Qed.

Lemma abbreviations_capital :
  Forall (fun pr => snd pr <> [] /\ Forall capital (snd pr)) abbreviations.
Proof.
  repeat constructor; try discriminate; unfold capital; simpl; lia.
Qed.

Lemma capital_forallb (r : str) : Forall capital r -> forallb isword r = true.
Proof.
  induction 1 as [|c r Hc Hr IH]; simpl; [reflexivity|].
  rewrite capital_word by exact Hc. assumption.
Qed.

Lemma capital_stable (r : str) :
  Forall capital r -> Forall (fun c => upper_cp c = [c]) r.
Proof.
  intros H. eapply Forall_impl; [|exact H]. intros c Hc.
  apply capital_upper, Hc.
Qed.

Lemma fold_sub_word_words (l : list (str * str)) :
  Forall (fun pr => snd pr <> [] /\ Forall capital (snd pr)) l ->
  forall s q : str,
  In q (wordsof (fold_left (fun a pr => sub_word (fst pr) (snd pr) a) l s)) ->
  (forall pr, In pr l -> q <> snd pr) ->
  In q (wordsof s) /\ forall pr, In pr l -> q <> fst pr.
Proof.
  induction 1 as [|[p r] l [Hn Hc] Hl IH]; intros s q Hin Hq.
  - split; [assumption|intros pr []].
  - simpl in Hin. apply IH in Hin as [Hin Hl'].
    + apply in_wordsof_sub_word in Hin as [Hin Hp];
        auto using capital_forallb.
      * split; [assumption|]. intros pr [<-|Hpr]; [assumption|auto].
      * apply (Hq (p, r)). left. reflexivity.
    + intros pr Hpr. apply Hq. right. assumption.
Qed.

Lemma abbreviations_disjoint (pr pr' : str * str) :
  In pr abbreviations -> In pr' abbreviations -> fst pr <> snd pr'.
Proof.
  intros H H'. apply str_eqb_neq. unfold abbreviations in H, H'.
  repeat (destruct H as [<-|H];
          [repeat (destruct H' as [<-|H']; [reflexivity|]); destruct H'|]).
  destruct H.
Qed.

Lemma upper_Forall_stable (s : str) :
  Forall (fun c => upper_cp c = [c]) (upper s).
Proof.
  apply Forall_forall. intros c' Hin. unfold upper in Hin.
  apply in_flat_map in Hin as (c & _ & Hc). eapply upper_stable; eassumption.
Qed.

Lemma upper_id (t : str) :
  Forall (fun c => upper_cp c = [c]) t -> upper t = t.
Proof.
  unfold upper. induction 1 as [|c t Hc Ht IH]; simpl; [reflexivity|].
  rewrite Hc, IH. reflexivity.
Qed.

Lemma abbreviate_Forall (P : char -> Prop) (s : str) :
  (forall c, capital c -> P c) -> Forall P s -> Forall P (abbreviate s).
Proof.
  intros HP. unfold abbreviate. pose proof abbreviations_capital as H.
  revert s. induction H as [|[p r] l [_ Hc] Hl IH]; intros s Hs; simpl;
    [assumption|].
  apply IH, sub_word_Forall; [|assumption].
  eapply Forall_impl; [|exact Hc]. assumption.
Qed.

Lemma abbreviate_id (t : str) :
  (forall pr, In pr abbreviations -> ~ In (fst pr) (wordsof t)) ->
  abbreviate t = t.
Proof.
  unfold abbreviate. induction abbreviations as [|[p r] l IH]; intros H;
    simpl; [reflexivity|].
  rewrite sub_word_id.
  - apply IH. intros pr Hpr. apply H. right. assumption.
  - apply (H (p, r)). left. reflexivity.
Qed.

Lemma sub_punct_Forall (s : str) :
  Forall (fun c => isword c || isspace c = true) (sub_punct s).
Proof.
  unfold sub_punct. apply Forall_map, Forall_forall. intros c _.
  destruct (isword c || isspace c) eqn:E; [assumption|].
  rewrite sp_isspace. apply orb_true_r.
Qed.

Lemma sub_punct_id (t : str) :
  Forall (fun c => isword c || isspace c = true) t -> sub_punct t = t.
Proof.
  unfold sub_punct. induction 1 as [|c t Hc Ht IH]; simpl; [reflexivity|].
  rewrite Hc, IH. reflexivity.
Qed.

Lemma sub_punct_stable (P : char -> Prop) (s : str) :
  P SP -> Forall P s -> Forall P (sub_punct s).
Proof.
  intros Hsp H. unfold sub_punct. apply Forall_map.
  eapply Forall_impl; [|exact H]. intros c Hc. simpl.
  destruct (isword c || isspace c); assumption.
Qed.

Lemma clean_address_normal (s : str) : normal (clean_address s).
Proof.
  rewrite clean_address_unfold. destruct (isnil s).
  { repeat split; try constructor. intros pr _ []. }
  unfold collapse. split; [|split; [|split; [|split]]].
  - apply strip_Forall, collapse_go_Forall; [apply sp_upper|].
    apply sub_punct_stable; [apply sp_upper|].
    apply abbreviate_Forall; [apply capital_upper|apply upper_Forall_stable].
  - intros pr Hpr Hin.
    rewrite wordsof_strip, wordsof_collapse_go in Hin.
    rewrite (proj1 (wordsof_sub_punct _)) in Hin.
    apply (fold_sub_word_words abbreviations_capital) in Hin as [_ Hin].
    + exact (Hin pr Hpr eq_refl).
    + intros pr' Hpr'. apply abbreviations_disjoint; assumption.
  - apply strip_Forall, collapse_go_Forall;
      [rewrite sp_isspace; apply orb_true_r|apply sub_punct_Forall].
  - unfold strip.
    apply single_spaced_rstrip, single_spaced_lstrip, single_spaced_collapse.
    apply sp_isspace.
  - apply strip_idem.
Qed.

Lemma clean_address_fixed (t : str) : normal t -> clean_address t = t.
Proof.
  intros (Hup & Hab & Hpu & Hsp & Hst).
  rewrite clean_address_unfold. destruct t as [|c t]; [reflexivity|].
  simpl isnil. cbv iota.
  rewrite upper_id, abbreviate_id, sub_punct_id by assumption.
  unfold collapse. rewrite collapse_go_id by assumption. assumption.
Qed.

(** C9 — Address normalization is idempotent: for every string [s],
    [clean_address (clean_address s) = clean_address s], whatever Unicode
    tables obey [UnicodeLaws]. *)
Theorem clean_address_idempotent (s : str) :
  clean_address (clean_address s) = clean_address s.
Proof. apply clean_address_fixed, clean_address_normal. Qed.

End Idempotence.

(** The Latin-1 table obeys the laws. *)
Section Latin1_laws.
Import Latin1.

Ltac split_if :=
  repeat match goal with
         | |- context [if ?b then _ else _] => destruct b eqn:?
         end.

Ltac range_props :=
  repeat match goal with
         | H : _ = false |- _ => apply not_true_iff_false in H
         end;
  unfold in_range in *;
  rewrite ?orb_true_iff, ?andb_true_iff, ?N.leb_le, ?N.eqb_eq in *.

Lemma to_upper_fixed (c : char) :
  ((c <= 96 \/ 123 <= c) /\ c <> 181 /\ c <> 223 /\ c <> 255
   /\ (c <= 223 \/ c = 247 \/ 255 <= c))%N ->
  to_upper c = [c].
Proof.
  intros H. unfold to_upper. split_if; try reflexivity; range_props; lia.
Qed.

Lemma latin1_upper_stable (c c' : char) :
  In c' (to_upper c) -> to_upper c' = [c'].
Proof.
  intros H. apply to_upper_fixed. revert H. unfold to_upper.
  split_if; simpl; intros H; range_props;
    repeat (destruct H as [<-|H]; [lia|]); destruct H.
Qed.

Lemma latin1_space_not_word (c : char) :
  space c = true -> alnum c || (c =? 95)%N = false.
Proof.
  unfold space, alnum. intros H. apply not_true_iff_false. intros H'.
  range_props. lia.
Qed.

Lemma latin1_capital (c : char) :
  (65 <= c <= 90)%N -> alnum c || (c =? 95)%N = true /\ to_upper c = [c].
Proof.
  intros H. split.
  - unfold alnum. range_props. lia.
  - apply to_upper_fixed. lia.
Qed.

Lemma latin1_laws : UnicodeLaws table.
Proof.
  constructor.
  - exact latin1_upper_stable.
  - exact latin1_space_not_word.
  - reflexivity.
  - reflexivity.
  - intros c H. apply latin1_capital, H.
  - intros c H. apply latin1_capital, H.
Qed.

End Latin1_laws.

(** On the Latin-1 table. *)
Lemma clean_address_idempotent_witness :
  clean_address (clean_address (u8 "12, Boulevard Saint-Michel  75005"))
  = clean_address (u8 "12, Boulevard Saint-Michel  75005").
Proof.
  exact (@clean_address_idempotent Latin1.table latin1_laws
           (u8 "12, Boulevard Saint-Michel  75005")).
Defined.

(** ** The address matcher *)

(** C8 — Postal code veto: when neither normalized address is a
    substring of the other and both raw addresses contain a five-digit
    postal code token, two different codes make [addresses_match] answer
    false, whatever words the addresses share; in particular
    [addresses_match("10 Rue de Paris 75001", "10 RUE DE PARIS, 75002")]
    is false. *)
Theorem postal_code_veto :
  (forall (U : Unicode) (clean_foreign : value -> exc str)
          (original api cp_original cp_api : str),
      contains (clean_address original) (clean_address api) = false ->
      contains (clean_address api) (clean_address original) = false ->
      search_cp original = Some cp_original ->
      search_cp api = Some cp_api ->
      cp_original <> cp_api ->
      addresses_match clean_foreign original (VStr api) = Ret false)
  /\ (forall clean_foreign : value -> exc str,
         addresses_match clean_foreign (u8 "10 Rue de Paris 75001")
           (VStr (u8 "10 RUE DE PARIS, 75002")) = Ret false).
Proof.
  split.
  - intros U cf a b p q Hab Hba Hp Hq Hpq. unfold addresses_match.
    destruct (isnil a || negb (truthy (VStr b))); [reflexivity|].
    destruct (str_mem (strip a) placeholders); [reflexivity|].
    simpl. destruct (isnil (clean_address a) || isnil (clean_address b));
      [reflexivity|].
    rewrite Hab, Hba, Hp, Hq. simpl.
    apply str_eqb_neq in Hpq. rewrite Hpq. reflexivity.
  - intros cf. vm_compute. reflexivity.
Qed.

(** Three words out of five are shared, the postal codes differ. *)
Lemma postal_code_veto_witness :
  contains (clean_address (u8 "3 place Bellecour 69002 Lyon"))
           (clean_address (u8 "3 PL BELLECOUR 69001 LYON")) = false
  /\ search_cp (u8 "3 place Bellecour 69002 Lyon") = Some (u8 "69002")
  /\ search_cp (u8 "3 PL BELLECOUR 69001 LYON") = Some (u8 "69001")
  /\ addresses_match no_foreign
       (u8 "3 place Bellecour 69002 Lyon")
       (VStr (u8 "3 PL BELLECOUR 69001 LYON")) = Ret false.
Proof.
  split; [reflexivity|]. split; [reflexivity|]. split; [reflexivity|].
  apply (proj1 postal_code_veto Latin1.table no_foreign
           (u8 "3 place Bellecour 69002 Lyon")
           (u8 "3 PL BELLECOUR 69001 LYON") (u8 "69002") (u8 "69001")).
  - reflexivity.
  - reflexivity.
  - reflexivity.
  - reflexivity.
  - discriminate.
Defined.

(** ** The name simplifier *)

(** The name keeps neither its case nor its spelling "Dupont Electricité". *)
Lemma simplify_name_case_counterexample :
  simplify_name (u8 "Dupont Electricité Paris") <> u8 "Dupont Electricité".
Proof. vm_compute. discriminate. Qed.

(** C6 (amended) — Simplifying "Dupont Electricité Paris" drops the
    trailing city and yields the rest of the name in upper case, its
    words joined by single spaces: "DUPONT ELECTRICITÉ". *)
Theorem simplify_name_strips_city :
  simplify_name (u8 "Dupont Electricité Paris") = u8 "DUPONT ELECTRICITÉ".
Proof. vm_compute. reflexivity. Qed.

(** ** Exceptions *)

Lemma bind_ret (A B : Type) (m : exc A) (k : A -> exc B) (b : B) :
  bind m k = Ret b -> exists a, m = Ret a /\ k a = Ret b.
Proof. destruct m as [a|e]; simpl; [eauto|discriminate]. Qed.

Ltac bind_inv H :=
  let a := fresh "v" in
  let E := fresh "E" in
  apply bind_ret in H as (a & E & H).

Section Never_raises.
Context {U : Unicode}.
Variable clean_foreign : value -> exc str.
Variable annee_actuelle : Z.
Variable requests_get : nat -> str -> str -> exc response.

(** C1 — For a company name and an address that are strings,
    [search_company] returns an entity or [None]: what its [try] block
    returns, and [None] when the block raises; in particular an exception
    or a status other than 200 of the search by name, or of the search by
    address made after a search by name without result, gives [None]. *)
Theorem search_company_never_raises (company_name address token : str) :
  (search_company clean_foreign annee_actuelle requests_get
     company_name address token = None
   \/ exists e,
        search_company clean_foreign annee_actuelle requests_get
          company_name address token = Some e)
  /\ (forall r,
      search_company_try clean_foreign annee_actuelle requests_get
        (simplify_name company_name) company_name address token = Ret r ->
      search_company clean_foreign annee_actuelle requests_get
        company_name address token = r)
  /\ (forall e,
         search_company_try clean_foreign annee_actuelle requests_get
           (simplify_name company_name) company_name address token = Raise e ->
         search_company clean_foreign annee_actuelle requests_get
           company_name address token = None)
  /\ (unavailable (requests_get 0 token (simplify_name company_name)) = true ->
      search_company clean_foreign annee_actuelle requests_get
        company_name address token = None)
  /\ (no_result (requests_get 0 token (simplify_name company_name)) = true ->
      unavailable (requests_get 1 token (address_query address)) = true ->
      search_company clean_foreign annee_actuelle requests_get
        company_name address token = None).
Proof.
  split.
  { destruct (search_company clean_foreign annee_actuelle requests_get
                company_name address token) as [e|]; eauto. }
  unfold search_company. repeat split.
  - intros r ->. reflexivity.
  - intros e ->. reflexivity.
  - unfold search_company_try, unavailable.
    destruct (requests_get 0 token (simplify_name company_name)) as [r|e];
      simpl; [|reflexivity].
    destruct (status_code r =? 200)%Z; [discriminate|reflexivity].
  - unfold search_company_try, no_result, unavailable.
    destruct (requests_get 0 token (simplify_name company_name)) as [r|e];
      simpl; [|discriminate].
    destruct (status_code r =? 200)%Z; simpl; [|reflexivity].
    destruct (json r) as [data|e]; simpl; [|discriminate].
    destruct (get data "results" (VList [])) as [results|e]; simpl;
      [|discriminate].
    intros ->. simpl. unfold search_by_address.
    destruct (negb (isnil address)
              && negb (str_mem (strip address) placeholders)); [|reflexivity].
    destruct (negb (isnil (strip (address_query address)))); [|reflexivity].
    destruct (requests_get 1 token (address_query address)) as [r'|e'];
      simpl; [|reflexivity].
    destruct (status_code r' =? 200)%Z; [discriminate|reflexivity].
Qed.

End Never_raises.

(** The search by name finds nothing and the search by address fails. *)
Lemma search_company_never_raises_witness :
  no_result (transport_lost 0 (u8 "t") (simplify_name (u8 "ACME"))) = true
  /\ unavailable
       (transport_lost 1 (u8 "t") (address_query (u8 "10 rue de Paris 75001")))
     = true
  /\ search_company no_foreign 2026 transport_lost
       (u8 "ACME") (u8 "10 rue de Paris 75001") (u8 "t") = None.
Proof.
  split; [reflexivity|]. split; [reflexivity|].
  apply (proj2 (proj2 (proj2 (proj2
           (@search_company_never_raises Latin1.table no_foreign 2026
              transport_lost
              (u8 "ACME") (u8 "10 rue de Paris 75001") (u8 "t"))))));
    vm_compute; reflexivity.
Defined.

(** ** The resolved entity *)

Section Entity_facts.
Context {U : Unicode}.
Variable clean_foreign : value -> exc str.
Variable annee_actuelle : Z.
Variable requests_get : nat -> str -> str -> exc response.

Lemma resolve_some (address : str) (results : value) (e : Entity.t) :
  resolve clean_foreign annee_actuelle address results = Ret (Some e) ->
  exists best_match,
    choose clean_foreign address results = Ret (Some best_match)
    /\ truthy best_match = true
    /\ build_entity clean_foreign annee_actuelle address best_match = Ret e.
Proof.
  unfold resolve. intros H. bind_inv H.
  destruct v as [r|]; [|discriminate].
  destruct (truthy r) eqn:Ht; [|discriminate].
  bind_inv H. inversion H; subst. eauto.
Qed.

(** Every entity [search_company] returns is built from the record chosen
    among some list of results. *)
Lemma search_company_some (company_name address token : str) (e : Entity.t) :
  search_company clean_foreign annee_actuelle requests_get
    company_name address token = Some e ->
  exists results best_match,
    choose clean_foreign address results = Ret (Some best_match)
    /\ truthy best_match = true
    /\ build_entity clean_foreign annee_actuelle address best_match = Ret e.
Proof.
  unfold search_company, try_except. intros H.
  destruct (search_company_try _ _ _ _ _ _ _) as [r|] eqn:E; [|discriminate].
  subst r. unfold search_company_try in E. bind_inv E.
  destruct (status_code v =? 200)%Z; [|discriminate].
  bind_inv E. bind_inv E.
  destruct (negb (truthy v1)).
  - bind_inv E. destruct v2 as [results|]; [|discriminate].
    exists results. apply resolve_some. assumption.
  - exists v1. apply resolve_some. assumption.
Qed.

Lemma build_entity_date (address : str) (best_match : value) (e : Entity.t) :
  build_entity clean_foreign annee_actuelle address best_match = Ret e ->
  exists date,
    get best_match "date_creation" (VStr []) = Ret date
    /\ year_of_date date = Ret (Entity.date_creation e)
    /\ Entity.annee_creation e = Entity.date_creation e.
Proof.
  unfold build_entity. intros H. do 10 bind_inv H.
  inversion H; subst; simpl. eauto.
Qed.

End Entity_facts.

(** ** Officers *)

Section Officer_facts.
Context {U : Unicode}.
Variable annee_actuelle : Z.

Lemma dirigeant_step_eq (st : officers) (dirigeant : value) :
  dirigeant_step annee_actuelle st dirigeant =
  (info <- read_dirigeant annee_actuelle dirigeant ;;
   younger <- younger_than (Info.annee info) (annee_naissance_max st) ;;
   Ret (dirigeant_update st info younger)).
Proof.
  unfold dirigeant_step, dirigeant_update, younger_than, record_entry.
  destruct (read_dirigeant annee_actuelle dirigeant) as [info|e]; simpl;
    [|reflexivity].
  destruct (isnil (nom_dirigeant st) && isnil (prenom_dirigeant st)
            && negb (isnil (Info.nom info))); simpl.
  - destruct (truthy (Info.annee info)); simpl; [|reflexivity].
    destruct (negb (truthy (annee_naissance_max st))); simpl.
    + reflexivity.
    + destruct (value_gt _ _) as [[|]|]; reflexivity.
  - destruct (truthy (Info.annee info)); simpl; [|reflexivity].
    destruct (negb (truthy (annee_naissance_max st))); simpl.
    + reflexivity.
    + destruct (value_gt _ _) as [[|]|]; reflexivity.
Qed.

Lemma read_dirigeant_keyed (dirigeant : value) (info : Info.t) :
  read_dirigeant annee_actuelle dirigeant = Ret info -> keyed info.
Proof.
  unfold read_dirigeant. intros H. do 8 bind_inv H.
  inversion H; subst. reflexivity.
Qed.

Lemma update_existing_some (info : Info.t) (l l' : list Info.t) :
  update_existing info l = Some l' ->
  map Info.identifiant l' = map Info.identifiant l
  /\ (keyed info -> Forall keyed l -> Forall keyed l')
  /\ In (Info.identifiant info) (map Info.identifiant l).
Proof.
  revert l'. induction l as [|d l IH]; simpl; intros l' H; [discriminate|].
  destruct (str_eqb (Info.identifiant d) (Info.identifiant info)) eqn:E.
  - apply str_eqb_eq in E. inversion H; subst l'. clear H.
    destruct (length (Info.prenoms d) <? length (Info.prenoms info))%nat;
      simpl; repeat split; try congruence; auto.
    intros Hk Hl. inversion Hl; subst. constructor; assumption.
  - destruct (update_existing info l) as [l0|]; [|discriminate].
    inversion H; subst l'. destruct (IH l0 eq_refl) as (Hm & Hk & Hin).
    simpl. repeat split; [congruence| |auto].
    intros Hi Hl. inversion Hl; subst. constructor; auto.
Qed.

Lemma update_existing_none (info : Info.t) (l : list Info.t) :
  update_existing info l = None ->
  ~ In (Info.identifiant info) (map Info.identifiant l).
Proof.
  induction l as [|d l IH]; simpl; intros H; [tauto|].
  destruct (str_eqb (Info.identifiant d) (Info.identifiant info)) eqn:E;
    [discriminate|].
  destruct (update_existing info l); [discriminate|].
  apply str_eqb_neq in E. intros [Hd|Hin]; [congruence|]. apply IH; auto.
Qed.

Lemma record_entry_distinct (info : Info.t) (l : list Info.t) :
  keyed info -> distinct_keys l -> distinct_keys (record_entry info l).
Proof.
  intros Hk [Hn Hl]. unfold record_entry.
  destruct (update_existing info l) as [l'|] eqn:E.
  - apply update_existing_some in E as (Hm & Hk' & _).
    split; [rewrite Hm; assumption|auto].
  - apply update_existing_none in E. split.
    + rewrite map_app. simpl. apply NoDup_app.
      * assumption.
      * constructor; [intros []|constructor].
      * intros a Ha [<-|[]]. contradiction.
    + apply Forall_app. split; [assumption|]. constructor; [assumption|constructor].
Qed.

End Officer_facts.

Section Alternates.
Context {U : Unicode}.
Variable clean_foreign : value -> exc str.
Variable annee_actuelle : Z.
Variable requests_get : nat -> str -> str -> exc response.

Lemma filter_keeps_distinct (A B : Type) (key : A -> B) (keep : A -> bool)
  (l : list A) :
  NoDup (map key l) -> NoDup (map key (filter keep l)).
Proof.
  induction l as [|x l IH]; simpl; intros H; [constructor|].
  inversion H as [|? ? Hx Hl]; subst. destruct (keep x); simpl; [|auto].
  constructor; [|auto]. intros Hin. apply Hx.
  apply in_map_iff in Hin as (y & Hy & Hin). apply filter_In in Hin as [Hin _].
  apply in_map_iff. eauto.
Qed.

Lemma In_firstn (A : Type) (x : A) (n : nat) (l : list A) :
  In x (firstn n l) -> In x l.
Proof.
  revert n. induction l as [|z l IH]; intros [|n]; simpl; try tauto.
  intros [->|Hin]; eauto.
Qed.

Lemma firstn_keeps_distinct (A B : Type) (key : A -> B) (n : nat)
  (l : list A) :
  NoDup (map key l) -> NoDup (map key (firstn n l)).
Proof.
  revert n. induction l as [|x l IH]; intros [|n] H; simpl; try constructor.
  - inversion H as [|? ? Hx Hl]; subst. intros Hin. apply Hx.
    apply in_map_iff in Hin as (y & Hy & Hin). apply in_map_iff.
    exists y. split; [assumption|]. eapply In_firstn. eassumption.
  - inversion H; subst. auto.
Qed.

Lemma autres_dirigeant_update (st : officers) (info : Info.t) (y : bool) :
  autres_dirigeants (dirigeant_update st info y)
  = record_entry info (autres_dirigeants st).
Proof.
  unfold dirigeant_update. destruct y; [reflexivity|].
  destruct (isnil (nom_dirigeant st) && isnil (prenom_dirigeant st)
            && negb (isnil (Info.nom info))); reflexivity.
Qed.

Lemma dirigeants_loop_distinct (dirigeants : list value) (st st' : officers) :
  distinct_keys (autres_dirigeants st) ->
  dirigeants_loop annee_actuelle st dirigeants = Ret st' ->
  distinct_keys (autres_dirigeants st').
Proof.
  revert st. induction dirigeants as [|d ds IH]; simpl; intros st Hst H.
  - inversion H; subst. assumption.
  - bind_inv H. apply (IH v); [|assumption].
    rewrite dirigeant_step_eq in E. bind_inv E. bind_inv E.
    inversion E; subst v. rewrite autres_dirigeant_update.
    apply record_entry_distinct; [|assumption].
    eapply read_dirigeant_keyed; eassumption.
Qed.

Lemma read_dirigeants_distinct (best_match : value) (st : officers) :
  read_dirigeants annee_actuelle best_match = Ret st ->
  distinct_keys (autres_dirigeants st).
Proof.
  unfold read_dirigeants. intros H. bind_inv H.
  assert (Hinit : distinct_keys (autres_dirigeants officers_init)).
  { split; constructor. }
  destruct (truthy v).
  - bind_inv H. eapply dirigeants_loop_distinct; eassumption.
  - inversion H; subst. assumption.
Qed.

Lemma build_entity_officers (address : str) (best_match : value) (e : Entity.t) :
  build_entity clean_foreign annee_actuelle address best_match = Ret e ->
  exists st,
    read_dirigeants annee_actuelle best_match = Ret st
    /\ Entity.nom_dirigeant e = nom_dirigeant st
    /\ Entity.prenom_dirigeant e = prenom_dirigeant st
    /\ Entity.qualite_dirigeant e = qualite_dirigeant st
    /\ Entity.autres_dirigeants e = autres_dirigeants_result st.
Proof.
  unfold build_entity. intros H. do 10 bind_inv H.
  inversion H; subst; simpl. eauto 10.
Qed.

Lemma alternates_of_state (st : officers) :
  distinct_keys (autres_dirigeants st) ->
  NoDup (map alt_key (autres_dirigeants_result st))
  /\ (length (autres_dirigeants_result st) <= 5)%nat
  /\ forall a, In a (autres_dirigeants_result st) ->
       ~ (Alt.nom a = nom_dirigeant st /\ Alt.prenoms a = prenom_dirigeant st).
Proof.
  intros [Hn Hk]. unfold autres_dirigeants_result.
  set (l := filter (fun d => negb (is_principal st d)) (autres_dirigeants st)).
  assert (Hl : Forall keyed (firstn 5 l)).
  { apply Forall_forall. intros d Hd. apply In_firstn in Hd.
    apply filter_In in Hd as [Hd _].
    revert d Hd. apply Forall_forall. assumption. }
  repeat split.
  - rewrite map_map.
    rewrite (map_ext_in _ Info.identifiant).
    + apply firstn_keeps_distinct, filter_keeps_distinct, Hn.
    + intros d Hd. symmetry.
      exact (proj1 (Forall_forall _ _) Hl d Hd).
  - rewrite length_map, length_firstn. apply Nat.le_min_l.
  - intros a Ha [Hnom Hpre]. apply in_map_iff in Ha as (d & <- & Hd).
    apply In_firstn in Hd. apply filter_In in Hd as [_ Hd].
    simpl in Hnom, Hpre. unfold is_principal in Hd.
    rewrite Hnom, Hpre, !str_eqb_refl in Hd. discriminate.
Qed.

(** C5 — In every entity [search_company] returns, the alternate officers
    have pairwise distinct identity keys (last name, underscore, first
    first-name), are at most five, and none of them has the last name and
    the first first-name of the primary officer. *)
Theorem alternates_distinct_bounded
  (company_name address token : str) (e : Entity.t) :
  search_company clean_foreign annee_actuelle requests_get
    company_name address token = Some e ->
  NoDup (map alt_key (Entity.autres_dirigeants e))
  /\ (length (Entity.autres_dirigeants e) <= 5)%nat
  /\ forall a, In a (Entity.autres_dirigeants e) ->
       ~ (Alt.nom a = Entity.nom_dirigeant e
          /\ Alt.prenoms a = Entity.prenom_dirigeant e).
Proof.
  intros H. apply search_company_some in H as (results & r & _ & _ & Hb).
  apply build_entity_officers in Hb as (st & Hr & -> & -> & _ & ->).
  apply alternates_of_state. eapply read_dirigeants_distinct. eassumption.
Qed.

End Alternates.

(** ** Records with the types of the data model do not raise *)

Section Typed_records.
Context {U : Unicode}.
Variable clean_foreign : value -> exc str.
Variable annee_actuelle : Z.

Lemma split_cons_nonempty (c : char) (s : str) :
  isspace c = false -> split (c :: s) <> [].
Proof.
  intros E. simpl. rewrite E. destruct s as [|c' s]; [discriminate|].
  destruct (isspace c'); [discriminate|].
  destruct (split (c' :: s)); discriminate.
Qed.

Lemma premier_prenom_total (prenoms : str) :
  exists w,
    (if negb (isnil (strip prenoms)) && contains [SP] (strip prenoms)
     then match split (strip prenoms) with
          | w :: _ => Ret w
          | [] => Raise IndexError
          end
     else Ret (strip prenoms)) = Ret w.
Proof.
  destruct (negb (isnil (strip prenoms)) && contains [SP] (strip prenoms))
    eqn:E; [|eauto].
  pose proof (strip_head prenoms) as H.
  destruct (strip prenoms) as [|c s] eqn:Es; [discriminate|].
  pose proof (@split_cons_nonempty c s H) as Hs.
  destruct (split (c :: s)); [congruence|eauto].
Qed.

Lemma read_dirigeant_total (d : list (str * value)) :
  exists info,
    read_dirigeant annee_actuelle (VDict d) = Ret info
    /\ Info.annee info = annee_field d.
Proof.
  unfold read_dirigeant. simpl.
  set (prenoms := match assoc (u8 "prenoms") d with
                  | Some x => x
                  | None => match assoc (u8 "prenom") d with
                            | Some x => x
                            | None => VStr []
                            end
                  end).
  assert (Hp : exists w,
             (if negb (isnil (stripped prenoms))
                 && contains [SP] (stripped prenoms)
              then match split (stripped prenoms) with
                   | w :: _ => Ret w
                   | [] => Raise IndexError
                   end
              else Ret (stripped prenoms)) = Ret w).
  { destruct prenoms; simpl; eauto. apply premier_prenom_total. }
  destruct Hp as [w ->]. simpl. eexists. split; [reflexivity|]. reflexivity.
Qed.

Lemma younger_than_total (annee m : value) :
  null_or_str annee = true -> (exists s, m = VStr s) ->
  exists y, younger_than annee m = Ret y
            /\ (y = true -> exists s, annee = VStr s).
Proof.
  intros Ha [s ->]. unfold younger_than.
  destruct annee as [| | |a| |]; try discriminate; simpl.
  - exists false. split; [reflexivity|discriminate].
  - destruct (negb (isnil a)); simpl.
    + destruct (negb (negb (isnil s))); simpl; eauto.
    + exists false. split; [reflexivity|discriminate].
Qed.

Lemma annee_max_dirigeant_update (st : officers) (info : Info.t) (y : bool) :
  annee_naissance_max (dirigeant_update st info y)
  = if y then Info.annee info else annee_naissance_max st.
Proof.
  unfold dirigeant_update. destruct y; [reflexivity|].
  destruct (isnil (nom_dirigeant st) && isnil (prenom_dirigeant st)
            && negb (isnil (Info.nom info))); reflexivity.
Qed.

Lemma dirigeants_loop_total (l : list value) (st : officers) :
  forallb officer_ok l = true ->
  (exists s, annee_naissance_max st = VStr s) ->
  exists st', dirigeants_loop annee_actuelle st l = Ret st'.
Proof.
  revert st. induction l as [|d l IH]; intros st Hl Hm; simpl; [eauto|].
  simpl in Hl. apply andb_true_iff in Hl as [Hd Hl].
  destruct d as [| | | | |d]; try discriminate. simpl in Hd.
  rewrite dirigeant_step_eq.
  destruct (read_dirigeant_total d) as (info & -> & Ha). simpl.
  rewrite <- Ha in Hd.
  destruct (@younger_than_total _ _ Hd Hm) as (y & -> & Hy). simpl.
  apply IH; [assumption|]. rewrite annee_max_dirigeant_update.
  destruct y; [auto|assumption].
Qed.

Lemma get_field (d : list (str * value)) (key : string) (default : value)
  (ok : value -> bool) :
  field d key ok = true -> ok default = true ->
  exists v, get (VDict d) key default = Ret v /\ ok v = true.
Proof.
  unfold field, get. intros H Hd.
  destruct (assoc (u8 key) d); eauto.
Qed.

Lemma read_dirigeants_total (d : list (str * value)) :
  field d "dirigeants" officers_ok = true ->
  exists st, read_dirigeants annee_actuelle (VDict d) = Ret st.
Proof.
  intros H. unfold read_dirigeants.
  destruct (@get_field d "dirigeants" (VList []) officers_ok H eq_refl)
    as (v & -> & Hv).
  simpl. destruct v as [| | | |l|]; try discriminate; simpl; [eauto|].
  destruct (negb (isnil l)); simpl; [|eauto].
  apply dirigeants_loop_total; [assumption|]. simpl. eauto.
Qed.

Lemma siege_get_total (d : list (str * value)) (key : string) :
  field d "siege" siege_ok = true ->
  (forall sd, siege_ok (VDict sd) = true -> field sd key null_or_str = true) ->
  exists v, siege_get (VDict d) key = Ret v /\ null_or_str v = true.
Proof.
  intros H Hk. unfold siege_get.
  destruct (@get_field d "siege" (VDict []) siege_ok H eq_refl)
    as (v & -> & Hv).
  simpl. destruct v as [| | | | |sd]; try discriminate.
  apply get_field; [auto|reflexivity].
Qed.

Lemma addresses_match_total (address : str) (api_address : value) :
  null_or_str api_address = true ->
  exists b, addresses_match clean_foreign address api_address = Ret b.
Proof.
  intros H. unfold addresses_match.
  destruct api_address as [| | |s| |]; try discriminate.
  - rewrite orb_true_r. eauto.
  - destruct (isnil address || negb (truthy (VStr s))); [eauto|].
    destruct (str_mem (strip address) placeholders); [eauto|].
    simpl. destruct (isnil (clean_address address) || isnil (clean_address s));
      [eauto|].
    destruct (contains _ _ || contains _ _); [eauto|].
    destruct (cp_differ _ _); eauto.
Qed.

End Typed_records.

(** ** Choice of the record *)

Section Choice.
Context {U : Unicode}.
Variable clean_foreign : value -> exc str.
Variable annee_actuelle : Z.

Lemma siege_adresse_total (r : value) :
  candidate_ok r = true ->
  exists v, siege_get r "adresse" = Ret v /\ null_or_str v = true.
Proof.
  destruct r as [| | | | |d]; try discriminate. simpl. intros H.
  apply andb_true_iff in H as [H _]. apply andb_true_iff in H as [H _].
  apply siege_get_total; [assumption|].
  intros sd Hsd. simpl in Hsd. apply andb_true_iff in Hsd as [Hsd _].
  assumption.
Qed.

Lemma siege_tranche_total (r : value) :
  candidate_ok r = true ->
  exists v, siege_get r "tranche_effectif_salarie" = Ret v
            /\ null_or_str v = true.
Proof.
  destruct r as [| | | | |d]; try discriminate. simpl. intros H.
  apply andb_true_iff in H as [H _]. apply andb_true_iff in H as [H _].
  apply siege_get_total; [assumption|].
  intros sd Hsd. simpl in Hsd. apply andb_true_iff in Hsd as [_ Hsd].
  assumption.
Qed.

Lemma address_matches_ret (address : str) (r : value) :
  candidate_ok r = true ->
  exists v,
    siege_get r "adresse" = Ret v
    /\ addresses_match clean_foreign address v
       = Ret (address_matches clean_foreign address r).
Proof.
  intros H. destruct (siege_adresse_total r H) as (v & Hv & Hn).
  exists v. split; [assumption|]. unfold address_matches. rewrite Hv. simpl.
  destruct (addresses_match_total clean_foreign address v Hn) as [b ->].
  reflexivity.
Qed.

Lemma candidate_fields (r : value) :
  candidate_ok r = true ->
  exists d,
    r = VDict d
    /\ field d "dirigeants" officers_ok = true
    /\ field d "date_creation" null_or_str = true.
Proof.
  destruct r as [| | | | |d]; try discriminate. simpl. intros H.
  apply andb_true_iff in H as [H Hdate]. apply andb_true_iff in H as [H Hdir].
  eauto.
Qed.

Lemma tranche_effectif_desc_total (t : value) :
  null_or_str t = true -> exists s, tranche_effectif_desc t = Ret s.
Proof. destruct t; try discriminate; simpl; eauto. Qed.

Lemma year_of_date_total (date : value) :
  null_or_str date = true -> exists y, year_of_date date = Ret y.
Proof.
  destruct date as [| | |x| |]; try discriminate; intros _;
    unfold year_of_date.
  - exists (VStr []). reflexivity.
  - destruct (truthy (VStr x)); eexists; reflexivity.
Qed.

Lemma get_total (d : list (str * value)) (key : string) (default : value) :
  exists v, get (VDict d) key default = Ret v.
Proof. simpl. eauto. Qed.

Lemma build_entity_total (address : str) (r : value) :
  candidate_ok r = true ->
  exists e,
    build_entity clean_foreign annee_actuelle address r = Ret e
    /\ Entity.match_adresse e
       = if address_matches clean_foreign address r then u8 "Oui" else u8 "Non".
Proof.
  intros H. unfold build_entity.
  destruct (address_matches_ret address r H) as (v & Hv & Hm).
  destruct (siege_tranche_total r H) as (t & Ht & Hn).
  destruct (tranche_effectif_desc_total t Hn) as [s Hs].
  destruct (candidate_fields r H) as (d & -> & Hdir & Hdate).
  destruct (read_dirigeants_total annee_actuelle d Hdir) as [st Hst].
  destruct (@get_field d "date_creation" (VStr []) null_or_str Hdate eq_refl)
    as (date & Hd & Hdn).
  destruct (year_of_date_total date Hdn) as [y Hy].
  destruct (get_total d "siren" (VStr [])) as [x1 H1].
  destruct (get_total d "nom_complet" (VStr [])) as [x2 H2].
  destruct (get_total d "etat_administratif" (VStr [])) as [x3 H3].
  rewrite Hst. cbn [bind]. rewrite Hv. cbn [bind]. rewrite Hm. cbn [bind].
  rewrite Ht. cbn [bind]. rewrite Hs. cbn [bind]. rewrite Hd. cbn [bind].
  rewrite Hy. cbn [bind]. rewrite H1. cbn [bind]. rewrite H2. cbn [bind].
  rewrite H3. cbn [bind]. eexists. split; reflexivity.
Qed.

Lemma first_address_match_find (address : str) (l : list value) :
  forallb candidate_ok l = true ->
  first_address_match clean_foreign address l
  = Ret (find (address_matches clean_foreign address) l).
Proof.
  induction l as [|r l IH]; intros H; [reflexivity|].
  cbn [forallb] in H. apply andb_true_iff in H as [Hr Hl].
  destruct (address_matches_ret address r Hr) as (v & Hv & Hm).
  cbn [first_address_match find]. rewrite Hv. cbn [bind].
  rewrite Hm. cbn [bind].
  destruct (address_matches clean_foreign address r); auto.
Qed.

Lemma find_first (A : Type) (p : A -> bool) (l : list A) (c : A) :
  find p l = Some c ->
  exists pre post,
    l = pre ++ c :: post
    /\ forallb (fun r => negb (p r)) pre = true /\ p c = true.
Proof.
  induction l as [|x l IH]; simpl; intros H; [discriminate|].
  destruct (p x) eqn:E.
  - inversion H; subst. exists [], l. auto.
  - destruct (IH H) as (pre & post & -> & Hpre & Hc).
    exists (x :: pre), post. simpl. rewrite E. auto.
Qed.

Lemma find_none_all (A : Type) (p : A -> bool) (l : list A) :
  find p l = None -> forallb (fun r => negb (p r)) l = true.
Proof.
  induction l as [|x l IH]; simpl; intros H; [reflexivity|].
  destruct (p x); [discriminate|]. simpl. auto.
Qed.

Lemma siege_adresse_headquarters (r : value) :
  candidate_ok r = true ->
  siege_get r "adresse" = Ret (headquarters_address r).
Proof.
  destruct r as [| | | | |d]; try discriminate. simpl. intros H.
  apply andb_true_iff in H as [H _]. apply andb_true_iff in H as [H _].
  unfold siege_get, headquarters_address, field in *. cbn [get record_field].
  destruct (assoc (u8 "siege") d) as [siege|]; [|reflexivity].
  destruct siege as [| | | | |sd]; try discriminate. reflexivity.
Qed.

Lemma address_matches_headquarters (address : str) (r : value) :
  candidate_ok r = true ->
  address_matches clean_foreign address r
  = matches_headquarters clean_foreign address r.
Proof.
  intros H. unfold address_matches, matches_headquarters.
  rewrite (siege_adresse_headquarters r H). reflexivity.
Qed.

Lemma forallb_negb_ext (p q : value -> bool) (l : list value) :
  (forall r, In r l -> p r = q r) ->
  forallb (fun r => negb (p r)) l = true ->
  forallb (fun r => negb (q r)) l = true.
Proof.
  intros E H. apply forallb_forall. intros r Hr.
  rewrite <- (E r Hr). exact (proj1 (forallb_forall _ _) H r Hr).
Qed.

(** A record whose headquarters address matches has a headquarters: it
    is not the empty record. *)
Lemma matches_headquarters_truthy (address : str) (r : value) :
  matches_headquarters clean_foreign address r = true -> truthy r = true.
Proof.
  unfold matches_headquarters, headquarters_address.
  destruct r as [| | | | |d]; cbn [record_field];
    try (unfold addresses_match; cbn [truthy isnil negb];
         rewrite orb_true_r; discriminate).
  destruct d as [|kv d]; [|reflexivity].
  cbn [assoc]. unfold addresses_match. cbn [truthy isnil negb].
  rewrite orb_true_r. discriminate.
Qed.

(** C2 (amended) — For a non-empty list of candidate records (records
    with the types of the data model) whose first record has at least
    one field, the selector returns the first record whose headquarters
    address satisfies the address matcher against the input address, and
    the first record of the list when none does; the resolution returns
    the entity built from that record, with its headquarters address,
    flagged "Oui" in the first case and "Non" in the second, never
    [None]. *)
Theorem first_match_or_first_candidate (address : str) (first : value)
  (others : list value) :
  truthy first = true ->
  forallb candidate_ok (first :: others) = true ->
  exists c e,
    choose clean_foreign address (VList (first :: others)) = Ret (Some c)
    /\ resolve clean_foreign annee_actuelle address (VList (first :: others))
       = Ret (Some e)
    /\ build_entity clean_foreign annee_actuelle address c = Ret e
    /\ Entity.adresse e = headquarters_address c
    /\ ((exists pre post,
            first :: others = pre ++ c :: post
            /\ forallb
                 (fun r => negb (matches_headquarters clean_foreign address r))
                 pre = true
            /\ matches_headquarters clean_foreign address c = true
            /\ Entity.match_adresse e = u8 "Oui")
        \/ (forallb
              (fun r => negb (matches_headquarters clean_foreign address r))
              (first :: others) = true
            /\ c = first
            /\ Entity.match_adresse e = u8 "Non")).
Proof.
  intros Hfirst Hl. remember (first :: others) as l eqn:El.
  assert (Heq : forall r, In r l ->
                  address_matches clean_foreign address r
                  = matches_headquarters clean_foreign address r).
  { intros r Hr. apply address_matches_headquarters.
    exact (proj1 (forallb_forall _ _) Hl r Hr). }
  assert (Hc : exists c,
             choose clean_foreign address (VList l) = Ret (Some c)
             /\ In c l
             /\ ((exists pre post,
                     l = pre ++ c :: post
                     /\ forallb
                          (fun r => negb (address_matches clean_foreign address r))
                          pre = true
                     /\ address_matches clean_foreign address c = true)
                 \/ (forallb
                       (fun r => negb (address_matches clean_foreign address r))
                       l = true
                     /\ c = first))).
  { unfold choose. cbn [elements bind].
    rewrite (first_address_match_find address l Hl). cbn [bind].
    destruct (find _ l) as [c|] eqn:E.
    - exists c. split; [reflexivity|]. split; [eapply find_some; eassumption|].
      left. apply find_first. assumption.
    - exists first. rewrite El. split; [reflexivity|].
      split; [left; reflexivity|].
      right. rewrite <- El. split; [apply find_none_all; assumption|].
      reflexivity. }
  destruct Hc as (c & Hc & Hin & Hcase).
  assert (Hok : candidate_ok c = true).
  { exact (proj1 (forallb_forall _ _) Hl c Hin). }
  destruct (build_entity_total address c Hok) as (e & He & Hflag).
  rewrite (Heq c Hin) in Hflag.
  assert (Hadr : Entity.adresse e = headquarters_address c).
  { pose proof (siege_adresse_headquarters c Hok) as Hs.
    unfold build_entity in He. bind_inv He. bind_inv He.
    rewrite Hs in E0. injection E0 as <-.
    do 8 bind_inv He. injection He as <-. reflexivity. }
  assert (Ht : truthy c = true).
  { destruct Hcase as [(pre & post & _ & _ & Hm)|[_ ->]]; [|exact Hfirst].
    rewrite (Heq c Hin) in Hm.
    exact (matches_headquarters_truthy address c Hm). }
  exists c, e. split; [assumption|]. split.
  - unfold resolve. rewrite Hc. cbn [bind]. rewrite Ht, He. reflexivity.
  - split; [assumption|]. split; [assumption|].
    destruct Hcase as [(pre & post & Hsplit & Hpre & Hm)|[Hall Hhd]].
    + left. exists pre, post. rewrite (Heq c Hin) in Hm.
      rewrite Hm in Hflag. split; [assumption|]. split; [|auto].
      eapply forallb_negb_ext; [|exact Hpre].
      intros r Hr. apply Heq. rewrite Hsplit. apply in_or_app. auto.
    + right.
      assert (Hall' : forallb
                (fun r => negb (matches_headquarters clean_foreign address r))
                l = true)
        by (eapply forallb_negb_ext; [exact Heq|exact Hall]).
      clear Hall. rename Hall' into Hall.
      assert (Hm : matches_headquarters clean_foreign address c = false).
      { apply negb_true_iff.
        exact (proj1 (forallb_forall _ _) Hall c Hin). }
      rewrite Hm in Hflag. auto.
Qed.

End Choice.

(** ** The primary officer *)

Section Primary.
Context {U : Unicode}.
Variable annee_actuelle : Z.

Lemma dirigeants_loop_app (l1 l2 : list value) (st st' : officers) :
  dirigeants_loop annee_actuelle st (l1 ++ l2) = Ret st' ->
  exists st1,
    dirigeants_loop annee_actuelle st l1 = Ret st1
    /\ dirigeants_loop annee_actuelle st1 l2 = Ret st'.
Proof.
  revert st. induction l1 as [|d l1 IH]; simpl; intros st H; [eauto|].
  bind_inv H. rewrite E. simpl. auto.
Qed.

Lemma dirigeant_step_ret (st st' : officers) (d : value) :
  dirigeant_step annee_actuelle st d = Ret st' ->
  exists info younger,
    read_dirigeant annee_actuelle d = Ret info
    /\ younger_than (Info.annee info) (annee_naissance_max st) = Ret younger
    /\ st' = dirigeant_update st info younger.
Proof.
  rewrite dirigeant_step_eq. intros H. bind_inv H. bind_inv H.
  inversion H. eauto.
Qed.

Lemma younger_than_str (annee : value) (m : str) (b : bool) :
  m <> [] ->
  younger_than annee (VStr m) = Ret b ->
  if b then exists y, annee = VStr y /\ y <> [] /\ str_ltb m y = true
  else truthy annee = false
       \/ exists y, annee = VStr y /\ y <> [] /\ str_ltb m y = false.
Proof.
  intros Hm. unfold younger_than.
  destruct (truthy annee) eqn:Ht.
  - assert (Hm' : negb (truthy (VStr m)) = false).
    { destruct m; [congruence|reflexivity]. }
    rewrite Hm'. destruct annee as [| | |y| |]; try discriminate.
    simpl. intros H. inversion H; subst b.
    assert (Hy : y <> []). { destruct y; [discriminate|discriminate]. }
    destruct (str_ltb m y) eqn:E; eauto.
  - intros H. inversion H; subst b. auto.
Qed.

(** The greatest year so far is a non-empty string throughout the loop. *)
Lemma annee_naissance_max_str (dirigeants : list value) (st st' : officers) :
  (exists m, annee_naissance_max st = VStr m /\ m <> []) ->
  dirigeants_loop annee_actuelle st dirigeants = Ret st' ->
  exists m, annee_naissance_max st' = VStr m /\ m <> [].
Proof.
  revert st. induction dirigeants as [|d ds IH]; simpl; intros st Hm H.
  - inversion H; subst. assumption.
  - bind_inv H. apply (IH v); [|assumption].
    apply dirigeant_step_ret in E as (info & b & Hr & Hb & ->).
    rewrite annee_max_dirigeant_update.
    destruct Hm as (m & Hmax & Hne). rewrite Hmax in Hb.
    apply younger_than_str in Hb; [|assumption].
    destruct b; [|eauto].
    destruct Hb as (y & Ha & Hy & _). eauto.
Qed.

Lemma year_of_read (d : value) (info : Info.t) (y : str) :
  read_dirigeant annee_actuelle d = Ret info ->
  Info.annee info = VStr y -> y <> [] ->
  year_of annee_actuelle d = Some y.
Proof.
  intros Hr Ha Hy. unfold year_of. rewrite Hr, Ha.
  destruct y; [congruence|reflexivity].
Qed.

(** Before the officer with the latest year: the greatest year so far is
    below it. *)
Lemma latest_before (y : str) (pre : list value) (st st' : officers) :
  (forall d y', In d pre -> year_of annee_actuelle d = Some y' ->
                str_ltb y' y = true) ->
  (exists m, annee_naissance_max st = VStr m /\ m <> []
             /\ str_ltb m y = true) ->
  dirigeants_loop annee_actuelle st pre = Ret st' ->
  exists m, annee_naissance_max st' = VStr m /\ m <> []
            /\ str_ltb m y = true.
Proof.
  revert st. induction pre as [|d pre IH]; simpl; intros st Hpre Hm H.
  - inversion H; subst. assumption.
  - bind_inv H. apply (IH v); [intros; eapply Hpre; eauto| |assumption].
    apply dirigeant_step_ret in E as (info & b & Hr & Hb & ->).
    rewrite annee_max_dirigeant_update.
    destruct Hm as (m & Hmax & Hne & Hlt). rewrite Hmax in Hb.
    apply younger_than_str in Hb; [|assumption].
    destruct b.
    + destruct Hb as (y' & Ha & Hy' & _). exists y'.
      split; [assumption|]. split; [assumption|].
      apply (Hpre d y'); [left; reflexivity|].
      eapply year_of_read; eassumption.
    + exists m. auto.
Qed.

(** After it: no later year is above it, and it keeps the place. *)
Lemma latest_after (y : str) (d0 : value) (post : list value)
  (st st' : officers) :
  y <> [] ->
  named annee_actuelle d0 = true ->
  (forall d y', In d post -> year_of annee_actuelle d = Some y' ->
                str_ltb y y' = false) ->
  is_primary annee_actuelle st d0 ->
  annee_naissance_max st = VStr y ->
  dirigeants_loop annee_actuelle st post = Ret st' ->
  is_primary annee_actuelle st' d0 /\ annee_naissance_max st' = VStr y.
Proof.
  intros Hy Hn. revert st.
  induction post as [|d post IH]; simpl; intros st Hpost Hp Hmax H.
  - inversion H; subst. auto.
  - bind_inv H. apply (IH v); [intros; eapply Hpost; eauto| | |assumption].
    + apply dirigeant_step_ret in E as (info & b & Hr & Hb & ->).
      rewrite Hmax in Hb. apply younger_than_str in Hb; [|assumption].
      destruct b.
      * destruct Hb as (y' & Ha & Hy' & Hlt).
        rewrite (Hpost d y') in Hlt; [discriminate|left; reflexivity|].
        eapply year_of_read; eassumption.
      * destruct Hp as (info0 & Hr0 & Hnom & Hpre & Hq & Ha0).
        exists info0. unfold named in Hn. rewrite Hr0 in Hn.
        unfold dirigeant_update.
        assert (Hf : isnil (nom_dirigeant st) && isnil (prenom_dirigeant st)
                     = false).
        { rewrite Hnom, Hpre.
          destruct (Info.nom info0), (Info.premier_prenom info0);
            simpl in *; congruence. }
        rewrite Hf. simpl. auto.
    + apply dirigeant_step_ret in E as (info & b & Hr & Hb & ->).
      rewrite annee_max_dirigeant_update.
      rewrite Hmax in Hb. apply younger_than_str in Hb; [|assumption].
      destruct b; [|assumption].
      destruct Hb as (y' & Ha & Hy' & Hlt).
      rewrite (Hpost d y') in Hlt; [discriminate|left; reflexivity|].
      eapply year_of_read; eassumption.
Qed.

End Primary.

Section Primary_choice.
Context {U : Unicode}.
Variable annee_actuelle : Z.

Lemma year_of_some (d : value) (y : str) :
  year_of annee_actuelle d = Some y ->
  exists info,
    read_dirigeant annee_actuelle d = Ret info
    /\ Info.annee info = VStr y /\ y <> [].
Proof.
  unfold year_of. destruct (read_dirigeant annee_actuelle d) as [info|];
    [|discriminate].
  destruct (Info.annee info) as [| | |s| |] eqn:Ha; try discriminate.
  destruct s as [|c s]; [discriminate|]. intros H. inversion H; subst.
  exists info. split; [reflexivity|]. split; [assumption|discriminate].
Qed.

Lemma primary_latest_lex (pre post : list value) (d : value) (y : str) :
  forallb officer_ok (pre ++ d :: post) = true ->
  year_of annee_actuelle d = Some y ->
  str_ltb (u8 "0") y = true ->
  named annee_actuelle d = true ->
  (forall d' y', In d' pre -> year_of annee_actuelle d' = Some y' ->
                 str_ltb y' y = true) ->
  (forall d' y', In d' post -> year_of annee_actuelle d' = Some y' ->
                 str_ltb y y' = false) ->
  exists st,
    dirigeants_loop annee_actuelle officers_init (pre ++ d :: post) = Ret st
    /\ is_primary annee_actuelle st d.
Proof.
  intros Hok Hy H0 Hn Hpre Hpost.
  destruct (@dirigeants_loop_total U annee_actuelle _ officers_init Hok)
    as [st Hst]; [simpl; eauto|].
  exists st. split; [assumption|].
  apply dirigeants_loop_app in Hst as (st1 & H1 & H2).
  simpl in H2. bind_inv H2.
  apply year_of_some in Hy as (info & Hr & Ha & Hne).
  assert (Hm : exists m, annee_naissance_max st1 = VStr m /\ m <> []
                         /\ str_ltb m y = true).
  { eapply latest_before; [exact Hpre| |exact H1].
    exists (u8 "0"). split; [reflexivity|]. split; [discriminate|assumption]. }
  destruct Hm as (m & Hmax & Hmne & Hlt).
  apply dirigeant_step_ret in E as (info' & b & Hr' & Hb & ->).
  rewrite Hr in Hr'. inversion Hr'; subst info'.
  rewrite Hmax, Ha in Hb. apply younger_than_str in Hb; [|assumption].
  destruct b.
  - eapply latest_after; [exact Hne|exact Hn|exact Hpost| | |exact H2].
    + exists info. unfold dirigeant_update. simpl. auto.
    + rewrite annee_max_dirigeant_update. assumption.
  - destruct Hb as [Hb|(y' & Hy' & _ & Hb)].
    + destruct y; [congruence|discriminate].
    + inversion Hy'; subst y'. congruence.
Qed.

Lemma four_digits_inv (y : str) :
  four_digits y = true ->
  exists a b c d,
    y = [a; b; c; d]
    /\ ((48 <= a <= 57) /\ (48 <= b <= 57)
        /\ (48 <= c <= 57) /\ (48 <= d <= 57))%N.
Proof.
  unfold four_digits. intros H. apply andb_true_iff in H as [Hl Hd].
  destruct y as [|a [|b [|c [|d [|]]]]]; try discriminate.
  simpl in Hd.
  repeat match goal with
         | H : _ && _ = true |- _ => apply andb_true_iff in H as [? ?]
         end.
  repeat match goal with
         | H : (_ <=? _)%N = true |- _ => apply N.leb_le in H
         end.
  exists a, b, c, d. repeat split; assumption.
Qed.

Lemma four_digits_ltb (x y : str) :
  four_digits x = true -> four_digits y = true ->
  str_ltb x y = (year_number x <? year_number y)%Z.
Proof.
  intros Hx Hy.
  apply four_digits_inv in Hx as (a & b & c & d & -> & Ha & Hb & Hc & Hd).
  apply four_digits_inv in Hy as (a' & b' & c' & d' & -> & Ha' & Hb' & Hc' & Hd').
  unfold year_number. cbn [fold_left str_ltb].
  repeat match goal with
         | |- context [(?p <? ?q)%N] => destruct (N.ltb_spec p q)
         | |- context [(?p =? ?q)%N] => destruct (N.eqb_spec p q)
         end;
    symmetry; first [apply Z.ltb_lt; lia | apply Z.ltb_ge; lia].
Qed.

Lemma four_digits_above_zero (y : str) :
  four_digits y = true -> str_ltb (u8 "0") y = true.
Proof.
  intros Hy. apply four_digits_inv in Hy as (a & b & c & d & -> & Ha & _).
  change (u8 "0") with [48%N]. cbn [str_ltb].
  destruct (N.ltb_spec 48 a); [reflexivity|].
  destruct (N.eqb_spec 48 a); [reflexivity|lia].
Qed.

Lemma primary_latest_number (pre post : list value) (d : value) (y : str) :
  forallb officer_ok (pre ++ d :: post) = true ->
  (forall d' y', In d' (pre ++ d :: post) ->
                 year_of annee_actuelle d' = Some y' ->
                 four_digits y' = true) ->
  year_of annee_actuelle d = Some y ->
  named annee_actuelle d = true ->
  (forall d' y', In d' pre -> year_of annee_actuelle d' = Some y' ->
                 (year_number y' < year_number y)%Z) ->
  (forall d' y', In d' post -> year_of annee_actuelle d' = Some y' ->
                 (year_number y' <= year_number y)%Z) ->
  exists st,
    dirigeants_loop annee_actuelle officers_init (pre ++ d :: post) = Ret st
    /\ is_primary annee_actuelle st d.
Proof.
  intros Hok H4 Hy Hn Hpre Hpost.
  assert (Hy4 : four_digits y = true).
  { apply (H4 d y); [apply in_elt|assumption]. }
  apply primary_latest_lex with (y := y); auto.
  - apply four_digits_above_zero. assumption.
  - intros d' y' Hin Hy'. rewrite four_digits_ltb; auto.
    + apply Z.ltb_lt. eauto.
    + apply (H4 d' y'); [apply in_or_app; left|]; assumption.
  - intros d' y' Hin Hy'. rewrite four_digits_ltb; auto.
    + apply Z.ltb_ge. eauto.
    + apply (H4 d' y'); [apply in_or_app; right; right|]; assumption.
Qed.

End Primary_choice.

Section Three_officers.
Context {U : Unicode}.
Variable annee_actuelle : Z.

Lemma dirigeant_step_known (st : officers) (d : value) (info : Info.t)
  (m : value) (b : bool) :
  read_dirigeant annee_actuelle d = Ret info ->
  annee_naissance_max st = m ->
  younger_than (Info.annee info) m = Ret b ->
  dirigeant_step annee_actuelle st d = Ret (dirigeant_update st info b).
Proof.
  intros Hr <- Hb. rewrite dirigeant_step_eq, Hr. cbn [bind].
  rewrite Hb. reflexivity.
Qed.

Lemma record_entry_new (info : Info.t) (l : list Info.t) :
  Forall (fun d => Info.identifiant d <> Info.identifiant info) l ->
  record_entry info l = l ++ [info].
Proof.
  intros H. unfold record_entry.
  assert (E : update_existing info l = None).
  { induction H as [|d l Hd Hl IH]; simpl; [reflexivity|].
    apply str_eqb_neq in Hd. rewrite Hd, IH. reflexivity. }
  rewrite E. reflexivity.
Qed.

Lemma keyed_distinct (i j : Info.t) :
  keyed i -> keyed j ->
  Info.identifiant i <> Info.identifiant j ->
  str_eqb (Info.nom i) (Info.nom j)
  && str_eqb (Info.premier_prenom i) (Info.premier_prenom j) = false.
Proof.
  intros Hi Hj Hne.
  destruct (str_eqb (Info.nom i) (Info.nom j)) eqn:En; [|reflexivity].
  destruct (str_eqb (Info.premier_prenom i) (Info.premier_prenom j)) eqn:Ep;
    [|reflexivity].
  apply str_eqb_eq in En, Ep. exfalso. apply Hne.
  rewrite Hi, Hj, En, Ep. reflexivity.
Qed.

Lemma primary_of_three (d1 d2 d3 : value) (i1 i2 i3 : Info.t) :
  read_dirigeant annee_actuelle d1 = Ret i1 ->
  read_dirigeant annee_actuelle d2 = Ret i2 ->
  read_dirigeant annee_actuelle d3 = Ret i3 ->
  Info.annee i1 = VStr (u8 "1960") ->
  Info.annee i2 = VStr (u8 "1985") ->
  Info.annee i3 = VStr (u8 "1972") ->
  named annee_actuelle d2 = true ->
  Info.identifiant i1 <> Info.identifiant i2 ->
  Info.identifiant i1 <> Info.identifiant i3 ->
  Info.identifiant i2 <> Info.identifiant i3 ->
  exists st,
    dirigeants_loop annee_actuelle officers_init [d1; d2; d3] = Ret st
    /\ is_primary annee_actuelle st d2
    /\ autres_dirigeants_result st = [alternate i1; alternate i3].
Proof.
  intros H1 H2 H3 A1 A2 A3 Hn N12 N13 N23.
  pose (st1 := dirigeant_update officers_init i1 true).
  pose (st2 := dirigeant_update st1 i2 true).
  pose (st3 := dirigeant_update st2 i3 false).
  assert (Hnamed : isnil (Info.nom i2) && isnil (Info.premier_prenom i2)
                   = false).
  { unfold named in Hn. rewrite H2 in Hn.
    destruct (Info.nom i2), (Info.premier_prenom i2); simpl in *; congruence. }
  assert (S1 : dirigeant_step annee_actuelle officers_init d1 = Ret st1).
  { apply dirigeant_step_known with (m := VStr (u8 "0"));
      [assumption|reflexivity|]. rewrite A1. reflexivity. }
  assert (S2 : dirigeant_step annee_actuelle st1 d2 = Ret st2).
  { apply dirigeant_step_known with (m := VStr (u8 "1960"));
      [assumption| |].
    - unfold st1. rewrite annee_max_dirigeant_update. assumption.
    - rewrite A2. reflexivity. }
  assert (S3 : dirigeant_step annee_actuelle st2 d3 = Ret st3).
  { apply dirigeant_step_known with (m := VStr (u8 "1985"));
      [assumption| |].
    - unfold st2. rewrite annee_max_dirigeant_update. assumption.
    - rewrite A3. reflexivity. }
  assert (Hautres : autres_dirigeants st3 = [i1; i2; i3]).
  { unfold st3, st2, st1. rewrite !autres_dirigeant_update. simpl.
    rewrite (@record_entry_new i1 []) by constructor. simpl.
    rewrite (@record_entry_new i2 [i1]) by (repeat constructor; assumption).
    simpl. rewrite (@record_entry_new i3 [i1; i2])
      by (repeat constructor; assumption).
    reflexivity. }
  assert (Hprim : nom_dirigeant st3 = Info.nom i2
                  /\ prenom_dirigeant st3 = Info.premier_prenom i2
                  /\ qualite_dirigeant st3 = Info.qualite i2
                  /\ annee_naissance_max st3 = Info.annee i2).
  { unfold st3. unfold dirigeant_update at 1 2 3 4.
    change (nom_dirigeant st2) with (Info.nom i2).
    change (prenom_dirigeant st2) with (Info.premier_prenom i2).
    rewrite Hnamed. simpl. auto. }
  exists st3. split; [|split].
  - simpl. rewrite S1. cbn [bind]. rewrite S2. cbn [bind]. rewrite S3.
    reflexivity.
  - exists i2. tauto.
  - destruct Hprim as (Hnom & Hpre & _).
    pose proof (read_dirigeant_keyed annee_actuelle d1 H1) as K1.
    pose proof (read_dirigeant_keyed annee_actuelle d2 H2) as K2.
    pose proof (read_dirigeant_keyed annee_actuelle d3 H3) as K3.
    unfold autres_dirigeants_result. rewrite Hautres.
    unfold is_principal. rewrite Hnom, Hpre. cbn [filter].
    rewrite (keyed_distinct K1 K2 N12), !str_eqb_refl.
    rewrite (keyed_distinct K3 K2) by congruence. reflexivity.
Qed.

End Three_officers.

(** C3 — Line 347 compares the birth years as strings, against what
    lines 268, 280 and 346 announce (the youngest officer): for a record
    whose officers are born in "985" and in "1985", the primary officer
    of the entity is the one born in "985", given as 1041 years old in
    2026, and the officer born in 1985 is an alternate, although 985 is
    below 1985. *)
Lemma primary_year_compared_as_string :
  exists e,
    search_company no_foreign 2026 (transport_of record_985)
      (u8 "Atelier Durand") (u8 "8 rue Haute 21000 Dijon") (u8 "t") = Some e
    /\ Entity.nom_dirigeant e = u8 "DURAND"
    /\ Entity.prenom_dirigeant e = u8 "Paul"
    /\ Entity.age_dirigeant e = u8 "1041 ans"
    /\ map Alt.nom (Entity.autres_dirigeants e) = [u8 "MARTIN"]
    /\ map Alt.age (Entity.autres_dirigeants e) = [u8 "41 ans"]
    /\ py_int (VStr (u8 "985")) = Some 985%Z
    /\ py_int (VStr (u8 "1985")) = Some 1985%Z
    /\ (985 < 1985)%Z.
Proof.
  let v := eval vm_compute in
             (search_company no_foreign 2026 (transport_of record_985)
                (u8 "Atelier Durand") (u8 "8 rue Haute 21000 Dijon")
                (u8 "t")) in
  match v with Some ?e => exists e end.
  repeat split; vm_compute; reflexivity.
Qed.

(** X25 — For officers typed as the data model has them, whose birth
    years are written with four digits, the primary officer is the first
    officer with the numerically highest birth year, provided it has a
    last name or a first name; in particular, of three officers with
    distinct identity keys born in 1960, 1985 and 1972 (in that order),
    the primary is the 1985 officer and the alternates are exactly the
    other two, in their order. *)
Theorem latest_year_primary (U : Unicode) (annee_actuelle : Z) :
  (forall (pre post : list value) (d : value) (y : str),
      forallb officer_ok (pre ++ d :: post) = true ->
      (forall d' y', In d' (pre ++ d :: post) ->
                     year_of annee_actuelle d' = Some y' ->
                     four_digits y' = true) ->
      year_of annee_actuelle d = Some y ->
      named annee_actuelle d = true ->
      (forall d' y', In d' pre -> year_of annee_actuelle d' = Some y' ->
                     (year_number y' < year_number y)%Z) ->
      (forall d' y', In d' post -> year_of annee_actuelle d' = Some y' ->
                     (year_number y' <= year_number y)%Z) ->
      exists st,
        dirigeants_loop annee_actuelle officers_init (pre ++ d :: post)
        = Ret st
        /\ is_primary annee_actuelle st d)
  /\ (forall (d1 d2 d3 : value) (i1 i2 i3 : Info.t),
         read_dirigeant annee_actuelle d1 = Ret i1 ->
         read_dirigeant annee_actuelle d2 = Ret i2 ->
         read_dirigeant annee_actuelle d3 = Ret i3 ->
         Info.annee i1 = VStr (u8 "1960") ->
         Info.annee i2 = VStr (u8 "1985") ->
         Info.annee i3 = VStr (u8 "1972") ->
         named annee_actuelle d2 = true ->
         Info.identifiant i1 <> Info.identifiant i2 ->
         Info.identifiant i1 <> Info.identifiant i3 ->
         Info.identifiant i2 <> Info.identifiant i3 ->
         exists st,
           dirigeants_loop annee_actuelle officers_init [d1; d2; d3] = Ret st
           /\ is_primary annee_actuelle st d2
           /\ autres_dirigeants_result st = [alternate i1; alternate i3]).
Proof.
  split.
  - apply primary_latest_number.
  - apply primary_of_three.
Qed.

(** Three officers of the sample data, born in 1960, 1985 and 1972. *)
Lemma latest_year_primary_witness :
  exists st,
    dirigeants_loop 2026 officers_init [petit_1960; martin_1985; leroy_1972]
    = Ret st
    /\ is_primary 2026 st martin_1985
    /\ map Alt.nom (autres_dirigeants_result st) = [u8 "PETIT"; u8 "LEROY"].
Proof.
  let v1 := eval vm_compute in (read_dirigeant 2026 petit_1960) in
  let v2 := eval vm_compute in (read_dirigeant 2026 martin_1985) in
  let v3 := eval vm_compute in (read_dirigeant 2026 leroy_1972) in
  match constr:((v1, v2, v3)) with
  | (Ret ?i1, Ret ?i2, Ret ?i3) =>
      destruct (proj2 (latest_year_primary Latin1.table 2026)
                  petit_1960 martin_1985 leroy_1972 i1 i2 i3)
        as (st & Hl & Hp & Ha)
  end;
    try (vm_compute; reflexivity); try (vm_compute; discriminate).
  exists st. split; [assumption|]. split; [assumption|].
  rewrite Ha. vm_compute. reflexivity.
Defined.

(** ** Duplicate officers *)

(** C4 — Lines 332-333 replace the entry of an officer by the record
    that has the longer first names, birth year and age included,
    against the comment of line 331 (an entry with less information is
    brought up to date): a record lists the same person with one first
    name and the birth year 1970, then with two first names and no birth
    year, then a younger officer.  The entity has one alternate for this
    person, without age; listed once, the person has the age "56 ans".
    With the two entries exchanged the birth year is lost as well. *)
Lemma duplicate_loses_year :
  (exists e,
      search_company no_foreign 2026 (transport_of record_dupont_twice)
        (u8 "Dupont et Martin") (u8 "2 rue Basse 21000 Dijon") (u8 "t")
      = Some e
      /\ Entity.nom_dirigeant e = u8 "MARTIN"
      /\ Entity.autres_dirigeants e
         = [{| Alt.nom := u8 "DUPONT"; Alt.prenoms := u8 "Jean";
               Alt.qualite := u8 "Gérant"; Alt.age := [];
               Alt.est_personne_morale := false |}])
  /\ (exists e,
         search_company no_foreign 2026 (transport_of record_dupont_exchanged)
           (u8 "Dupont et Martin") (u8 "2 rue Basse 21000 Dijon") (u8 "t")
         = Some e
         /\ Entity.nom_dirigeant e = u8 "MARTIN"
         /\ Entity.autres_dirigeants e
            = [{| Alt.nom := u8 "DUPONT"; Alt.prenoms := u8 "Jean";
                  Alt.qualite := u8 "Gérant"; Alt.age := [];
                  Alt.est_personne_morale := false |}])
  /\ (exists e,
         search_company no_foreign 2026 (transport_of record_dupont_once)
           (u8 "Dupont et Martin") (u8 "2 rue Basse 21000 Dijon") (u8 "t")
         = Some e
         /\ Entity.nom_dirigeant e = u8 "MARTIN"
         /\ Entity.autres_dirigeants e
            = [{| Alt.nom := u8 "DUPONT"; Alt.prenoms := u8 "Jean";
                  Alt.qualite := u8 "Gérant"; Alt.age := u8 "56 ans";
                  Alt.est_personne_morale := false |}]).
Proof.
  split; [|split].
  - let v := eval vm_compute in
               (search_company no_foreign 2026
                  (transport_of record_dupont_twice) (u8 "Dupont et Martin")
                  (u8 "2 rue Basse 21000 Dijon") (u8 "t")) in
    match v with Some ?e => exists e end.
    repeat split; vm_compute; reflexivity.
  - let v := eval vm_compute in
               (search_company no_foreign 2026
                  (transport_of record_dupont_exchanged)
                  (u8 "Dupont et Martin")
                  (u8 "2 rue Basse 21000 Dijon") (u8 "t")) in
    match v with Some ?e => exists e end.
    repeat split; vm_compute; reflexivity.
  - let v := eval vm_compute in
               (search_company no_foreign 2026
                  (transport_of record_dupont_once) (u8 "Dupont et Martin")
                  (u8 "2 rue Basse 21000 Dijon") (u8 "t")) in
    match v with Some ?e => exists e end.
    repeat split; vm_compute; reflexivity.
Qed.

(** ** The search by address *)

Section Address_facts.
Context {U : Unicode} {L : UnicodeLaws U}.
Variable similarity : str -> str -> exc Q.

Lemma address_step_eq (company_name : str) (st : address_best)
  (result : value) :
  address_step similarity company_name st result =
  (sf <- scored similarity company_name result ;;
   Ret (address_update st result (fst sf) (snd sf))).
Proof.
  unfold address_step, scored, address_update.
  repeat match goal with
         | |- bind ?m _ = bind (bind ?m _) _ =>
             destruct m; simpl; [|reflexivity]
         end.
  reflexivity.
Qed.

Lemma Qgtb_le (q a : Q) : (q <= a)%Q -> Qgtb q a = false.
Proof.
  intros H. unfold Qgtb. apply Qle_bool_iff in H. rewrite H. reflexivity.
Qed.

Lemma address_update_low (st : address_best) (r : value) (q : Q) :
  (q <= 10)%Q -> address_update st r q false = st.
Proof.
  intros H. unfold address_update. rewrite (Qgtb_le H). reflexivity.
Qed.

Lemma address_loop_low (company_name : str) (l : list value)
  (st : address_best) :
  (forall r, In r l ->
             exists q, scored similarity company_name r = Ret (q, false)
                       /\ (q <= 10)%Q) ->
  address_loop similarity company_name st l = Ret st.
Proof.
  induction l as [|r l IH]; intros H; [reflexivity|].
  cbn [address_loop]. rewrite address_step_eq.
  destruct (H r (or_introl eq_refl)) as (q & -> & Hq). cbn [bind fst snd].
  rewrite address_update_low by assumption.
  apply IH. intros r' Hr'. apply H. right. assumption.
Qed.

Lemma address_loop_app (company_name : str) (l1 l2 : list value)
  (st st1 : address_best) :
  address_loop similarity company_name st l1 = Ret st1 ->
  address_loop similarity company_name st (l1 ++ l2)
  = address_loop similarity company_name st1 l2.
Proof.
  revert st. induction l1 as [|r l1 IH]; simpl; intros st H.
  - inversion H. reflexivity.
  - destruct (address_step similarity company_name st r) as [st'|];
      [|discriminate].
    simpl in *. auto.
Qed.

(** A flagged result is a record with a field: the text of the empty
    record has no keyword. *)
Lemma flagged_truthy (company_name : str) (c : value) (q : Q) :
  scored similarity company_name c = Ret (q, true) -> truthy c = true.
Proof.
  destruct c as [| | | | |d]; try discriminate.
  destruct d as [|kv d]; [|reflexivity].
  unfold scored. simpl. destruct (similarity company_name []); simpl;
    [|discriminate].
  unfold upper. simpl. rewrite sp_upper. intros H. inversion H.
Qed.

Lemma address_select_flagged (company_name : str) (pre post : list value)
  (c : value) :
  (forall r, In r (pre ++ post) ->
             exists q, scored similarity company_name r = Ret (q, false)
                       /\ (q <= 10)%Q) ->
  (exists q, scored similarity company_name c = Ret (q, true)
             /\ (q <= 10)%Q) ->
  address_select similarity company_name (pre ++ c :: post) = Ret (Some c).
Proof.
  intros Hlow (q & Hc & Hq). unfold address_select.
  rewrite (@address_loop_app company_name pre (c :: post) _ _
             (address_loop_low company_name pre _
                (fun r Hr => Hlow r (in_or_app _ _ _ (or_introl Hr))))).
  cbn [address_loop]. rewrite address_step_eq, Hc. cbn [bind fst snd].
  unfold address_update at 1. rewrite (Qgtb_le Hq). cbn.
  rewrite address_loop_low
    by (intros r Hr; apply Hlow, in_or_app; right; assumption).
  cbn. rewrite (flagged_truthy company_name c Hc). reflexivity.
Qed.

End Address_facts.

Section Fallback.
Context {U : Unicode} {L : UnicodeLaws U}.
Variable requests_get : nat -> str -> str -> exc response.

(** C7 — In the search by address, when no result has a name-similarity
    score above 10 and exactly one result has an electrical keyword in
    its name, description and activity, that result is the one selected
    although its score is at most 10: the selection (whatever arithmetic
    computes the scores) returns it, and the search by address of
    [search_company] continues with the list made of it alone. *)
Theorem flagged_candidate_selected
  (company_name address token : str) (pre post : list value) (c : value) :
  (forall similarity : str -> str -> exc Q,
      (forall r, In r (pre ++ post) ->
                 exists q, scored similarity company_name r = Ret (q, false)
                           /\ (q <= 10)%Q) ->
      (exists q, scored similarity company_name c = Ret (q, true)
                 /\ (q <= 10)%Q) ->
      address_select similarity company_name (pre ++ c :: post)
      = Ret (Some c))
  /\ (forall (r : response) (data : value),
         negb (isnil address)
         && negb (str_mem (strip address) placeholders) = true ->
         negb (isnil (strip (address_query address))) = true ->
         requests_get 1 token (address_query address) = Ret r ->
         status_code r = 200%Z ->
         json r = Ret data ->
         get data "results" (VList []) = Ret (VList (pre ++ c :: post)) ->
         (forall r, In r (pre ++ post) ->
                    exists q,
                      scored string_similarity company_name r = Ret (q, false)
                      /\ (q <= 10)%Q) ->
         (exists q, scored string_similarity company_name c = Ret (q, true)
                    /\ (q <= 10)%Q) ->
         search_by_address requests_get company_name address token
         = Ret (Some (VList [c]))).
Proof.
  split.
  - intros similarity. apply address_select_flagged.
  - intros r data Ha Hq Hr Hs Hj Hg Hlow Hc. unfold search_by_address.
    rewrite Ha, Hq, Hr. cbn [bind]. rewrite Hs. cbn [Z.eqb Pos.eqb].
    rewrite Hj. cbn [bind]. rewrite Hg. cbn [bind].
    assert (Ht : truthy (VList (pre ++ c :: post)) = true).
    { destruct pre; reflexivity. }
    rewrite Ht. cbn [elements bind].
    rewrite (address_select_flagged string_similarity company_name pre post c
               Hlow Hc).
    reflexivity.
Qed.

End Fallback.

(** A bakery, an electrician and a garage at the address of
    "Ets Durand": the electrician is selected. *)
Lemma flagged_candidate_selected_witness :
  address_select string_similarity (u8 "Ets Durand")
    ([bakery] ++ electrician :: [garage]) = Ret (Some electrician).
Proof.
  apply (proj1 (@flagged_candidate_selected Latin1.table latin1_laws
                  (fun _ _ _ => Raise RequestException)
                  (u8 "Ets Durand") [] [] [bakery] [garage] electrician)).
  - intros r [<-|[<-|[]]].
    + let v := eval vm_compute in
                 (scored string_similarity (u8 "Ets Durand") bakery) in
      match v with Ret (?q, _) => exists q end.
      split; [vm_compute; reflexivity|]. unfold Qle. vm_compute. discriminate.
    + let v := eval vm_compute in
                 (scored string_similarity (u8 "Ets Durand") garage) in
      match v with Ret (?q, _) => exists q end.
      split; [vm_compute; reflexivity|]. unfold Qle. vm_compute. discriminate.
  - let v := eval vm_compute in
               (scored string_similarity (u8 "Ets Durand") electrician) in
    match v with Ret (?q, _) => exists q end.
    split; [vm_compute; reflexivity|]. unfold Qle. vm_compute. discriminate.
Defined.

(** ** The properties on the sample records *)

(** The list made of the record without any field alone: the selector
    returns this record, and the resolution returns nothing. *)
Lemma empty_candidate_counterexample :
  candidate_ok (VDict []) = true
  /\ choose no_foreign (u8 "10 rue de Paris 75001 Paris") (VList [VDict []])
     = Ret (Some (VDict []))
  /\ resolve no_foreign 2026 (u8 "10 rue de Paris 75001 Paris")
       (VList [VDict []]) = Ret None
  /\ search_company no_foreign 2026 transport_blank
       (u8 "ACME") (u8 "10 rue de Paris 75001 Paris") (u8 "t") = None.
Proof. repeat split; vm_compute; reflexivity. Qed.

(** Two records; the address is the one of the second, which is chosen
    and flagged "Oui". *)
Lemma first_match_or_first_candidate_witness :
  exists e,
    choose no_foreign (u8 "10 rue de Paris 75001 Paris")
      (VList [record_lyon; record_paris]) = Ret (Some record_paris)
    /\ resolve no_foreign 2026 (u8 "10 rue de Paris 75001 Paris")
         (VList [record_lyon; record_paris]) = Ret (Some e)
    /\ Entity.adresse e = VStr (u8 "10 RUE DE PARIS 75001 PARIS")
    /\ Entity.match_adresse e = u8 "Oui".
Proof.
  destruct (@first_match_or_first_candidate Latin1.table no_foreign 2026
              (u8 "10 rue de Paris 75001 Paris") record_lyon [record_paris])
    as (c & e & Hc & He & _ & Ha & Hcase).
  - reflexivity.
  - vm_compute. reflexivity.
  - exists e. split; [vm_compute; reflexivity|]. split; [exact He|].
    vm_compute in Hc. injection Hc as <-. split.
    + rewrite Ha. vm_compute. reflexivity.
    + destruct Hcase as [(pre & post & _ & _ & _ & Hflag)|(Hall & _)];
        [exact Hflag|].
      vm_compute in Hall. discriminate Hall.
Defined.

(** The entity found for the sample records. *)
Lemma alternates_distinct_bounded_witness :
  exists e,
    search_company no_foreign 2026 transport_found
      (u8 "Volt Electricité Paris") (u8 "10 rue de Paris 75001 Paris")
      (u8 "t") = Some e
    /\ NoDup (map alt_key (Entity.autres_dirigeants e))
    /\ (length (Entity.autres_dirigeants e) <= 5)%nat.
Proof.
  let v := eval vm_compute in
             (search_company no_foreign 2026 transport_found
                (u8 "Volt Electricité Paris")
                (u8 "10 rue de Paris 75001 Paris") (u8 "t")) in
  match v with
  | Some ?e =>
      exists e; split; [vm_compute; reflexivity|];
      destruct (@alternates_distinct_bounded Latin1.table no_foreign 2026
                  transport_found (u8 "Volt Electricité Paris")
                  (u8 "10 rue de Paris 75001 Paris") (u8 "t") e)
        as (Hn & Hl & _)
  end.
  - vm_compute. reflexivity.
  - split; assumption.
Defined.

(** * Further properties *)

(** ** The normal form of an address, word by word *)

Section Address_words.
Context {U : Unicode} {L : UnicodeLaws U}.

Lemma join_cons_char (c : char) (w : str) (ws : list str) :
  join [SP] ((c :: w) :: ws) = c :: join [SP] (w :: ws).
Proof. destruct ws; reflexivity. Qed.

Lemma join_cons_word (w : str) (ws : list str) :
  ws <> [] -> join [SP] (w :: ws) = w ++ SP :: join [SP] ws.
Proof. destruct ws; [congruence|reflexivity]. Qed.

(** A single-spaced string without space at its end is its words joined
    by spaces, after the space it may start with. *)
Lemma single_spaced_join (u : str) (b : bool) :
  Forall (fun c => isword c || isspace c = true) u ->
  single_spaced b u = true ->
  rstrip u = u ->
  u = (if starts_space u then [SP] else []) ++ join [SP] (wordsof u)
  /\ (u <> [] -> wordsof u <> []).
Proof.
  intros Hw. revert b. induction Hw as [|c u Hc Hu IH]; intros b Hs Hr.
  - split; [reflexivity|congruence].
  - rewrite rstrip_cons in Hr. cbn [single_spaced] in Hs.
    cbn [starts_space]. destruct (isspace c) eqn:Ec.
    + (* a space: the rest is not empty and starts with a word *)
      apply andb_true_iff in Hs as [Hs Hu'].
      apply andb_true_iff in Hs as [Hsp _]. apply N.eqb_eq in Hsp. subst c.
      assert (Er : rstrip u = u /\ u <> []).
      { destruct (rstrip u) as [|x t]; [discriminate Hr|].
        inversion Hr. split; congruence. }
      destruct Er as [Er Hun].
      destruct (IH true Hu' Er) as [Hj Hne].
      rewrite wordsof_nonword by apply isword_sp.
      assert (Hst : starts_space u = false).
      { destruct u as [|c' u']; [reflexivity|]. cbn [single_spaced] in Hu'.
        cbn. destruct (isspace c'); [|reflexivity].
        rewrite andb_false_r in Hu'. discriminate. }
      rewrite Hst in Hj. cbn [app] in Hj. split.
      * cbn [app]. f_equal. exact Hj.
      * intros _. apply Hne. exact Hun.
    + (* a word character *)
      assert (Hcw : isword c = true).
      { rewrite orb_false_r in Hc. exact Hc. }
      destruct u as [|c' u'].
      * unfold wordsof. cbn [tokens]. rewrite Hcw. cbn.
        split; [reflexivity|intros _; discriminate].
      * assert (Er : rstrip (c' :: u') = c' :: u').
        { destruct (rstrip (c' :: u')) as [|x t]; [discriminate Hr|].
          inversion Hr. congruence. }
        destruct (IH false Hs Er) as [Hj Hne].
        specialize (Hne ltac:(discriminate)).
        rewrite wordsof_cons. unfold cons_word. rewrite Hcw.
        cbn [starts_space] in Hj. cbn [starts_word].
        destruct (isspace c') eqn:Ec'.
        -- rewrite (space_not_word c' Ec').
           split; [|intros _; discriminate].
           cbn [app]. rewrite join_cons_word by exact Hne.
           cbn [app]. f_equal. exact Hj.
        -- assert (Hcw' : isword c' = true).
           { inversion Hu as [|? ? Hc' _]; subst.
             rewrite Ec', orb_false_r in Hc'. exact Hc'. }
           rewrite Hcw'. cbn [app] in Hj.
           destruct (wordsof (c' :: u')) as [|w ws]; [congruence|].
           split; [|intros _; discriminate]. cbn [app].
           rewrite join_cons_char. f_equal. exact Hj.
Qed.

Lemma normal_join (t : str) : normal t -> t = join [SP] (wordsof t).
Proof.
  intros (_ & _ & Hw & Hs & Hst).
  assert (Hl : lstrip t = t).
  { apply lstrip_id. rewrite <- Hst. apply strip_head. }
  assert (Hr : rstrip t = t).
  { unfold strip in Hst. rewrite Hl in Hst. exact Hst. }
  destruct (@single_spaced_join t false Hw Hs Hr) as [Hj _].
  assert (Hsp : starts_space t = false).
  { pose proof (strip_head t) as H. rewrite Hst in H.
    destruct t; [reflexivity|exact H]. }
  rewrite Hsp in Hj. exact Hj.
Qed.

Lemma abbreviate_words (l : list (str * str)) (s : str) :
  Forall (fun pr => snd pr <> [] /\ Forall capital (snd pr)) l ->
  wordsof (fold_left (fun a pr => sub_word (fst pr) (snd pr) a) l s)
  = map (fun w => fold_left (fun a pr => sub_str (fst pr) (snd pr) a) l w)
        (wordsof s).
Proof.
  intros Hl. revert s. induction Hl as [|[p r] l [Hn Hc] Hl IH]; intros s.
  - cbn. symmetry. apply map_id.
  - cbn [fold_left fst snd]. rewrite IH.
    rewrite wordsof_sub_word by (auto using capital_forallb).
    rewrite map_map. reflexivity.
Qed.

Lemma fold_sub_str_other (l : list (str * str)) (w : str) :
  (forall pr, In pr l -> w <> fst pr) ->
  fold_left (fun a pr => sub_str (fst pr) (snd pr) a) l w = w.
Proof.
  induction l as [|[p r] l IH]; intros H; [reflexivity|].
  cbn [fold_left fst snd]. unfold sub_str at 2.
  assert (E : str_eqb w p = false).
  { apply str_eqb_neq. apply (H (p, r)). left. reflexivity. }
  rewrite E. apply IH. intros pr Hpr. apply H. right. exact Hpr.
Qed.

Lemma fold_sub_str_find (l : list (str * str)) (w : str) :
  (forall pr pr', In pr l -> In pr' l -> snd pr <> fst pr') ->
  fold_left (fun a pr => sub_str (fst pr) (snd pr) a) l w
  = match find (fun pr => str_eqb w (fst pr)) l with
    | Some pr => snd pr
    | None => w
    end.
Proof.
  induction l as [|[p r] l IH]; intros H; [reflexivity|].
  cbn [fold_left find fst snd]. unfold sub_str at 2.
  destruct (str_eqb w p) eqn:E.
  - apply fold_sub_str_other. intros pr Hpr.
    apply (H (p, r) pr); [left; reflexivity|right; exact Hpr].
  - apply IH. intros pr pr' Hpr Hpr'. apply H; right; assumption.
Qed.

Lemma abbreviation_of_fold (w : str) :
  fold_left (fun a pr => sub_str (fst pr) (snd pr) a) abbreviations w
  = abbreviation_of w.
Proof.
  apply fold_sub_str_find. intros pr pr' Hpr Hpr' E.
  apply (abbreviations_disjoint Hpr' Hpr). symmetry. exact E.
Qed.

Lemma clean_address_join (s : str) :
  clean_address s = join [SP] (map abbreviation_of (wordsof (upper s))).
Proof.
  rewrite (normal_join (clean_address_normal s)).
  f_equal. rewrite clean_address_unfold. destruct s as [|c s]; [reflexivity|].
  cbn [isnil]. unfold collapse.
  rewrite wordsof_strip, wordsof_collapse_go.
  rewrite (proj1 (wordsof_sub_punct _)).
  unfold abbreviate. rewrite (abbreviate_words _ abbreviations_capital).
  apply map_ext. apply abbreviation_of_fold.
Qed.

Lemma clean_address_wordless (s : str) :
  wordsof (upper s) = [] -> clean_address s = [].
Proof. intros E. rewrite clean_address_join, E. reflexivity. Qed.

(** X1 — The normal form of an address is made of the runs of word
    characters of its upper-cased text, each of the six long forms
    replaced by its short form, joined by single spaces. *)
Theorem clean_address_words (s : str) :
  clean_address s = join [SP] (map abbreviation_of (wordsof (upper s))).
Proof. apply clean_address_join. Qed.

End Address_words.

Section Address_shape.
Context {U : Unicode} {L : UnicodeLaws U}.

Lemma upper_upper (s : str) : upper (upper s) = upper s.
Proof. apply upper_id, upper_Forall_stable. Qed.

(** X2 — Normalization ignores the case of its input: the normal form of
    an upper-cased address is the normal form of the address. *)
Theorem clean_address_upper (s : str) :
  clean_address (upper s) = clean_address s.
Proof. rewrite !clean_address_join, upper_upper. reflexivity. Qed.

Lemma join_nil_inv (ws : list str) :
  Forall (fun w => w <> []) ws -> join [SP] ws = [] -> ws = [].
Proof.
  intros H E. destruct H as [|w ws Hw Hws]; [reflexivity|].
  exfalso. destruct ws; [cbn in E; congruence|].
  cbn in E. destruct w; [congruence|discriminate].
Qed.

Lemma tokens_words_nonempty (ts : list token) :
  wf_tokens ts = true -> Forall (fun w => w <> []) (words ts).
Proof.
  induction ts as [|[w|c] ts IH]; cbn; intros H.
  - constructor.
  - apply andb_true_iff in H as [H Hts].
    apply andb_true_iff in H as [H _]. apply andb_true_iff in H as [Hn _].
    constructor; [destruct w; [discriminate|discriminate]|auto].
  - apply andb_true_iff in H as [_ Hts]. auto.
Qed.

Lemma wordsof_nonempty (s : str) : Forall (fun w => w <> []) (wordsof s).
Proof. apply tokens_words_nonempty, tokens_wf. Qed.

(** X3 — The normal form of an address is empty exactly when the
    upper-cased address has no word character (letter, digit or
    underscore): an address made of punctuation and white space only is
    normalized to the empty string. *)
Theorem clean_address_empty_iff (s : str) :
  clean_address s = [] <-> wordsof (upper s) = [].
Proof.
  split.
  - intros E. pose proof (clean_address_normal s) as Hn.
    apply normal_join in Hn. rewrite E in Hn at 1.
    assert (Hw : wordsof (clean_address s) = []).
    { apply join_nil_inv; [apply wordsof_nonempty|]. symmetry. exact Hn. }
    rewrite E in Hw.
    rewrite clean_address_join in E.
    apply join_nil_inv in E.
    + apply map_eq_nil in E. exact E.
    + apply Forall_map, Forall_forall. intros w Hin Hab.
      pose proof (proj1 (Forall_forall _ _) (wordsof_nonempty (upper s)) w Hin)
        as Hne.
      unfold abbreviation_of in Hab.
      destruct (find (fun pr => str_eqb w (fst pr)) abbreviations)
        as [pr|] eqn:Ef; cbv beta iota in Hab; [|exact (Hne Hab)].
      apply find_some in Ef as [Hpr _].
      pose proof abbreviations_capital as Hc.
      apply (proj1 (Forall_forall _ _) Hc) in Hpr as [Hn' _].
      exact (Hn' Hab).
  - apply clean_address_wordless.
Qed.

(** X4 — No word of a normal form is one of the six long forms
    BOULEVARD, AVENUE, ROUTE, RUE, SAINT, SAINTE, whatever the input. *)
Theorem clean_address_no_long_form (s : str) :
  forall long,
    In long [u8 "BOULEVARD"; u8 "AVENUE"; u8 "ROUTE"; u8 "RUE"; u8 "SAINT";
             u8 "SAINTE"] ->
    ~ In long (wordsof (clean_address s)).
Proof.
  intros long Hin. destruct (clean_address_normal s) as (_ & Hab & _).
  assert (Hpr : forall p r, In (p, r) abbreviations ->
                            ~ In p (wordsof (clean_address s))).
  { intros p r Hpr. exact (Hab (p, r) Hpr). }
  destruct Hin as [<-|[<-|[<-|[<-|[<-|[<-|[]]]]]]];
    eapply Hpr; unfold abbreviations;
    repeat first [left; reflexivity | right].
Qed.

End Address_shape.

(** ** The address matcher on its edges *)

Section Matcher_edges.
Context {U : Unicode}.
Variable clean_foreign : value -> exc str.

Lemma starts_with_refl (s : str) : starts_with s s = true.
Proof.
  induction s as [|c s IH]; [reflexivity|]. cbn. rewrite N.eqb_refl. exact IH.
Qed.

Lemma contains_refl (s : str) : contains s s = true.
Proof. destruct s; cbn; [reflexivity|]. rewrite N.eqb_refl, starts_with_refl. reflexivity. Qed.

(** X5 — The matcher does not raise on an address of the registry that is
    a string or a false value: a false value (null, empty string, zero,
    empty list or dict) gives False, a string gives a boolean. *)
Theorem addresses_match_returns (original : str) (api : value) :
  (truthy api = false ->
   addresses_match clean_foreign original api = Ret false)
  /\ (forall s, api = VStr s ->
      exists b, addresses_match clean_foreign original api = Ret b).
Proof.
  split.
  - intros H. unfold addresses_match. rewrite H, orb_true_r. reflexivity.
  - intros s ->. apply addresses_match_total. reflexivity.
Qed.

(** X6 — Two addresses with the same non-empty normal form match,
    whatever their case, punctuation and spacing (the original not being
    a placeholder); in particular an address matches itself. *)
Theorem same_normal_form_matches (original api : str) :
  str_mem (strip original) placeholders = false ->
  clean_address original = clean_address api ->
  clean_address original <> [] ->
  addresses_match clean_foreign original (VStr api) = Ret true.
Proof.
  intros Hp He Hn. unfold addresses_match.
  assert (Ho : isnil original = false).
  { destruct original; [exfalso; apply Hn; reflexivity|reflexivity]. }
  assert (Ha : truthy (VStr api) = true).
  { destruct api; [|reflexivity]. exfalso. apply Hn. rewrite He. reflexivity. }
  rewrite Ho, Ha, Hp. cbn [negb orb clean_address_value bind].
  rewrite <- He.
  assert (Hc : isnil (clean_address original) = false).
  { destruct (clean_address original); [congruence|reflexivity]. }
  rewrite Hc, contains_refl. reflexivity.
Qed.

End Matcher_edges.

Section Matcher_wordless.
Context {U : Unicode} {L : UnicodeLaws U}.
Variable clean_foreign : value -> exc str.

(** X7 — An original address without any word character (white space
    and punctuation only) matches no address of the registry. *)
Theorem wordless_address_never_matches (original : str) (api : value) :
  wordsof (upper original) = [] ->
  null_or_str api = true ->
  addresses_match clean_foreign original api = Ret false.
Proof.
  intros Hw Ha. apply clean_address_wordless in Hw.
  unfold addresses_match.
  destruct api as [| | |s| |]; try discriminate.
  - rewrite orb_true_r. reflexivity.
  - destruct (isnil original || negb (truthy (VStr s))); [reflexivity|].
    destruct (str_mem (strip original) placeholders); [reflexivity|].
    rewrite Hw. reflexivity.
Qed.

End Matcher_wordless.

(** ** Words separated by white space *)

Section Split_facts.
Context {U : Unicode}.

Lemma split_spaceless (s : str) : Forall spaceless (split s).
Proof.
  induction s as [|c s IH]; [constructor|].
  cbn [split]. destruct (isspace c) eqn:Ec; [exact IH|].
  destruct s as [|c' s'].
  - repeat constructor; [discriminate|exact Ec].
  - destruct (isspace c') eqn:Ec'.
    + constructor; [|exact IH]. repeat constructor; [discriminate|exact Ec].
    + destruct (split (c' :: s')) as [|w ws].
      * repeat constructor; [discriminate|exact Ec].
      * inversion IH as [|? ? [Hw Hf] Hws]; subst.
        constructor; [|exact Hws]. split; [discriminate|].
        constructor; assumption.
Qed.

Lemma split_Forall (P : char -> Prop) (s : str) :
  Forall P s -> Forall (Forall P) (split s).
Proof.
  induction 1 as [|c s Hc Hs IH]; [constructor|].
  cbn [split]. destruct (isspace c); [exact IH|].
  destruct s as [|c' s'].
  - repeat constructor. exact Hc.
  - destruct (isspace c').
    + constructor; [|exact IH]. repeat constructor. exact Hc.
    + destruct (split (c' :: s')) as [|w ws].
      * repeat constructor. exact Hc.
      * inversion IH; subst. constructor; [|assumption].
        constructor; assumption.
Qed.

Lemma split_word_space (w r : str) :
  spaceless w -> isspace SP = true ->
  split (w ++ SP :: r) = w :: split r.
Proof.
  intros [Hn Hw] Hsp. induction Hw as [|c w Hc Hw IH]; [congruence|].
  cbn [app split]. rewrite Hc. destruct w as [|c' w'].
  - cbn [app]. rewrite Hsp. cbn [split]. rewrite Hsp. reflexivity.
  - cbn [app]. inversion Hw as [|? ? Hc' _]; subst. rewrite Hc'.
    cbn [app] in IH. rewrite IH by discriminate. reflexivity.
Qed.

Lemma split_word (w : str) : spaceless w -> split w = [w].
Proof.
  intros [Hn Hw]. induction Hw as [|c w Hc Hw IH]; [congruence|].
  cbn [split]. rewrite Hc. destruct w as [|c' w']; [reflexivity|].
  inversion Hw as [|? ? Hc' _]; subst. rewrite Hc'.
  rewrite IH by discriminate. reflexivity.
Qed.

(** [split] undoes [' '.join] on words. *)
Lemma split_join (ws : list str) :
  isspace SP = true -> Forall spaceless ws -> split (join [SP] ws) = ws.
Proof.
  intros Hsp H. induction H as [|w ws Hw Hws IH]; [reflexivity|].
  destruct ws as [|w' ws'].
  - cbn. apply split_word. exact Hw.
  - change (join [SP] (w :: w' :: ws'))
      with (w ++ SP :: join [SP] (w' :: ws')).
    rewrite split_word_space by assumption. rewrite IH. reflexivity.
Qed.

Lemma join_snoc (ws : list str) (w : str) :
  ws <> [] -> join [SP] (ws ++ [w]) = join [SP] ws ++ SP :: w.
Proof.
  induction ws as [|x ws IH]; [congruence|]. intros _.
  destruct ws as [|y ws'].
  - reflexivity.
  - change (join [SP] ((x :: y :: ws') ++ [w]))
      with (x ++ SP :: join [SP] ((y :: ws') ++ [w])).
    rewrite IH by discriminate.
    change (join [SP] (x :: y :: ws')) with (x ++ SP :: join [SP] (y :: ws')).
    rewrite <- app_assoc. reflexivity.
Qed.

Lemma rev_join (ws : list str) :
  rev (join [SP] ws) = join [SP] (rev (map (@rev char) ws)).
Proof.
  induction ws as [|w ws IH]; [reflexivity|].
  destruct ws as [|w' ws'].
  - cbn. reflexivity.
  - change (join [SP] (w :: w' :: ws'))
      with (w ++ SP :: join [SP] (w' :: ws')).
    rewrite rev_app_distr. cbn [rev]. rewrite IH.
    cbn [map rev].
    rewrite (join_snoc (ws := rev (map (@rev char) ws') ++ [rev w'])).
    + rewrite <- app_assoc. reflexivity.
    + intros E. apply app_eq_nil in E as [_ E]. discriminate.
Qed.

Lemma strip_id (s : str) :
  match s with c :: _ => isspace c = false | [] => True end ->
  match rev s with c :: _ => isspace c = false | [] => True end ->
  strip s = s.
Proof.
  intros Hh Hl. unfold strip, rstrip.
  rewrite (lstrip_id s Hh), (lstrip_id (rev s) Hl). apply rev_involutive.
Qed.

Lemma join_head (ws : list str) :
  Forall spaceless ws ->
  match join [SP] ws with c :: _ => isspace c = false | [] => True end.
Proof.
  intros H. destruct H as [|w ws [Hn Hw] Hws]; [exact I|].
  destruct Hw as [|c w Hc Hw]; [congruence|].
  destruct ws; exact Hc.
Qed.

Lemma spaceless_rev (w : str) : spaceless w -> spaceless (rev w).
Proof.
  intros [Hn Hw]. split.
  - intros E. apply Hn. rewrite <- (rev_involutive w), E. reflexivity.
  - apply Forall_rev. exact Hw.
Qed.

(** Words joined by spaces have no white space to strip. *)
Lemma strip_join (ws : list str) :
  Forall spaceless ws -> strip (join [SP] ws) = join [SP] ws.
Proof.
  intros H. apply strip_id; [apply join_head; exact H|].
  rewrite rev_join. apply join_head. apply Forall_rev.
  apply Forall_map. eapply Forall_impl; [|exact H].
  intros w. apply spaceless_rev.
Qed.

End Split_facts.

(** ** The simplified company name *)

Section Name_city.
Context {U : Unicode} {L : UnicodeLaws U}.

Lemma length_snoc (A : Type) (l : list A) (x : A) :
  length (l ++ [x]) = S (length l).
Proof. rewrite length_app. cbn. lia. Qed.

Lemma last_n_snoc (A : Type) (l : list A) (x : A) :
  last_n 1 (l ++ [x]) = [x].
Proof.
  unfold last_n. rewrite length_snoc.
  replace (S (length l) - 1)%nat with (length l + 0)%nat by lia.
  rewrite skipn_app, skipn_all2 by lia.
  replace (length l + 0 - length l)%nat with 0%nat by lia. reflexivity.
Qed.

Lemma but_last_n_snoc (A : Type) (l : list A) (x : A) :
  but_last_n 1 (l ++ [x]) = l.
Proof.
  unfold but_last_n. rewrite length_snoc.
  replace (S (length l) - 1)%nat with (length l) by lia.
  rewrite firstn_app, firstn_all. 
  replace (length l - length l)%nat with 0%nat by lia.
  cbn. apply app_nil_r.
Qed.

Lemma nth_last (A : Type) (l : list A) (d : A) :
  nth (length l - 1) l d = last l d.
Proof.
  induction l as [|x l IH]; [reflexivity|].
  destruct l as [|y l']; [reflexivity|].
  change (last (x :: y :: l') d) with (last (y :: l') d).
  rewrite <- IH. cbn [length].
  replace (S (S (length l')) - 1)%nat with (S (S (length l') - 1)) by lia.
  reflexivity.
Qed.

(** The words of an upper-cased name are unchanged by [upper]. *)
Lemma upper_word (s w : str) : In w (split (upper s)) -> upper w = w.
Proof.
  intros Hin. apply upper_id.
  pose proof (split_Forall (upper_Forall_stable (L := L) s)) as H.
  rewrite Forall_forall in H. apply H, Hin.
Qed.

(** X8 — A name of at least two words whose last word is a listed city,
    and whose word before it is not ST or SAINT unless the name has only
    two words, is simplified to its other words, upper-cased and joined
    by single spaces. *)
Theorem trailing_city_stripped (name : str) (ws : list str) (city : str) :
  split (upper (cut_at_separator separators name)) = ws ++ [city] ->
  ws <> [] ->
  str_mem city cities = true ->
  length ws = 1%nat \/ str_mem (last ws []) [u8 "ST"; u8 "SAINT"] = false ->
  simplify_name name = join [SP] ws.
Proof.
  intros Hw Hne Hcity Hst.
  assert (Hup : upper city = city).
  { apply (upper_word (cut_at_separator separators name)).
    rewrite Hw. apply in_or_app. right. left. reflexivity. }
  assert (Hsp : Forall spaceless ws).
  { pose proof (split_spaceless (upper (cut_at_separator separators name)))
      as H.
    rewrite Hw in H. apply Forall_app in H. apply H. }
  unfold simplify_name. rewrite Hw, length_snoc, last_last.
  assert (Hlen : (1 <= length ws)%nat).
  { destruct ws; [congruence|cbn; lia]. }
  replace (1 <? S (length ws))%nat with true
    by (symmetry; apply Nat.ltb_lt; lia).
  rewrite Hcity. cbn [orb].
  replace ((2 <? S (length ws))%nat
           && str_mem (nth (S (length ws) - 2) (ws ++ [city]) [])
                [u8 "ST"; u8 "SAINT"] && true) with false.
  - replace (Nat.min 4 (S (length ws)) - 1)%nat
      with (S (Nat.min 3 (length ws) - 1)) by lia.
    cbn [seq strip_city]. rewrite last_n_snoc. cbn [join].
    rewrite Hup, Hcity, but_last_n_snoc. apply strip_join, Hsp.
  - symmetry. rewrite andb_true_r. destruct Hst as [H1|Hl].
    + rewrite H1. reflexivity.
    + replace (S (length ws) - 2)%nat with (length ws - 1)%nat by lia.
      rewrite app_nth1 by lia. rewrite nth_last, Hl. apply andb_false_r.
Qed.

(** X9 — When the name ends with ST or SAINT followed by a listed city,
    both words are removed when at least two other words come before them,
    and the name is kept as it is when only one does. *)
Theorem saint_city_rule (name : str) (ws : list str) (st city : str) :
  split (upper (cut_at_separator separators name)) = ws ++ [st; city] ->
  str_mem st [u8 "ST"; u8 "SAINT"] = true ->
  str_mem city cities = true ->
  ((2 <= length ws)%nat -> simplify_name name = join [SP] ws)
  /\ (length ws = 1%nat ->
      simplify_name name = cut_at_separator separators name).
Proof.
  intros Hw Hst Hcity.
  assert (Hsp : Forall spaceless ws).
  { pose proof (split_spaceless (upper (cut_at_separator separators name)))
      as H.
    rewrite Hw in H. apply Forall_app in H. apply H. }
  assert (Hlast : last (ws ++ [st; city]) [] = city).
  { change (ws ++ [st; city]) with (ws ++ [st] ++ [city]).
    rewrite app_assoc. apply last_last. }
  assert (Hlen : length (ws ++ [st; city]) = S (S (length ws))).
  { rewrite length_app. cbn. lia. }
  assert (Hnth : nth (S (S (length ws)) - 2) (ws ++ [st; city]) [] = st).
  { replace (S (S (length ws)) - 2)%nat with (length ws) by lia.
    rewrite app_nth2 by lia.
    replace (length ws - length ws)%nat with 0%nat by lia. reflexivity. }
  unfold simplify_name. rewrite Hw, Hlen, Hlast, Hnth, Hcity, Hst.
  cbn [orb andb]. split; intros Hn.
  - replace (1 <? S (S (length ws)))%nat with true
      by (symmetry; apply Nat.ltb_lt; lia).
    replace (2 <? S (S (length ws)))%nat with true
      by (symmetry; apply Nat.ltb_lt; lia).
    replace (3 <? S (S (length ws)))%nat with true
      by (symmetry; apply Nat.ltb_lt; lia).
    cbn [andb]. unfold but_last_n. rewrite Hlen.
    replace (S (S (length ws)) - 2)%nat with (length ws) by lia.
    rewrite firstn_app, firstn_all.
    replace (length ws - length ws)%nat with 0%nat by lia.
    cbn [firstn]. rewrite app_nil_r. apply strip_join, Hsp.
  - rewrite Hn. reflexivity.
Qed.

End Name_city.

Section Name_kept.
Context {U : Unicode} {L : UnicodeLaws U}.

Lemma str_mem_In (x : str) (l : list str) : str_mem x l = true <-> In x l.
Proof.
  unfold str_mem. rewrite existsb_exists. split.
  - intros (y & Hy & E). apply str_eqb_eq in E. subst. exact Hy.
  - intros H. exists x. split; [exact H|apply str_eqb_refl].
Qed.

(** No listed city is written with a space. *)
Lemma city_no_space (x : str) : str_mem x cities = true -> ~ In SP x.
Proof.
  intros H. apply str_mem_In in H.
  assert (Hall : forallb (fun c => negb (existsb (N.eqb SP) c)) cities = true)
    by (vm_compute; reflexivity).
  rewrite forallb_forall in Hall. specialize (Hall x H).
  intros Hin. apply negb_true_iff in Hall.
  assert (existsb (N.eqb SP) x = true) as E
    by (apply existsb_exists; exists SP; split; [exact Hin|apply N.eqb_refl]).
  congruence.
Qed.

Lemma join_has_space (l : list str) :
  (2 <= length l)%nat -> In SP (join [SP] l).
Proof.
  destruct l as [|a [|b l]]; cbn [length]; try lia. intros _.
  change (join [SP] (a :: b :: l)) with (a ++ SP :: join [SP] (b :: l)).
  apply in_or_app. right. left. reflexivity.
Qed.

Lemma upper_has_space (s : str) : In SP s -> In SP (upper s).
Proof.
  intros H. unfold upper. apply in_flat_map. exists SP. split; [exact H|].
  rewrite sp_upper. left. reflexivity.
Qed.

Lemma last_words_no_city (k : nat) (words : list str) :
  (2 <= k)%nat -> (2 <= length words)%nat ->
  str_mem (upper (join [SP] (last_n k words))) cities = false.
Proof.
  intros Hk Hn.
  destruct (str_mem (upper (join [SP] (last_n k words))) cities) eqn:E;
    [|reflexivity].
  exfalso. apply (city_no_space _ E). apply upper_has_space, join_has_space.
  unfold last_n. rewrite length_skipn. lia.
Qed.

(** X10 — Only the last word can make a name lose its city: when the last
    word of the name, upper-cased, is not a listed city, the name is
    returned as the separator cut left it, whatever its last two or three
    words are. *)
Theorem name_without_city_kept (name : str) :
  str_mem (last (split (upper (cut_at_separator separators name))) []) cities
    = false ->
  simplify_name name = cut_at_separator separators name.
Proof.
  intros Hlast. unfold simplify_name. rewrite Hlast. cbn [orb].
  destruct (1 <? length (split (upper (cut_at_separator separators name))))%nat
    eqn:En; [|reflexivity].
  apply Nat.ltb_lt in En.
  rewrite (@last_words_no_city 2%nat _) by lia.
  rewrite (@last_words_no_city 3%nat _) by lia.
  rewrite andb_false_r. reflexivity.
Qed.

End Name_kept.

Section Name_separator.
Context {U : Unicode}.

Lemma before_sep_prefix (sep s : str) :
  exists r, s = before_sep sep s ++ r.
Proof.
  induction s as [|c s [r IH]].
  - exists []. cbn. destruct (starts_with sep []); reflexivity.
  - cbn [before_sep]. destruct (starts_with sep (c :: s)).
    + exists (c :: s). reflexivity.
    + exists r. cbn [app]. rewrite <- IH. reflexivity.
Qed.

Lemma starts_with_app (p s r : str) :
  starts_with p s = true -> starts_with p (s ++ r) = true.
Proof.
  revert s. induction p as [|x p IH]; intros s H; [reflexivity|].
  destruct s as [|y s]; [discriminate|].
  cbn [starts_with app] in *. apply andb_true_iff in H as [-> H].
  rewrite (IH _ H). reflexivity.
Qed.

Lemma contains_app_r (p s r : str) :
  contains p s = true -> contains p (s ++ r) = true.
Proof.
  induction s as [|c s IH]; intros H.
  - cbn [contains] in H. rewrite orb_false_r in H.
    destruct p; [|discriminate]. destruct r; reflexivity.
  - cbn [contains app] in *. apply orb_true_iff in H as [H|H].
    + pose proof (@starts_with_app _ _ r H) as H'. cbn [app] in H'.
      rewrite H'. reflexivity.
    + rewrite (IH H). apply orb_true_r.
Qed.

Lemma contains_app_l (p a s : str) :
  contains p s = true -> contains p (a ++ s) = true.
Proof.
  intros H. induction a as [|c a IH]; [exact H|].
  cbn [app contains]. rewrite IH. apply orb_true_r.
Qed.

Lemma lstrip_suffix (s : str) : exists a, s = a ++ lstrip s.
Proof.
  induction s as [|c s [a IH]]; [exists []; reflexivity|].
  cbn [lstrip]. destruct (isspace c).
  - exists (c :: a). cbn [app]. rewrite <- IH. reflexivity.
  - exists []. reflexivity.
Qed.

Lemma strip_inside (s : str) : exists a b, s = a ++ strip s ++ b.
Proof.
  unfold strip, rstrip.
  destruct (lstrip_suffix s) as [a Ha].
  destruct (lstrip_suffix (rev (lstrip s))) as [b Hb].
  exists a, (rev b). rewrite <- rev_app_distr, <- Hb, rev_involutive.
  exact Ha.
Qed.

Lemma contains_strip (p s : str) :
  contains p (strip s) = true -> contains p s = true.
Proof.
  intros H. destruct (strip_inside s) as (a & b & E). rewrite E.
  apply contains_app_l, contains_app_r, H.
Qed.

Lemma before_sep_free (sep s : str) :
  sep <> [] -> contains sep (before_sep sep s) = false.
Proof.
  intros Hne. induction s as [|c s IH].
  - cbn. destruct sep; [congruence|reflexivity].
  - cbn [before_sep]. destruct (starts_with sep (c :: s)) eqn:E.
    + destruct sep; [congruence|reflexivity].
    + cbn [contains]. rewrite IH, orb_false_r.
      destruct (starts_with sep (c :: before_sep sep s)) eqn:E'; [|reflexivity].
      destruct (before_sep_prefix sep s) as [r Hr].
      apply (@starts_with_app _ _ r) in E'. cbn [app] in E'.
      rewrite <- Hr in E'. congruence.
Qed.

Lemma cut_at_separator_find (seps : list str) (name : str) :
  cut_at_separator seps name =
  match find (fun sep => contains sep name) seps with
  | Some sep => strip (before_sep sep name)
  | None => name
  end.
Proof.
  induction seps as [|sep seps IH]; [reflexivity|].
  cbn [cut_at_separator find]. destruct (contains sep name); [reflexivity|].
  exact IH.
Qed.

(** X11 — The name is cut before the first occurrence of the first listed
    separator it contains, then stripped; what is left no longer contains
    that separator.  A name that contains no listed separator is not
    cut. *)
Theorem separator_cut (name : str) :
  match find (fun sep => contains sep name) separators with
  | Some sep =>
      cut_at_separator separators name = strip (before_sep sep name)
      /\ contains sep (cut_at_separator separators name) = false
  | None => cut_at_separator separators name = name
  end.
Proof.
  rewrite cut_at_separator_find.
  destruct (find (fun sep => contains sep name) separators) as [sep|] eqn:E;
    [|reflexivity].
  split; [reflexivity|].
  apply find_some in E as [Hin _].
  assert (Hne : sep <> []).
  { intros ->. revert Hin. vm_compute. intuition discriminate. }
  destruct (contains sep (strip (before_sep sep name))) eqn:Ec; [|reflexivity].
  apply contains_strip in Ec. rewrite before_sep_free in Ec by exact Hne.
  discriminate.
Qed.

End Name_separator.

(** ** The search by address *)

Section Query.
Context {U : Unicode} {L : UnicodeLaws U}.
Variable clean_foreign : value -> exc str.
Variable annee_actuelle : Z.
Variable requests_get : nat -> str -> str -> exc response.

Lemma Forall_filter_keep (A : Type) (P : A -> Prop) (f : A -> bool)
  (l : list A) : Forall P l -> Forall P (filter f l).
Proof.
  intros H. apply Forall_forall. intros x Hx. apply filter_In in Hx as [Hx _].
  rewrite Forall_forall in H. apply H, Hx.
Qed.

Lemma query_words_spaceless (address : str) :
  Forall spaceless (filter query_word (split address)).
Proof. apply Forall_filter_keep, split_spaceless. Qed.

Lemma join_nil_spaceless (ws : list str) :
  Forall spaceless ws -> join [SP] ws = [] -> ws = [].
Proof.
  intros H E. destruct H as [|w ws [Hn _] _]; [reflexivity|].
  exfalso. destruct w as [|c w]; [congruence|].
  destruct ws; discriminate.
Qed.

(** X12 — The query of the search by address is made of the words of the
    address that have a digit or are a street word, in their order and
    separated by single spaces: splitting it gives these words back, it
    has no white space at either end, and it is empty only when the
    address has no such word. *)
Theorem address_query_words (address : str) :
  split (address_query address) = filter query_word (split address)
  /\ strip (address_query address) = address_query address
  /\ (address_query address = [] <->
      filter query_word (split address) = []).
Proof.
  pose proof (query_words_spaceless address) as H.
  change (address_query address)
    with (join [SP] (filter query_word (split address))).
  split; [|split].
  - apply split_join; [apply sp_isspace|exact H].
  - apply strip_join, H.
  - split; [apply join_nil_spaceless, H|intros ->; reflexivity].
Qed.

(** X13 — When the search by name succeeds without any result, and the
    address is empty, is a placeholder, or has no word with a digit and no
    street word, the resolution ends with no entity, whatever the register
    would answer to a second request. *)
Theorem fallback_needs_query (company_name address token : str) :
  no_result (requests_get 0 token (simplify_name company_name)) = true ->
  isnil address || str_mem (strip address) placeholders
  || isnil (filter query_word (split address)) = true ->
  search_company clean_foreign annee_actuelle requests_get
    company_name address token = None.
Proof.
  intros Hno Haddr. unfold search_company, search_company_try, no_result in *.
  destruct (requests_get 0 token (simplify_name company_name)) as [r|];
    [|discriminate].
  apply andb_true_iff in Hno as [Hs Hno]. cbn [bind]. rewrite Hs.
  destruct (json r) as [data|]; [|discriminate]. cbn [bind].
  destruct (get data "results" (VList [])) as [results|]; [|discriminate].
  cbn [bind]. rewrite Hno.
  assert (E : search_by_address requests_get company_name address token
              = Ret None).
  { unfold search_by_address.
    destruct (negb (isnil address)
              && negb (str_mem (strip address) placeholders)) eqn:Eg;
      [|reflexivity].
    apply andb_true_iff in Eg as [E1 E2].
    apply negb_true_iff in E1, E2. rewrite E1, E2 in Haddr.
    cbn [orb] in Haddr.
    destruct (filter query_word (split address)) eqn:Ef; [|discriminate].
    change (address_query address)
      with (join [SP] (filter query_word (split address))).
    rewrite Ef. reflexivity. }
  rewrite E. reflexivity.
Qed.

End Query.

(** ** The similarity of two names *)

Section Similarity.
Context {U : Unicode}.

Lemma common_chars_sym (s1 s2 : str) :
  common_chars s1 s2 = common_chars s2 s1.
Proof.
  revert s2. induction s1 as [|c1 s1 IH]; intros [|c2 s2]; try reflexivity.
  cbn [common_chars]. rewrite (N.eqb_sym c1 c2), IH. reflexivity.
Qed.

Lemma common_chars_bounds (s1 s2 : str) :
  (0 <= common_chars s1 s2 <= Z.of_nat (Nat.min (length s1) (length s2)))%Z.
Proof.
  revert s2. induction s1 as [|c1 s1 IH]; intros [|c2 s2];
    cbn [common_chars length Nat.min]; try lia.
  specialize (IH s2). destruct (c1 =? c2)%N; lia.
Qed.

Lemma common_chars_same (s : str) :
  common_chars s s = Z.of_nat (length s).
Proof.
  induction s as [|c s IH]; [reflexivity|].
  cbn [common_chars length]. rewrite N.eqb_refl, IH. lia.
Qed.

(** The part of the score that comes from the lengths lies between 0
    and 1. *)
Lemma length_ratio_bounds (a m : Z) :
  (0 <= a <= m)%Z -> (0 < m)%Z ->
  (0 <= inject_Z a / inject_Z m <= 1)%Q.
Proof.
  intros Ha Hm.
  assert (Hm' : (0 < inject_Z m)%Q)
    by (change 0%Q with (inject_Z 0); rewrite <- Zlt_Qlt; exact Hm).
  split.
  - apply Qle_shift_div_l; [exact Hm'|]. rewrite Qmult_0_l.
    change 0%Q with (inject_Z 0). rewrite <- Zle_Qle. lia.
  - apply Qle_shift_div_r; [exact Hm'|]. rewrite Qmult_1_l.
    rewrite <- Zle_Qle. lia.
Qed.

Lemma similarity_bounds (s1 s2 : str) (q : Q) :
  string_similarity s1 s2 = Ret q ->
  (inject_Z (common_chars (upper s1) (upper s2)) <= q
   <= inject_Z (common_chars (upper s1) (upper s2)) + 5)%Q.
Proof.
  unfold string_similarity.
  destruct (Z.max (Z.of_nat (length (upper s1)))
                  (Z.of_nat (length (upper s2))) =? 0)%Z eqn:E;
    [discriminate|].
  intros [= <-]. apply Z.eqb_neq in E.
  pose proof (@length_ratio_bounds
    (Z.abs (Z.of_nat (length (upper s1)) - Z.of_nat (length (upper s2))))
    (Z.max (Z.of_nat (length (upper s1))) (Z.of_nat (length (upper s2)))))
    as H.
  destruct H as [H0 H1]; [lia|lia|]. lra.
Qed.

(** X14 — The similarity score does not depend on the order of the two
    names. *)
Theorem string_similarity_sym (s1 s2 : str) :
  string_similarity s1 s2 = string_similarity s2 s1.
Proof.
  unfold string_similarity.
  rewrite (common_chars_sym (upper s1) (upper s2)).
  rewrite (Z.max_comm (Z.of_nat (length (upper s1)))).
  replace (Z.abs (Z.of_nat (length (upper s1)) - Z.of_nat (length (upper s2))))
    with (Z.abs (Z.of_nat (length (upper s2)) - Z.of_nat (length (upper s1))))
    by lia.
  reflexivity.
Qed.

(** X15 — A score above 10 needs at least six positions at which the two
    upper-cased names have the same character: when one of the names has
    five characters or fewer, the score is at most 10. *)
Theorem similarity_above_ten (s1 s2 : str) (q : Q) :
  string_similarity s1 s2 = Ret q ->
  (10 < q)%Q ->
  (6 <= common_chars (upper s1) (upper s2))%Z
  /\ (6 <= length (upper s1))%nat /\ (6 <= length (upper s2))%nat.
Proof.
  intros Hq Hten. apply similarity_bounds in Hq as [_ Hq].
  pose proof (common_chars_bounds (upper s1) (upper s2)) as Hc.
  assert (H : (5 < common_chars (upper s1) (upper s2))%Z).
  { rewrite Zlt_Qlt. change (inject_Z 5) with 5%Q. lra. }
  lia.
Qed.

(** X16 — Two names that are equal once upper-cased, and not empty, score
    their length plus 5; two empty names make the computation fail on a
    division by zero. *)
Theorem similarity_of_same_name (s1 s2 : str) :
  upper s1 = upper s2 ->
  match upper s1 with
  | [] => string_similarity s1 s2 = Raise ZeroDivisionError
  | _ :: _ =>
      exists q, string_similarity s1 s2 = Ret q
                /\ (q == inject_Z (Z.of_nat (length (upper s1))) + 5)%Q
  end.
Proof.
  intros E. unfold string_similarity. rewrite <- E.
  rewrite Z.max_id, Z.sub_diag, common_chars_same.
  destruct (upper s1) as [|c u] eqn:Eu; [reflexivity|].
  replace (Z.of_nat (length (c :: u)) =? 0)%Z with false
    by (symmetry; apply Z.eqb_neq; cbn [length]; lia).
  eexists. split; [reflexivity|].
  change (Z.abs 0) with 0%Z. change (inject_Z 0) with 0%Q.
  assert (H : (0 / inject_Z (Z.of_nat (length (c :: u))) == 0)%Q)
    by (unfold Qdiv; apply Qmult_0_l).
  rewrite H. lra.
Qed.

End Similarity.

(** ** The result kept by the search by address *)

Section Selection.
Context {U : Unicode}.
Variable similarity : str -> str -> exc Q.
Variable company_name : str.

Lemma Qgtb_true (a b : Q) : Qgtb a b = true -> (b < a)%Q.
Proof.
  unfold Qgtb. intros H. apply negb_true_iff in H.
  apply Qnot_le_lt. intros Hle. apply Qle_bool_iff in Hle. congruence.
Qed.

Lemma Qgtb_false (a b : Q) : Qgtb a b = false -> (a <= b)%Q.
Proof.
  unfold Qgtb. intros H. apply negb_false_iff in H.
  apply Qle_bool_iff, H.
Qed.

Lemma first_of_best_new (counted : bool -> bool) (p : list value)
  (r : value) (q : Q) :
  (forall r' q' f', In r' p ->
     scored similarity company_name r' = Ret (q', f') ->
     counted f' = true -> (q' < q)%Q) ->
  first_of_best similarity company_name counted (p ++ [r]) r q.
Proof.
  intros H. exists p, []. split; [reflexivity|]. split; [exact H|].
  intros r' q' f' [].
Qed.

Lemma first_of_best_next (counted : bool -> bool) (p : list value)
  (r r2 : value) (q q2 : Q) (f2 : bool) :
  first_of_best similarity company_name counted p r q ->
  scored similarity company_name r2 = Ret (q2, f2) ->
  (counted f2 = true -> (q2 <= q)%Q) ->
  first_of_best similarity company_name counted (p ++ [r2]) r q.
Proof.
  intros (pre & post & -> & Hpre & Hpost) Hs Hq.
  exists pre, (post ++ [r2]). split; [rewrite <- app_assoc; reflexivity|].
  split; [exact Hpre|].
  intros r' q' f' Hin Hs' Hc. apply in_app_or in Hin as [Hin|[<-|[]]].
  - eapply Hpost; eassumption.
  - rewrite Hs in Hs'. injection Hs' as <- <-. apply Hq, Hc.
Qed.

Lemma first_of_best_all (counted : bool -> bool) (p : list value)
  (r : value) (q : Q) (f : bool) :
  first_of_best similarity company_name counted p r q ->
  scored similarity company_name r = Ret (q, f) ->
  forall r' q' f', In r' p ->
    scored similarity company_name r' = Ret (q', f') ->
    counted f' = true -> (q' <= q)%Q.
Proof.
  intros (pre & post & -> & Hpre & Hpost) Hs r' q' f' Hin Hs' Hc.
  apply in_app_or in Hin as [Hin|[<-|Hin]].
  - apply Qlt_le_weak. eapply Hpre; eassumption.
  - rewrite Hs in Hs'. injection Hs' as <- <-. apply Qle_refl.
  - eapply Hpost; eassumption.
Qed.

Lemma best_by_score_update (p : list value) (st : address_best)
  (r : value) (q : Q) (f : bool) :
  best_by_score similarity company_name p st ->
  scored similarity company_name r = Ret (q, f) ->
  best_by_score similarity company_name (p ++ [r]) (address_update st r q f).
Proof.
  intros Hinv Hs. unfold best_by_score in *.
  assert (Hbm : forall st', best_match
            (if f && (negb (is_some (best_activity_match st'))
                      || Qgtb q (best_activity_score st'))
             then {| best_match := best_match st';
                     best_score := best_score st';
                     best_activity_match := Some r;
                     best_activity_score := q |}
             else st') = best_match st'
          /\ best_score
            (if f && (negb (is_some (best_activity_match st'))
                      || Qgtb q (best_activity_score st'))
             then {| best_match := best_match st';
                     best_score := best_score st';
                     best_activity_match := Some r;
                     best_activity_score := q |}
             else st') = best_score st').
  { intros st'. destruct (f && _); split; reflexivity. }
  unfold address_update.
  destruct (Qgtb q 10 && Qgtb q (best_score st)) eqn:Eg.
  - apply andb_true_iff in Eg as [E10 Eb].
    apply Qgtb_true in E10, Eb.
    destruct (Hbm {| best_match := Some r; best_score := q;
                     best_activity_match := best_activity_match st;
                     best_activity_score := best_activity_score st |})
      as [-> ->].
    cbn [best_match best_score]. split; [exact E10|].
    split; [exists f; exact Hs|].
    apply first_of_best_new. intros r' q' f' Hin Hs' _.
    destruct (best_match st) as [r0|].
    + destruct Hinv as (_ & [f0 Hs0] & Hfb).
      eapply Qle_lt_trans; [|exact Eb].
      eapply (first_of_best_all Hfb Hs0); [exact Hin|exact Hs'|reflexivity].
    + destruct Hinv as [_ Hall].
      eapply Qle_lt_trans; [|exact E10]. eapply Hall; eassumption.
  - destruct (Hbm st) as [-> ->].
    destruct (best_match st) as [r0|].
    + destruct Hinv as (H10 & [f0 Hs0] & Hfb).
      split; [exact H10|]. split; [exists f0; exact Hs0|].
      eapply first_of_best_next; [exact Hfb|exact Hs|]. intros _.
      apply andb_false_iff in Eg as [Eg|Eg]; apply Qgtb_false in Eg.
      * apply Qlt_le_weak. eapply Qle_lt_trans; eassumption.
      * exact Eg.
    + destruct Hinv as [Hb Hall]. split; [exact Hb|].
      intros r' q' f' Hin Hs'. apply in_app_or in Hin as [Hin|[<-|[]]].
      * eapply Hall; eassumption.
      * rewrite Hs in Hs'. injection Hs' as <- <-.
        apply andb_false_iff in Eg as [Eg|Eg]; apply Qgtb_false in Eg.
        -- exact Eg.
        -- eapply Qle_trans; eassumption.
Qed.

Lemma best_by_activity_update (p : list value) (st : address_best)
  (r : value) (q : Q) (f : bool) :
  best_by_activity similarity company_name p st ->
  scored similarity company_name r = Ret (q, f) ->
  best_by_activity similarity company_name (p ++ [r])
    (address_update st r q f).
Proof.
  intros Hinv Hs. unfold best_by_activity in *.
  assert (E : address_update st r q f =
              let st' := if Qgtb q 10 && Qgtb q (best_score st)
                         then {| best_match := Some r; best_score := q;
                                 best_activity_match := best_activity_match st;
                                 best_activity_score := best_activity_score st |}
                         else st in
              if f && (negb (is_some (best_activity_match st))
                       || Qgtb q (best_activity_score st))
              then {| best_match := best_match st'; best_score := best_score st';
                      best_activity_match := Some r;
                      best_activity_score := q |}
              else st').
  { unfold address_update. destruct (Qgtb q 10 && Qgtb q (best_score st));
      reflexivity. }
  rewrite E. clear E. cbv zeta.
  assert (Hkeep : forall b : bool,
            best_activity_match
              (if b then {| best_match := Some r; best_score := q;
                            best_activity_match := best_activity_match st;
                            best_activity_score := best_activity_score st |}
               else st) = best_activity_match st
            /\ best_activity_score
              (if b then {| best_match := Some r; best_score := q;
                            best_activity_match := best_activity_match st;
                            best_activity_score := best_activity_score st |}
               else st) = best_activity_score st)
    by (intros []; split; reflexivity).
  destruct (f && (negb (is_some (best_activity_match st))
                  || Qgtb q (best_activity_score st))) eqn:Eg.
  - apply andb_true_iff in Eg as [-> Eg].
    cbn [best_activity_match best_activity_score]. split; [exact Hs|].
    apply first_of_best_new. intros r' q' f' Hin Hs' Hf. subst f'.
    destruct (best_activity_match st) as [r0|].
    + destruct Hinv as [Hs0 Hfb]. cbn [is_some negb orb] in Eg.
      apply Qgtb_true in Eg. eapply Qle_lt_trans; [|exact Eg].
      eapply (first_of_best_all Hfb Hs0); [exact Hin|exact Hs'|reflexivity].
    + specialize (Hinv _ _ _ Hin Hs'). discriminate.
  - destruct (Hkeep (Qgtb q 10 && Qgtb q (best_score st))) as [-> ->].
    destruct (best_activity_match st) as [r0|].
    + destruct Hinv as [Hs0 Hfb]. split; [exact Hs0|].
      eapply first_of_best_next; [exact Hfb|exact Hs|]. intros ->.
      cbn [is_some negb orb andb] in Eg. apply Qgtb_false, Eg.
    + intros r' q' f' Hin Hs'. apply in_app_or in Hin as [Hin|[<-|[]]].
      * eapply Hinv; eassumption.
      * rewrite Hs in Hs'. injection Hs' as <- <-.
        destruct f; [discriminate|reflexivity].
Qed.

(** The loop keeps both descriptions of its variables, and every result
    it went through has a score. *)
Lemma address_loop_best (l p : list value) (st st' : address_best) :
  best_by_score similarity company_name p st ->
  best_by_activity similarity company_name p st ->
  address_loop similarity company_name st l = Ret st' ->
  best_by_score similarity company_name (p ++ l) st'
  /\ best_by_activity similarity company_name (p ++ l) st'
  /\ forall r, In r l ->
       exists q f, scored similarity company_name r = Ret (q, f).
Proof.
  revert p st. induction l as [|r l IH]; intros p st Hs Ha Hl.
  - cbn in Hl. injection Hl as <-. rewrite app_nil_r.
    split; [exact Hs|]. split; [exact Ha|]. intros r [].
  - cbn [address_loop] in Hl. rewrite address_step_eq in Hl.
    destruct (scored similarity company_name r) as [[q f]|] eqn:Er;
      [|discriminate].
    cbn [bind fst snd] in Hl.
    pose proof (@best_by_score_update p st r q f Hs Er) as Hs'.
    pose proof (@best_by_activity_update p st r q f Ha Er) as Ha'.
    destruct (IH (p ++ [r]) _ Hs' Ha' Hl) as (H1 & H2 & H3).
    rewrite <- app_assoc in H1, H2. cbn [app] in H1, H2.
    split; [exact H1|]. split; [exact H2|].
    intros r' [<-|Hin]; [eauto|apply H3, Hin].
Qed.

Lemma address_loop_init (l : list value) (st' : address_best) :
  address_loop similarity company_name
    {| best_match := None; best_score := (-1)%Q;
       best_activity_match := None; best_activity_score := (-1)%Q |} l
  = Ret st' ->
  best_by_score similarity company_name l st'
  /\ best_by_activity similarity company_name l st'
  /\ forall r, In r l ->
       exists q f, scored similarity company_name r = Ret (q, f).
Proof.
  intros H. apply (@address_loop_best l []) in H; [exact H| |].
  - split; [cbn; discriminate|]. intros r q f [].
  - intros r q f [].
Qed.

(** A record without any field is scored as the empty name is. *)
Lemma scored_empty_record (q : Q) (f : bool) :
  scored similarity company_name (VDict []) = Ret (q, f) ->
  similarity company_name [] = Ret q.
Proof.
  unfold scored. cbn [get assoc bind py_or truthy isnil negb as_str].
  destruct (similarity company_name []) as [q0|]; cbn [bind];
    [|discriminate].
  intros [= <- _]. reflexivity.
Qed.

(** X17 — Whatever arithmetic computes the similarity score, provided
    the empty name scores at most 10 (as the score of lines 171-179
    does), the result kept by the search by address is the first of the
    results with the highest score when that score is above 10;
    otherwise no result scores above 10, and it is the first of the
    results with the highest score among those that carry an electrical
    keyword. *)
Theorem selected_first_of_best (l : list value) (r : value) :
  (forall q, similarity company_name [] = Ret q -> (q <= 10)%Q) ->
  address_select similarity company_name l = Ret (Some r) ->
  exists q f,
    scored similarity company_name r = Ret (q, f)
    /\ (((10 < q)%Q
         /\ first_of_best similarity company_name (fun _ => true) l r q)
        \/ (f = true
            /\ (forall r' q' f', In r' l ->
                  scored similarity company_name r' = Ret (q', f') ->
                  (q' <= 10)%Q)
            /\ first_of_best similarity company_name (fun f => f) l r q)).
Proof.
  intros Hempty H. unfold address_select in H. bind_inv H.
  apply address_loop_init in E as (Hs & Ha & _).
  unfold best_by_score in Hs. unfold best_by_activity in Ha.
  destruct (best_match v) as [r0|].
  - destruct Hs as (H10 & [f0 Hs0] & Hfb).
    assert (Ht : truthy r0 = true).
    { destruct r0 as [| | | | |d]; try discriminate.
      destruct d as [|kv d]; [|reflexivity]. exfalso.
      apply scored_empty_record, Hempty in Hs0.
      exact (Qlt_not_le _ _ H10 Hs0). }
    rewrite Ht in H. injection H as <-.
    exists (best_score v), f0. split; [exact Hs0|]. left. split; assumption.
  - destruct Hs as [_ Hall].
    destruct (best_activity_match v) as [r0|]; [|discriminate].
    destruct Ha as [Hs0 Hfb].
    destruct (truthy r0); [|discriminate]. injection H as <-.
    exists (best_activity_score v), true. split; [exact Hs0|]. right.
    split; [reflexivity|]. split; [exact Hall|exact Hfb].
Qed.

End Selection.

Section Selection_by_name.
Context {U : Unicode} {L : UnicodeLaws U}.
Variable company_name : str.

(** A result that scores above 10 has a name: it is not the empty
    record. *)
Lemma similar_truthy (r : value) (q : Q) (f : bool) :
  scored string_similarity company_name r = Ret (q, f) ->
  (10 < q)%Q -> truthy r = true.
Proof.
  destruct r as [| | | | |d]; try discriminate.
  destruct d as [|kv d]; [|reflexivity].
  unfold scored. simpl.
  destruct (string_similarity company_name []) as [q0|] eqn:E; simpl;
    [|discriminate].
  intros [= <- _] Hq. exfalso.
  pose proof (similarity_bounds _ _ E) as [_ Hb].
  pose proof (common_chars_bounds (upper company_name) (upper [])) as Hc.
  cbn [upper flat_map length] in Hc. rewrite Nat.min_0_r in Hc.
  assert (Hz : common_chars (upper company_name) (upper []) = 0%Z)
    by (cbn [upper flat_map]; lia).
  rewrite Hz in Hb. change (inject_Z 0) with 0%Q in Hb. lra.
Qed.

Lemma selected_cases (l : list value) (r : value) :
  address_select string_similarity company_name l = Ret (Some r) ->
  exists q f,
    scored string_similarity company_name r = Ret (q, f)
    /\ (((10 < q)%Q
         /\ first_of_best string_similarity company_name
              (fun _ => true) l r q)
        \/ (f = true
            /\ (forall r' q' f', In r' l ->
                  scored string_similarity company_name r' = Ret (q', f') ->
                  (q' <= 10)%Q)
            /\ first_of_best string_similarity company_name
                 (fun f => f) l r q)).
Proof.
  unfold address_select. intros H. bind_inv H.
  apply address_loop_init in E as (Hs & Ha & _).
  unfold best_by_score in Hs. unfold best_by_activity in Ha.
  destruct (best_match v) as [r0|].
  - destruct Hs as (H10 & [f0 Hs0] & Hfb).
    rewrite (similar_truthy _ Hs0 H10) in H. injection H as <-.
    exists (best_score v), f0. split; [exact Hs0|]. left. split; assumption.
  - destruct Hs as [_ Hall].
    destruct (best_activity_match v) as [r0|]; [|discriminate].
    destruct Ha as [Hs0 Hfb].
    destruct (truthy r0); [|discriminate]. injection H as <-.
    exists (best_activity_score v), true. split; [exact Hs0|]. right.
    split; [reflexivity|]. split; [exact Hall|exact Hfb].
Qed.

(** X18 — The search by address keeps no result exactly when every
    result scores at most 10 and none carries an electrical keyword. *)
Theorem nothing_selected_iff (l : list value) :
  address_select string_similarity company_name l = Ret None <->
  forall r, In r l ->
    exists q, scored string_similarity company_name r = Ret (q, false)
              /\ (q <= 10)%Q.
Proof.
  split.
  - unfold address_select. intros H. bind_inv H.
    apply address_loop_init in E as (Hs & Ha & Hall).
    unfold best_by_score in Hs. unfold best_by_activity in Ha.
    destruct (best_match v) as [r0|].
    { destruct Hs as (H10 & [f0 Hs0] & _).
      rewrite (similar_truthy _ Hs0 H10) in H. discriminate. }
    destruct (best_activity_match v) as [r0|].
    { destruct Ha as [Hs0 _].
      rewrite (flagged_truthy _ _ _ Hs0) in H. discriminate. }
    destruct Hs as [_ Hlow]. intros r Hin.
    destruct (Hall r Hin) as (q & f & Hr). exists q.
    rewrite (Ha _ _ _ Hin Hr) in Hr. split; [exact Hr|].
    eapply Hlow; eassumption.
  - intros Hlow. unfold address_select.
    rewrite (address_loop_low _ _ _ _ Hlow). reflexivity.
Qed.

(** X19 — For a company name of five characters or fewer once
    upper-cased, name similarity never selects a result: a result kept by
    the search by address carries an electrical keyword. *)
Theorem short_name_needs_keyword (l : list value) (r : value) :
  (length (upper company_name) <= 5)%nat ->
  address_select string_similarity company_name l = Ret (Some r) ->
  exists q, scored string_similarity company_name r = Ret (q, true).
Proof.
  intros Hlen H. apply selected_cases in H as (q & f & Hs & [[Hq _]|[-> _]]).
  - exfalso. unfold scored in Hs.
    repeat bind_inv Hs. injection Hs as <- _.
    pose proof (similarity_bounds _ _ E4) as [_ Hb].
    pose proof (common_chars_bounds (upper company_name) (upper v3)) as Hc.
    assert (Hz : (common_chars (upper company_name) (upper v3) <= 5)%Z) by lia.
    rewrite Zle_Qle in Hz. change (inject_Z 5) with 5%Q in Hz. lra.
  - exists q. exact Hs.
Qed.

End Selection_by_name.

(** ** Officers without a birth year *)

Section Undated.
Context {U : Unicode}.
Variable clean_foreign : value -> exc str.
Variable annee_actuelle : Z.

Lemma undated_step (st st' : officers) (d : value) (m : str) :
  year_of annee_actuelle d = None ->
  annee_naissance_max st = VStr m -> m <> [] ->
  dirigeant_step annee_actuelle st d = Ret st' ->
  exists info,
    read_dirigeant annee_actuelle d = Ret info
    /\ st' = dirigeant_update st info false.
Proof.
  intros Hy Hm Hne H.
  apply dirigeant_step_ret in H as (info & b & Hr & Hb & ->).
  exists info. split; [exact Hr|]. rewrite Hm in Hb.
  destruct b; [|reflexivity]. exfalso.
  apply younger_than_str in Hb; [|exact Hne].
  destruct Hb as (y & Ey & Hny & _).
  assert (Hs : year_of annee_actuelle d = Some y)
    by (eapply year_of_read; eassumption).
  congruence.
Qed.

Lemma undated_loop (l : list value) (st st' : officers) (m : str) :
  (forall d, In d l -> year_of annee_actuelle d = None) ->
  annee_naissance_max st = VStr m -> m <> [] ->
  dirigeants_loop annee_actuelle st l = Ret st' ->
  annee_naissance_max st' = VStr m
  /\ if isnil (nom_dirigeant st) && isnil (prenom_dirigeant st)
     then match find (has_nom annee_actuelle) l with
          | Some d =>
              primary_fields annee_actuelle (nom_dirigeant st')
                (prenom_dirigeant st') (qualite_dirigeant st') (Some d)
          | None =>
              nom_dirigeant st' = [] /\ prenom_dirigeant st' = []
              /\ qualite_dirigeant st' = qualite_dirigeant st
          end
     else nom_dirigeant st' = nom_dirigeant st
          /\ prenom_dirigeant st' = prenom_dirigeant st
          /\ qualite_dirigeant st' = qualite_dirigeant st.
Proof.
  revert st. induction l as [|d l IH]; intros st Hy Hm Hne H.
  - cbn in H. injection H as <-. split; [exact Hm|].
    destruct (nom_dirigeant st), (prenom_dirigeant st); cbn; auto.
  - cbn [dirigeants_loop] in H. bind_inv H.
    destruct (@undated_step st v d m (Hy d (or_introl eq_refl)) Hm Hne E)
      as (info & Hr & ->).
    assert (Hm1 : annee_naissance_max (dirigeant_update st info false)
                  = VStr m)
      by (rewrite annee_max_dirigeant_update; exact Hm).
    destruct (IH _ (fun d' Hd => Hy d' (or_intror Hd)) Hm1 Hne H)
      as [Hmax Hp].
    split; [exact Hmax|]. clear IH H E Hmax Hm1.
    cbn [find]. unfold has_nom at 1. rewrite Hr.
    unfold dirigeant_update in Hp.
    destruct (isnil (nom_dirigeant st) && isnil (prenom_dirigeant st)) eqn:Ee;
      cbn [andb] in Hp.
    + destruct (negb (isnil (Info.nom info))) eqn:En;
        cbn [nom_dirigeant prenom_dirigeant qualite_dirigeant] in Hp.
      * destruct (Info.nom info) as [|c nom] eqn:Enom; [discriminate|].
        cbn [isnil andb] in Hp. destruct Hp as (H1 & H2 & H3).
        exists info. rewrite Enom. auto.
      * rewrite Ee in Hp. exact Hp.
    + cbn [nom_dirigeant prenom_dirigeant qualite_dirigeant] in Hp.
      rewrite Ee in Hp. exact Hp.
Qed.

(** X20 — When no officer of the chosen record carries a birth year, the
    primary officer of the entity is the first officer that has a last
    name, its age is empty, and the name fields are empty when no officer
    has a last name. *)
Theorem undated_officers_primary (address : str) (best_match : value)
  (l : list value) (e : Entity.t) :
  build_entity clean_foreign annee_actuelle address best_match = Ret e ->
  get best_match "dirigeants" (VList []) = Ret (VList l) ->
  (forall d, In d l -> year_of annee_actuelle d = None) ->
  Entity.age_dirigeant e = []
  /\ primary_fields annee_actuelle (Entity.nom_dirigeant e)
       (Entity.prenom_dirigeant e) (Entity.qualite_dirigeant e)
       (find (has_nom annee_actuelle) l).
Proof.
  intros H Hg Hy. unfold build_entity in H. bind_inv H.
  assert (Hst : annee_naissance_max v = VStr (u8 "0")
                /\ primary_fields annee_actuelle (nom_dirigeant v)
                     (prenom_dirigeant v) (qualite_dirigeant v)
                     (find (has_nom annee_actuelle) l)).
  { unfold read_dirigeants in E. rewrite Hg in E. cbn [bind] in E.
    destruct l as [|d l]; cbn [truthy isnil negb] in E.
    - injection E as <-. cbn. auto.
    - cbn [elements bind] in E.
      assert (Hne : u8 "0" <> []) by discriminate.
      destruct (@undated_loop (d :: l) officers_init v (u8 "0") Hy eq_refl
                  Hne E) as [Hmax Hp].
      split; [exact Hmax|]. cbn [officers_init nom_dirigeant
        prenom_dirigeant qualite_dirigeant isnil andb] in Hp.
      destruct (find (has_nom annee_actuelle) (d :: l)); [exact Hp|].
      exact Hp. }
  destruct Hst as [Hmax Hp]. do 9 bind_inv H. injection H as <-.
  cbn [Entity.age_dirigeant Entity.nom_dirigeant Entity.prenom_dirigeant
       Entity.qualite_dirigeant].
  split; [|exact Hp]. rewrite Hmax. reflexivity.
Qed.

End Undated.

(** ** The entries of the officers *)

Section Entries.
Context {U : Unicode}.
Variable annee_actuelle : Z.

Lemma update_existing_entries (info : Info.t) (l l' : list Info.t) :
  update_existing info l = Some l' ->
  forall i, In i l' -> i = info \/ In i l.
Proof.
  revert l'. induction l as [|d l IH]; cbn [update_existing]; intros l' H;
    [discriminate|].
  destruct (str_eqb (Info.identifiant d) (Info.identifiant info)).
  - injection H as <-. intros i [<-|Hin]; [|right; right; exact Hin].
    destruct (length (Info.prenoms d) <? length (Info.prenoms info))%nat;
      [left; reflexivity|right; left; reflexivity].
  - destruct (update_existing info l) as [l0|]; [|discriminate].
    injection H as <-. intros i [<-|Hin]; [right; left; reflexivity|].
    destruct (IH l0 eq_refl i Hin) as [->|Hi]; [left; reflexivity|].
    right. right. exact Hi.
Qed.

Lemma record_entry_entries (info : Info.t) (l : list Info.t) :
  (forall i, In i (record_entry info l) -> i = info \/ In i l)
  /\ In (Info.identifiant info)
       (map Info.identifiant (record_entry info l))
  /\ forall k, In k (map Info.identifiant l) ->
       In k (map Info.identifiant (record_entry info l)).
Proof.
  unfold record_entry. destruct (update_existing info l) as [l'|] eqn:E.
  - destruct (update_existing_some _ _ E) as (Hm & _ & Hin).
    split; [apply (update_existing_entries _ _ E)|].
    rewrite Hm. split; [exact Hin|auto].
  - split; [|split].
    + intros i Hi. apply in_app_or in Hi as [Hi|[<-|[]]]; auto.
    + rewrite map_app. apply in_or_app. right. left. reflexivity.
    + intros k Hk. rewrite map_app. apply in_or_app. left. exact Hk.
Qed.

Lemma entries_loop (l : list value) (st st' : officers) :
  dirigeants_loop annee_actuelle st l = Ret st' ->
  (forall i, In i (autres_dirigeants st') ->
     In i (autres_dirigeants st)
     \/ exists d, In d l /\ read_dirigeant annee_actuelle d = Ret i)
  /\ (forall k, In k (map Info.identifiant (autres_dirigeants st)) ->
        In k (map Info.identifiant (autres_dirigeants st')))
  /\ (forall d, In d l ->
        exists info,
          read_dirigeant annee_actuelle d = Ret info
          /\ In (Info.identifiant info)
               (map Info.identifiant (autres_dirigeants st'))).
Proof.
  revert st. induction l as [|d l IH]; intros st H.
  - cbn in H. injection H as <-. split; [auto|]. split; [auto|].
    intros d [].
  - cbn [dirigeants_loop] in H. bind_inv H.
    apply dirigeant_step_ret in E as (info & b & Hr & _ & ->).
    destruct (IH _ H) as (H1 & H2 & H3). clear IH H.
    rewrite autres_dirigeant_update in H1, H2.
    destruct (record_entry_entries info (autres_dirigeants st))
      as (R1 & R2 & R3).
    split; [|split].
    + intros i Hi. destruct (H1 i Hi) as [Hin|(d' & Hd' & Hr')].
      * destruct (R1 i Hin) as [->|Hold]; [|left; exact Hold].
        right. exists d. split; [left; reflexivity|exact Hr].
      * right. exists d'. split; [right; exact Hd'|exact Hr'].
    + intros k Hk. apply H2, R3, Hk.
    + intros d' [<-|Hd'].
      * exists info. split; [exact Hr|]. apply H2, R2.
      * apply H3, Hd'.
Qed.

(** X21 — After the loop over the officers of a record, every entry kept
    is the entry read from one of these officers, and every officer has an
    entry under its identifier: no officer is lost and none is made up. *)
Theorem entries_are_officers (l : list value) (st : officers) :
  dirigeants_loop annee_actuelle officers_init l = Ret st ->
  (forall i, In i (autres_dirigeants st) ->
     exists d, In d l /\ read_dirigeant annee_actuelle d = Ret i)
  /\ (forall d, In d l ->
        exists info,
          read_dirigeant annee_actuelle d = Ret info
          /\ In (Info.identifiant info)
               (map Info.identifiant (autres_dirigeants st))).
Proof.
  intros H. apply entries_loop in H as (H1 & _ & H3).
  split; [|exact H3]. intros i Hi. destruct (H1 i Hi) as [[]|Hd]. exact Hd.
Qed.

End Entries.

Section Entry_shape.
Context {U : Unicode} {L : UnicodeLaws U}.
Variable annee_actuelle : Z.

Lemma contains_single (c : char) (s : str) :
  contains [c] s = true -> In c s.
Proof.
  induction s as [|x s IH]; cbn [contains starts_with]; [discriminate|].
  intros H. apply orb_true_iff in H as [H|H].
  - apply andb_true_iff in H as [H _]. apply N.eqb_eq in H. left. congruence.
  - right. apply IH, H.
Qed.

Lemma spaceless_no_space (w : str) : spaceless w -> contains [SP] w = false.
Proof.
  intros [_ Hw]. destruct (contains [SP] w) eqn:E; [|reflexivity].
  apply contains_single in E. rewrite Forall_forall in Hw.
  specialize (Hw _ E). rewrite sp_isspace in Hw. discriminate.
Qed.

Lemma stripped_strip (v : value) : strip (stripped v) = stripped v.
Proof. destruct v; try reflexivity. apply strip_idem. Qed.

(** X22 — The entry read from an officer has a last name, first names
    and a quality without white space at either end; its last name does
    not keep both an opening and a closing parenthesis, and its first
    first-name has no space. *)
Theorem entry_fields_clean (dirigeant : value) (info : Info.t) :
  read_dirigeant annee_actuelle dirigeant = Ret info ->
  strip (Info.nom info) = Info.nom info
  /\ strip (Info.prenoms info) = Info.prenoms info
  /\ strip (Info.qualite info) = Info.qualite info
  /\ contains (u8 "(") (Info.nom info) && contains (u8 ")") (Info.nom info)
     = false
  /\ contains [SP] (Info.premier_prenom info) = false.
Proof.
  unfold read_dirigeant. intros H. do 8 bind_inv H. injection H as <-.
  cbn [Info.nom Info.prenoms Info.qualite Info.premier_prenom].
  split; [|split; [apply stripped_strip|split; [apply stripped_strip|split]]].
  - destruct (negb (isnil (stripped v1)) && contains (u8 "(") (stripped v1)
              && contains (u8 ")") (stripped v1));
      [apply strip_idem|apply stripped_strip].
  - destruct (negb (isnil (stripped v1)) && contains (u8 "(") (stripped v1)
              && contains (u8 ")") (stripped v1)) eqn:Eg.
    + destruct (contains (u8 "(")
                  (strip (before_sep (u8 "(") (stripped v1)))) eqn:Ec;
        [|reflexivity].
      apply contains_strip in Ec.
      rewrite before_sep_free in Ec by discriminate. discriminate.
    + destruct (stripped v1) as [|c s]; [reflexivity|].
      cbn [isnil negb andb] in Eg. exact Eg.
  - destruct (negb (isnil (stripped v3)) && contains [SP] (stripped v3))
      eqn:Eg.
    + pose proof (split_spaceless (stripped v3)) as Hs.
      destruct (split (stripped v3)) as [|w ws]; [discriminate|].
      injection E6 as <-. inversion Hs; subst.
      apply spaceless_no_space. assumption.
    + injection E6 as <-. destruct (stripped v3) as [|c s]; [reflexivity|].
      cbn [isnil negb andb] in Eg. exact Eg.
Qed.

End Entry_shape.

(** ** Where the entity comes from *)

Section Provenance.
Context {U : Unicode}.
Variable clean_foreign : value -> exc str.
Variable annee_actuelle : Z.
Variable requests_get : nat -> str -> str -> exc response.

Lemma first_of_best_in (similarity : str -> str -> exc Q)
  (company_name : str) (counted : bool -> bool) (l : list value)
  (r : value) (q : Q) :
  first_of_best similarity company_name counted l r q -> In r l.
Proof.
  intros (pre & post & -> & _). apply in_or_app. right. left. reflexivity.
Qed.

Lemma address_select_in (similarity : str -> str -> exc Q)
  (company_name : str) (l : list value) (r : value) :
  address_select similarity company_name l = Ret (Some r) ->
  In r l /\ truthy r = true.
Proof.
  unfold address_select. intros H. bind_inv H.
  apply address_loop_init in E as (Hs & Ha & _).
  unfold best_by_score in Hs. unfold best_by_activity in Ha.
  assert (Hpick : forall o : option value,
            (forall r0, o = Some r0 -> In r0 l) ->
            match o with
            | Some r0 => if truthy r0 then Some r0 else None
            | None => None
            end = Some r -> In r l /\ truthy r = true).
  { intros [r0|] Hin Hr; [|discriminate].
    destruct (truthy r0) eqn:Ht; [|discriminate]. injection Hr as <-.
    split; [apply Hin; reflexivity|exact Ht]. }
  assert (H1 : forall r0, best_match v = Some r0 -> In r0 l).
  { intros r0 E0. rewrite E0 in Hs. destruct Hs as (_ & _ & Hfb).
    eapply first_of_best_in, Hfb. }
  assert (H2 : forall r0, best_activity_match v = Some r0 -> In r0 l).
  { intros r0 E0. rewrite E0 in Ha. destruct Ha as (_ & Hfb).
    eapply first_of_best_in, Hfb. }
  destruct (match best_match v with
            | Some r0 => if truthy r0 then Some r0 else None
            | None => None
            end) as [r1|] eqn:E1.
  - injection H as <-. apply (Hpick _ H1 E1).
  - injection H as H. apply (Hpick _ H2 H).
Qed.

Lemma first_address_match_in (address : str) (l : list value) (c : value) :
  first_address_match clean_foreign address l = Ret (Some c) -> In c l.
Proof.
  induction l as [|r l IH]; cbn [first_address_match]; intros H;
    [discriminate|].
  bind_inv H. bind_inv H. destruct v0.
  - injection H as <-. left. reflexivity.
  - right. apply IH, H.
Qed.

Lemma choose_in (address : str) (results : value) (c : value) :
  choose clean_foreign address results = Ret (Some c) ->
  exists l, results = VList l /\ In c l.
Proof.
  unfold choose. intros H. bind_inv H. bind_inv H.
  destruct results as [| | | |l|]; try discriminate.
  injection E as <-. exists l. split; [reflexivity|].
  destruct v0 as [r|].
  - injection H as <-. eapply first_address_match_in, E0.
  - injection H as H. destruct l as [|x l]; [discriminate|].
    injection H as <-. left. reflexivity.
Qed.

(** The record an entity is built from, in the answer that lists it. *)
Lemma search_company_origin (company_name address token : str)
  (e : Entity.t) :
  search_company clean_foreign annee_actuelle requests_get
    company_name address token = Some e ->
  exists (n : nat) (query : str) (r : response) (data : value)
         (l : list value) (best_match : value),
    requests_get n token query = Ret r
    /\ status_code r = 200%Z
    /\ json r = Ret data
    /\ get data "results" (VList []) = Ret (VList l)
    /\ In best_match l
    /\ truthy best_match = true
    /\ build_entity clean_foreign annee_actuelle address best_match = Ret e
    /\ ((n = 0%nat /\ query = simplify_name company_name
         /\ choose clean_foreign address (VList l) = Ret (Some best_match))
        \/ (n = 1%nat /\ query = address_query address
            /\ no_result
                 (requests_get 0 token (simplify_name company_name)) = true)).
Proof.
  unfold search_company, try_except. intros H.
  destruct (search_company_try _ _ _ _ _ _ _) as [o|] eqn:E; [|discriminate].
  subst o. unfold search_company_try in E. bind_inv E.
  destruct (status_code v =? 200)%Z eqn:Es; [|discriminate].
  bind_inv E. bind_inv E.
  destruct (negb (truthy v1)) eqn:Et.
  - assert (Hno : no_result
                    (requests_get 0 token (simplify_name company_name))
                  = true).
    { unfold no_result. rewrite E0, Es, E1, E2, Et. reflexivity. }
    bind_inv E. destruct v2 as [results|]; [|discriminate].
    apply resolve_some in E as (best & Hc & Ht & Hb).
    apply choose_in in Hc as (l & -> & Hin).
    unfold search_by_address in E3.
    destruct (negb (isnil address)
              && negb (str_mem (strip address) placeholders));
      [|discriminate].
    destruct (negb (isnil (strip (address_query address))));
      [|discriminate].
    bind_inv E3.
    destruct (status_code v2 =? 200)%Z eqn:Es2; [|discriminate].
    apply Z.eqb_eq in Es2. bind_inv E3. bind_inv E3.
    destruct (truthy v4); [|discriminate].
    bind_inv E3. bind_inv E3. destruct v6 as [sel|]; [|discriminate].
    injection E3 as <-. destruct Hin as [<-|[]].
    destruct v4 as [| | | |l4|]; try discriminate. injection E6 as <-.
    apply address_select_in in E7 as [Hin _].
    exists 1%nat, (address_query address), v2, v3, l4, sel.
    repeat (split; [assumption|]). right. repeat split. exact Hno.
  - apply Z.eqb_eq in Es.
    apply resolve_some in E as (best & Hc & Ht & Hb).
    destruct (choose_in _ _ Hc) as (l & -> & Hin).
    exists 0%nat, (simplify_name company_name), v, v0, l, best.
    repeat (split; [assumption|]). left. repeat split. exact Hc.
Qed.

(** X24 — An entity returned by [search_company] is built from a
    non-empty record that the register listed in a successful answer:
    the answer to the search by simplified name, or, when that one lists
    nothing, the answer to the search by the query made from the
    address. *)
Theorem entity_from_register (company_name address token : str)
  (e : Entity.t) :
  search_company clean_foreign annee_actuelle requests_get
    company_name address token = Some e ->
  exists (n : nat) (query : str) (r : response) (data : value)
         (l : list value) (best_match : value),
    requests_get n token query = Ret r
    /\ status_code r = 200%Z
    /\ json r = Ret data
    /\ get data "results" (VList []) = Ret (VList l)
    /\ In best_match l
    /\ truthy best_match = true
    /\ build_entity clean_foreign annee_actuelle address best_match = Ret e
    /\ ((n = 0%nat /\ query = simplify_name company_name)
        \/ (n = 1%nat /\ query = address_query address
            /\ no_result
                 (requests_get 0 token (simplify_name company_name)) = true)).
Proof.
  intros H.
  apply search_company_origin in H
    as (n & query & r & data & l & best & H1 & H2 & H3 & H4 & H5 & H6 & H7
        & H8).
  exists n, query, r, data, l, best.
  repeat (split; [assumption|]).
  destruct H8 as [(Hn & Hq & _)|H8]; [left; split; assumption|right; exact H8].
Qed.

(** C10 — Every entity [search_company] returns is built from a record
    listed in a successful answer of the register (the record the
    selector chose, when the answer is that of the search by name); its
    creation date and its creation year are both the first four
    characters of the creation date string of that record when it has at
    least four characters, and the empty string otherwise, also when the
    record has no creation date (field absent or null). *)
Theorem creation_date_is_year
  (company_name address token : str) (e : Entity.t) :
  search_company clean_foreign annee_actuelle requests_get
    company_name address token = Some e ->
  exists (n : nat) (query : str) (r : response) (data : value)
         (l : list value) (best_match : value),
    requests_get n token query = Ret r
    /\ status_code r = 200%Z
    /\ json r = Ret data
    /\ get data "results" (VList []) = Ret (VList l)
    /\ In best_match l
    /\ ((n = 0%nat /\ query = simplify_name company_name
         /\ choose clean_foreign address (VList l) = Ret (Some best_match))
        \/ (n = 1%nat /\ query = address_query address
            /\ no_result
                 (requests_get 0 token (simplify_name company_name)) = true))
    /\ build_entity clean_foreign annee_actuelle address best_match = Ret e
    /\ Entity.annee_creation e = Entity.date_creation e
    /\ (forall s,
          record_field best_match "date_creation" = Some (VStr s) ->
          Entity.date_creation e
          = VStr (if (4 <=? length s)%nat then firstn 4 s else []))
    /\ (record_field best_match "date_creation" = None
        \/ record_field best_match "date_creation" = Some VNone ->
        Entity.date_creation e = VStr []).
Proof.
  intros H.
  apply search_company_origin in H
    as (n & query & r & data & l & best & H1 & H2 & H3 & H4 & H5 & H6 & H7
        & H8).
  exists n, query, r, data, l, best.
  do 6 (split; [assumption|]). split; [assumption|].
  apply build_entity_date in H7 as (date & Hd & Hy & Ha).
  split; [assumption|].
  destruct best as [| | | | |d]; try discriminate.
  cbn [get record_field] in *. injection Hd as Hd. split.
  - intros s Hs. rewrite Hs in Hd. subst date.
    unfold year_of_date in Hy. destruct s as [|c s]; simpl in Hy.
    + inversion Hy. reflexivity.
    + inversion Hy. reflexivity.
  - intros [Hn|Hn]; rewrite Hn in Hd; subst date; simpl in Hy;
      inversion Hy; reflexivity.
Qed.

(** X23 — The address flag of a returned entity is the verdict of
    [addresses_match] on the input address and the address the entity
    reports; it is positive only for an input address that is neither
    empty nor a placeholder and an entity that has an address. *)
Theorem address_flag_sound (company_name address token : str)
  (e : Entity.t) :
  search_company clean_foreign annee_actuelle requests_get
    company_name address token = Some e ->
  (exists b,
      addresses_match clean_foreign address (Entity.adresse e) = Ret b
      /\ Entity.match_adresse e = if b then u8 "Oui" else u8 "Non")
  /\ (Entity.match_adresse e = u8 "Oui" ->
      address <> []
      /\ str_mem (strip address) placeholders = false
      /\ truthy (Entity.adresse e) = true).
Proof.
  intros H. apply search_company_some in H as (results & best & _ & _ & H).
  unfold build_entity in H. do 10 bind_inv H. injection H as <-.
  cbn [Entity.adresse Entity.match_adresse].
  split; [exists v1; split; [exact E1|reflexivity]|].
  destruct v1; [|discriminate]. intros _.
  unfold addresses_match in E1.
  destruct address as [|c address]; [discriminate|].
  cbn [isnil orb] in E1. destruct (truthy v0); [|discriminate].
  cbn [negb] in E1.
  destruct (str_mem (strip (c :: address)) placeholders); [discriminate|].
  repeat split. discriminate.
Qed.

End Provenance.

(** ** The further properties on the sample data *)

Lemma clean_address_words_witness :
  clean_address (u8 "12, Boulevard Saint-Michel  75005")
  = join [SP] (map abbreviation_of
                 (wordsof (upper (u8 "12, Boulevard Saint-Michel  75005")))).
Proof.
  exact (@clean_address_words Latin1.table latin1_laws
           (u8 "12, Boulevard Saint-Michel  75005")).
Defined.

Lemma clean_address_upper_witness :
  clean_address (upper (u8 "12 bis, avenue de la République"))
  = clean_address (u8 "12 bis, avenue de la République").
Proof.
  exact (@clean_address_upper Latin1.table latin1_laws
           (u8 "12 bis, avenue de la République")).
Defined.

Lemma clean_address_empty_iff_witness :
  clean_address (u8 " - / . ") = [].
Proof.
  apply (proj2 (@clean_address_empty_iff Latin1.table latin1_laws
                  (u8 " - / . "))).
  vm_compute. reflexivity.
Defined.

Lemma clean_address_no_long_form_witness :
  ~ In (u8 "RUE") (wordsof (clean_address (u8 "10 rue de la Rue"))).
Proof.
  apply (@clean_address_no_long_form Latin1.table latin1_laws
           (u8 "10 rue de la Rue") (u8 "RUE")).
  do 3 right. left. reflexivity.
Defined.

Lemma addresses_match_returns_witness :
  addresses_match no_foreign (u8 "10 rue de Paris 75001") VNone = Ret false.
Proof.
  apply (proj1 (@addresses_match_returns Latin1.table no_foreign
                  (u8 "10 rue de Paris 75001") VNone)).
  reflexivity.
Defined.

Lemma same_normal_form_matches_witness :
  addresses_match no_foreign (u8 "10, rue de Paris")
    (VStr (u8 "10 RUE  DE PARIS.")) = Ret true.
Proof.
  apply (@same_normal_form_matches Latin1.table no_foreign
           (u8 "10, rue de Paris") (u8 "10 RUE  DE PARIS."));
    vm_compute; [reflexivity|reflexivity|discriminate].
Defined.

Lemma wordless_address_never_matches_witness :
  addresses_match no_foreign (u8 " - / . ")
    (VStr (u8 "10 RUE DE PARIS 75001 PARIS")) = Ret false.
Proof.
  apply (@wordless_address_never_matches Latin1.table latin1_laws no_foreign
           (u8 " - / . ") (VStr (u8 "10 RUE DE PARIS 75001 PARIS")));
    vm_compute; reflexivity.
Defined.

Lemma trailing_city_stripped_witness :
  simplify_name (u8 "Dupont  Electricité Lyon")
  = join [SP] [u8 "DUPONT"; u8 "ELECTRICITÉ"].
Proof.
  apply (@trailing_city_stripped Latin1.table latin1_laws
           (u8 "Dupont  Electricité Lyon")
           [u8 "DUPONT"; u8 "ELECTRICITÉ"] (u8 "LYON")).
  - vm_compute. reflexivity.
  - discriminate.
  - vm_compute. reflexivity.
  - right. vm_compute. reflexivity.
Defined.

Lemma saint_city_rule_witness :
  simplify_name (u8 "Garage Martin St Nice")
  = join [SP] [u8 "GARAGE"; u8 "MARTIN"].
Proof.
  apply (proj1 (@saint_city_rule Latin1.table
                  (u8 "Garage Martin St Nice")
                  [u8 "GARAGE"; u8 "MARTIN"] (u8 "ST") (u8 "NICE")
                  ltac:(vm_compute; reflexivity)
                  ltac:(vm_compute; reflexivity)
                  ltac:(vm_compute; reflexivity))).
  apply le_n.
Defined.

Lemma name_without_city_kept_witness :
  simplify_name (u8 "Paris Garage du Centre")
  = cut_at_separator separators (u8 "Paris Garage du Centre").
Proof.
  apply (@name_without_city_kept Latin1.table latin1_laws
           (u8 "Paris Garage du Centre")).
  vm_compute. reflexivity.
Defined.

Lemma address_query_words_witness :
  split (address_query (u8 "10 rue de la Paix 75002 Paris"))
  = filter query_word (split (u8 "10 rue de la Paix 75002 Paris")).
Proof.
  exact (proj1 (@address_query_words Latin1.table latin1_laws
                  (u8 "10 rue de la Paix 75002 Paris"))).
Defined.

Lemma fallback_needs_query_witness :
  search_company no_foreign 2026 transport_lost
    (u8 "ACME") (u8 "centre ville") (u8 "t") = None.
Proof.
  apply (@fallback_needs_query Latin1.table no_foreign 2026 transport_lost
           (u8 "ACME") (u8 "centre ville") (u8 "t"));
    vm_compute; reflexivity.
Defined.

Lemma similarity_above_ten_witness :
  (6 <= common_chars (upper (u8 "Sarl Volt Electricite"))
          (upper (u8 "SARL VOLT ELECTRICITE PARIS")))%Z
  /\ (6 <= length (upper (u8 "Sarl Volt Electricite")))%nat
  /\ (6 <= length (upper (u8 "SARL VOLT ELECTRICITE PARIS")))%nat.
Proof.
  let v := eval vm_compute in
             (string_similarity (u8 "Sarl Volt Electricite")
                (u8 "SARL VOLT ELECTRICITE PARIS")) in
  match v with
  | Ret ?q =>
      apply (@similarity_above_ten Latin1.table
               (u8 "Sarl Volt Electricite")
               (u8 "SARL VOLT ELECTRICITE PARIS") q)
  end; vm_compute; reflexivity.
Defined.

Lemma similarity_of_same_name_witness :
  exists q,
    string_similarity (u8 "Volt") (u8 "VOLT") = Ret q /\ (q == 4 + 5)%Q.
Proof.
  exact (@similarity_of_same_name Latin1.table (u8 "Volt") (u8 "VOLT")
           ltac:(vm_compute; reflexivity)).
Defined.

Lemma selected_first_of_best_witness :
  exists q f,
    scored string_similarity (u8 "Sarl Volt Electricite") electrician
    = Ret (q, f)
    /\ (((10 < q)%Q
         /\ first_of_best string_similarity (u8 "Sarl Volt Electricite")
              (fun _ => true) [bakery; electrician; garage] electrician q)
        \/ (f = true
            /\ (forall r' q' f', In r' [bakery; electrician; garage] ->
                  scored string_similarity (u8 "Sarl Volt Electricite") r'
                  = Ret (q', f') ->
                  (q' <= 10)%Q)
            /\ first_of_best string_similarity (u8 "Sarl Volt Electricite")
                 (fun f => f) [bakery; electrician; garage] electrician q)).
Proof.
  apply (@selected_first_of_best Latin1.table string_similarity
           (u8 "Sarl Volt Electricite") [bakery; electrician; garage]
           electrician).
  - intros q Hq. vm_compute in Hq. injection Hq as <-.
    vm_compute. discriminate.
  - vm_compute. reflexivity.
Defined.

Lemma nothing_selected_iff_witness :
  address_select string_similarity (u8 "ACME") [bakery; garage] = Ret None <->
  forall r, In r [bakery; garage] ->
    exists q, scored string_similarity (u8 "ACME") r = Ret (q, false)
              /\ (q <= 10)%Q.
Proof.
  exact (@nothing_selected_iff Latin1.table latin1_laws (u8 "ACME")
           [bakery; garage]).
Defined.

Lemma short_name_needs_keyword_witness :
  exists q,
    scored string_similarity (u8 "Volt") electrician = Ret (q, true).
Proof.
  apply (@short_name_needs_keyword Latin1.table (u8 "Volt")
           [bakery; electrician; garage] electrician).
  - vm_compute. repeat constructor.
  - vm_compute. reflexivity.
Defined.

Lemma undated_officers_primary_witness :
  exists e,
    build_entity no_foreign 2026 (u8 "5 rue Neuve 59000 Lille")
      record_undated = Ret e
    /\ Entity.age_dirigeant e = []
    /\ Entity.nom_dirigeant e = u8 "DUPONT".
Proof.
  let v := eval vm_compute in
             (build_entity no_foreign 2026 (u8 "5 rue Neuve 59000 Lille")
                record_undated) in
  match v with
  | Ret ?e =>
      exists e; split; [vm_compute; reflexivity|];
      destruct (@undated_officers_primary Latin1.table no_foreign 2026
                  (u8 "5 rue Neuve 59000 Lille") record_undated
                  [officer_undated "" "Luc" "Associé"; dupont_undated] e)
        as [Hage _]
  end.
  - vm_compute. reflexivity.
  - vm_compute. reflexivity.
  - intros d [<-|[<-|[]]]; vm_compute; reflexivity.
  - split; [exact Hage|vm_compute; reflexivity].
Defined.

Lemma entries_are_officers_witness :
  exists st,
    dirigeants_loop 2026 officers_init
      [petit_1960; dupont_1970; dupont_undated] = Ret st
    /\ forall i, In i (autres_dirigeants st) ->
         exists d, In d [petit_1960; dupont_1970; dupont_undated]
                   /\ read_dirigeant 2026 d = Ret i.
Proof.
  let v := eval vm_compute in
             (dirigeants_loop 2026 officers_init
                [petit_1960; dupont_1970; dupont_undated]) in
  match v with
  | Ret ?st =>
      exists st; split; [vm_compute; reflexivity|];
      apply (@entries_are_officers Latin1.table 2026
               [petit_1960; dupont_1970; dupont_undated] st)
  end.
  vm_compute. reflexivity.
Defined.

Lemma entry_fields_clean_witness :
  exists info,
    read_dirigeant 2026 dupont_remark = Ret info
    /\ Info.nom info = u8 "DUPONT"
    /\ contains [SP] (Info.premier_prenom info) = false.
Proof.
  let v := eval vm_compute in (read_dirigeant 2026 dupont_remark) in
  match v with
  | Ret ?info =>
      exists info; split; [vm_compute; reflexivity|];
      destruct (@entry_fields_clean Latin1.table latin1_laws 2026
                  dupont_remark info) as (_ & _ & _ & _ & Hp)
  end.
  - vm_compute. reflexivity.
  - split; [vm_compute; reflexivity|exact Hp].
Defined.

Lemma address_flag_sound_witness :
  exists e,
    search_company no_foreign 2026 transport_found
      (u8 "Volt Electricité Paris") (u8 "10 rue de Paris 75001 Paris")
      (u8 "t") = Some e
    /\ exists b,
         addresses_match no_foreign (u8 "10 rue de Paris 75001 Paris")
           (Entity.adresse e) = Ret b
         /\ Entity.match_adresse e = if b then u8 "Oui" else u8 "Non".
Proof.
  let v := eval vm_compute in
             (search_company no_foreign 2026 transport_found
                (u8 "Volt Electricité Paris")
                (u8 "10 rue de Paris 75001 Paris") (u8 "t")) in
  match v with
  | Some ?e =>
      exists e; split; [vm_compute; reflexivity|];
      apply (@address_flag_sound Latin1.table no_foreign 2026
               transport_found (u8 "Volt Electricité Paris")
               (u8 "10 rue de Paris 75001 Paris") (u8 "t") e)
  end.
  vm_compute. reflexivity.
Defined.

Lemma entity_from_register_witness :
  exists e,
    search_company no_foreign 2026 transport_found
      (u8 "Volt Electricité Paris") (u8 "10 rue de Paris 75001 Paris")
      (u8 "t") = Some e
    /\ exists (n : nat) (query : str) (r : response) (data : value)
              (l : list value) (best_match : value),
         transport_found n (u8 "t") query = Ret r
         /\ status_code r = 200%Z
         /\ json r = Ret data
         /\ get data "results" (VList []) = Ret (VList l)
         /\ In best_match l
         /\ truthy best_match = true
         /\ build_entity no_foreign 2026 (u8 "10 rue de Paris 75001 Paris")
              best_match = Ret e
         /\ ((n = 0%nat /\ query = simplify_name (u8 "Volt Electricité Paris"))
             \/ (n = 1%nat
                 /\ query = address_query (u8 "10 rue de Paris 75001 Paris")
                 /\ no_result
                      (transport_found 0 (u8 "t")
                         (simplify_name (u8 "Volt Electricité Paris")))
                    = true)).
Proof.
  let v := eval vm_compute in
             (search_company no_foreign 2026 transport_found
                (u8 "Volt Electricité Paris")
                (u8 "10 rue de Paris 75001 Paris") (u8 "t")) in
  match v with
  | Some ?e =>
      exists e; split; [vm_compute; reflexivity|];
      apply (@entity_from_register Latin1.table no_foreign 2026
               transport_found (u8 "Volt Electricité Paris")
               (u8 "10 rue de Paris 75001 Paris") (u8 "t") e)
  end.
  vm_compute. reflexivity.
Defined.

(** The entity found for the sample records is built from the record of
    Paris, created "1998-04-15": its creation date is "1998". *)
Lemma creation_date_is_year_witness :
  exists e,
    search_company no_foreign 2026 transport_found
      (u8 "Volt Electricité Paris") (u8 "10 rue de Paris 75001 Paris")
      (u8 "t") = Some e
    /\ build_entity no_foreign 2026 (u8 "10 rue de Paris 75001 Paris")
         record_paris = Ret e
    /\ Entity.date_creation e = VStr (u8 "1998")
    /\ Entity.annee_creation e = VStr (u8 "1998").
Proof.
  let v := eval vm_compute in
             (search_company no_foreign 2026 transport_found
                (u8 "Volt Electricité Paris")
                (u8 "10 rue de Paris 75001 Paris") (u8 "t")) in
  match v with
  | Some ?e =>
      exists e; split; [vm_compute; reflexivity|];
      destruct (@creation_date_is_year Latin1.table no_foreign 2026
                  transport_found (u8 "Volt Electricité Paris")
                  (u8 "10 rue de Paris 75001 Paris") (u8 "t") e)
        as (n & query & r & data & l & best & Hr & _ & Hj & Hg & _ & Hcase
            & Hb & Ha & Hs & _)
  end.
  - vm_compute. reflexivity.
  - unfold transport_found in Hr. injection Hr as <-.
    cbn [json] in Hj. injection Hj as <-.
    vm_compute in Hg. injection Hg as <-.
    destruct Hcase as [(_ & _ & Hc)|(_ & _ & Hno)];
      [|vm_compute in Hno; discriminate Hno].
    vm_compute in Hc. injection Hc as <-.
    specialize (Hs (u8 "1998-04-15") ltac:(vm_compute; reflexivity)).
    split; [vm_compute; reflexivity|].
    split; [rewrite Hs|rewrite Ha, Hs]; vm_compute; reflexivity.
Defined.
